(** * react-url-params-state: a shallow embedding of [useQueryParams]

    The development follows [src/useQueryParams.ts]:

    - the host platform (strings, [URLSearchParams], numbers, dates, JSON),
    - the codec object [v] ([parseSingle], [serializeSingle], [parseObject],
      [serializeObject]),
    - the navigation bridge ([pushStateEventManager], [patchHistory],
      [unpatchHistory], [applyUrl]),
    - the hook itself ([getParams], [shallowEqual], [setParams],
      [syncParams], and the mount / unmount effect).

    JavaScript strings are modelled by Rocq strings read as byte sequences
    (the UTF-8 form that [URLSearchParams] percent-encodes). *)

From Stdlib Require Import List String Ascii Bool ZArith Arith Lia.
From Stdlib Require Import DecimalString Decimal DecimalZ RelationClasses Permutation Sorted.
Import ListNotations.
Local Open Scope string_scope.
Local Open Scope list_scope.

Set Implicit Arguments.
Set Warnings "-register-all".

(* ================================================================== *)
(** * Strings *)
(* ================================================================== *)

Module Str.

(** [s.split(c)]: the pieces of [s] between occurrences of [c]. *)
Fixpoint split (c : ascii) (s : string) : list string :=
  match s with
  | EmptyString => [EmptyString]
  | String a r =>
      if Ascii.eqb a c then EmptyString :: split c r
      else match split c r with
           | [] => [String a EmptyString]
           | p :: ps => String a p :: ps
           end
  end.

(** [pieces.join(sep)]. *)
Fixpoint join (sep : string) (pieces : list string) : string :=
  match pieces with
  | [] => EmptyString
  | [p] => p
  | p :: ps => p ++ sep ++ join sep ps
  end.

(** The part of [s] before the first [c], and the part after it when
    there is one. *)
Fixpoint cut (c : ascii) (s : string) : string * option string :=
  match s with
  | EmptyString => (EmptyString, None)
  | String a r =>
      if Ascii.eqb a c then (EmptyString, Some r)
      else let '(h, t) := cut c r in (String a h, t)
  end.

Fixpoint map (f : ascii -> ascii) (s : string) : string :=
  match s with
  | EmptyString => EmptyString
  | String a r => String (f a) (map f r)
  end.

Fixpoint forallb (f : ascii -> bool) (s : string) : bool :=
  match s with
  | EmptyString => true
  | String a r => f a && forallb f r
  end.

Definition is_empty (s : string) : bool :=
  match s with EmptyString => true | _ => false end.

(** [xs.includes(s)] on an array of strings. *)
Definition includes (xs : list string) (s : string) : bool :=
  existsb (String.eqb s) xs.

End Str.

(* ================================================================== *)
(** * application/x-www-form-urlencoded, as [URLSearchParams] does it *)
(* ================================================================== *)

Module Form.

Definition is_digit (a : ascii) : bool :=
  let n := nat_of_ascii a in ((48 <=? n) && (n <=? 57))%nat.
Definition is_upper (a : ascii) : bool :=
  let n := nat_of_ascii a in ((65 <=? n) && (n <=? 90))%nat.
Definition is_lower (a : ascii) : bool :=
  let n := nat_of_ascii a in ((97 <=? n) && (n <=? 122))%nat.

(** Bytes the serializer leaves as they are: ASCII alphanumerics and
    [*], [-], [.], [_]. *)
Definition unreserved (a : ascii) : bool :=
  is_digit a || is_upper a || is_lower a
  || Ascii.eqb a "*" || Ascii.eqb a "-" || Ascii.eqb a "." || Ascii.eqb a "_".

Definition hex_digit (n : nat) : ascii :=
  if (n <? 10)%nat then ascii_of_nat (48 + n) else ascii_of_nat (55 + n).

Definition hex_value (a : ascii) : option nat :=
  let n := nat_of_ascii a in
  if is_digit a then Some (n - 48)
  else if ((65 <=? n) && (n <=? 70))%nat then Some (n - 55)
  else if ((97 <=? n) && (n <=? 102))%nat then Some (n - 87)
  else None.

Definition encode_byte (a : ascii) : string :=
  if unreserved a then String a EmptyString
  else if Ascii.eqb a " " then "+"
  else let n := nat_of_ascii a in
       String "%" (String (hex_digit (n / 16)) (String (hex_digit (n mod 16)) EmptyString)).

Fixpoint encode (s : string) : string :=
  match s with
  | EmptyString => EmptyString
  | String a r => encode_byte a ++ encode r
  end.

(** Percent-decoding; a [%] not followed by two hex digits is kept. *)
Fixpoint percent_decode (s : string) : string :=
  match s with
  | EmptyString => EmptyString
  | String a r =>
      if Ascii.eqb a "%" then
        match r with
        | String h (String l r') =>
            match hex_value h, hex_value l with
            | Some x, Some y => String (ascii_of_nat (16 * x + y)) (percent_decode r')
            | _, _ => String a (percent_decode r)
            end
        | _ => String a (percent_decode r)
        end
      else String a (percent_decode r)
  end.

Definition plus_to_space (a : ascii) : ascii :=
  if Ascii.eqb a "+" then " "%char else a.

Definition decode (s : string) : string :=
  percent_decode (Str.map plus_to_space s).

Definition encode_pair (kv : string * string) : string :=
  encode (fst kv) ++ "=" ++ encode (snd kv).

Definition decode_pair (piece : string) : string * string :=
  let '(name, value) := Str.cut "=" piece in
  (decode name, match value with Some v => decode v | None => EmptyString end).

(** The serializer: [name=value] pairs joined by [&]. *)
Definition serialize (l : list (string * string)) : string :=
  Str.join "&" (List.map encode_pair l).

(** The parser: split at [&], drop empty pieces, cut each at its first
    [=], decode both sides. *)
Definition parse (s : string) : list (string * string) :=
  List.map decode_pair
    (List.filter (fun p => negb (Str.is_empty p)) (Str.split "&" s)).

End Form.

(* ================================================================== *)
(** * URLSearchParams *)
(* ================================================================== *)

(** An ordered list of name/value pairs; duplicates are allowed. *)
Definition URLSearchParams := list (string * string).

Module USP.

(** [new URLSearchParams(init)]: one leading [?] is dropped. *)
Definition of_string (init : string) : URLSearchParams :=
  match init with
  | String "?" r => Form.parse r
  | _ => Form.parse init
  end.

Definition toString (sp : URLSearchParams) : string := Form.serialize sp.

(** [sp.get(name)]: the first value, [null] when there is none. *)
Fixpoint get (name : string) (sp : URLSearchParams) : option string :=
  match sp with
  | [] => None
  | (k, x) :: r => if String.eqb k name then Some x else get name r
  end.

Definition getAll (name : string) (sp : URLSearchParams) : list string :=
  List.map snd (List.filter (fun kv => String.eqb (fst kv) name) sp).

Definition delete (name : string) (sp : URLSearchParams) : URLSearchParams :=
  List.filter (fun kv => negb (String.eqb (fst kv) name)) sp.

Definition append (name value : string) (sp : URLSearchParams) : URLSearchParams :=
  sp ++ [(name, value)].

Definition has (name : string) (sp : URLSearchParams) : bool :=
  existsb (fun kv => String.eqb (fst kv) name) sp.

(** [sp.set(name, value)]: the first pair named [name] takes the value
    and the later ones are removed; without one the pair is appended. *)
Fixpoint set (name value : string) (sp : URLSearchParams) : URLSearchParams :=
  match sp with
  | [] => [(name, value)]
  | (k, x) :: r =>
      if String.eqb k name then (k, value) :: delete name r
      else (k, x) :: set name value r
  end.

Definition entries (sp : URLSearchParams) : list (string * string) := sp.

End USP.

(** [Array.prototype.sort] with a comparator: a stable insertion sort.
    The elements are inserted from the last to the first, each one in front
    of the elements it does not follow, so equal elements keep their order. *)
Section Sort.
Variable A : Type.
Variable cmp : A -> A -> comparison.

Fixpoint insert_sorted (x : A) (l : list A) : list A :=
  match l with
  | [] => [x]
  | y :: r =>
      match cmp x y with
      | Gt => y :: insert_sorted x r
      | _ => x :: l
      end
  end.

Definition array_sort (l : list A) : list A :=
  fold_right insert_sorted [] l.
End Sort.

(* ================================================================== *)
(** * JavaScript values *)
(* ================================================================== *)

(** A thrown JavaScript value: an [Error] with its class name and message. *)
Record error := Error { error_name : string; message : string }.

(** The outcome of calling a host or user function: it returns or throws. *)
Inductive thrown (A : Type) : Type :=
| Returns (a : A)
| Throws (e : error).
Arguments Returns {A} a.
Arguments Throws {A} e.

(** Plain data as [JSON.parse] produces it, over a number type [N]. *)
Inductive json (N : Type) : Type :=
| JNull
| JBool (b : bool)
| JNum (n : N)
| JStr (s : string)
| JArr (items : list (json N))
| JObj (members : list (string * json N)).
Arguments JNull {N}.
Arguments JBool {N} b.
Arguments JNum {N} n.
Arguments JStr {N} s.
Arguments JArr {N} items.
Arguments JObj {N} members.

(** Runtime values.  Dates, arrays and objects are references: they carry
    the identity [id] that [===] compares, next to their content, which
    the hook never mutates.  [t = None] is the time value NaN of an
    invalid [Date]. *)
Inductive jsval (N : Type) : Type :=
| VUndefined
| VNull
| VBool (b : bool)
| VNum (n : N)
| VStr (s : string)
| VBigInt (z : Z)
| VDate (id : nat) (t : option Z)
| VArray (id : nat) (items : list (json N))
| VObject (id : nat) (members : list (string * json N)).
Arguments VUndefined {N}.
Arguments VNull {N}.
Arguments VBool {N} b.
Arguments VNum {N} n.
Arguments VStr {N} s.
Arguments VBigInt {N} z.
Arguments VDate {N} id t.
Arguments VArray {N} id items.
Arguments VObject {N} id members.

(** What the hook asks of the JavaScript host. *)
Class Host : Type := {
  number : Type;
  (** [Number(s)] *)
  Number_of_string : string -> number;
  (** [Number.isFinite(n)] *)
  Number_isFinite : number -> bool;
  (** [String(n)] *)
  String_of_number : number -> string;
  (** [a === b] on numbers *)
  number_strict_eq : number -> number -> bool;
  (** [!n]: zero and NaN *)
  number_falsy : number -> bool;
  (** the time value of [new Date(s)], [None] for NaN *)
  Date_parse : string -> option Z;
  (** [toISOString] of a valid time value *)
  Date_toISOString : Z -> string;
  JSON_parse : string -> thrown (json number);
  (** [JSON.stringify(v)]; [None] is the result [undefined] *)
  JSON_stringify : jsval number -> thrown (option string);
  decodeURIComponent : string -> thrown string;
  encodeURIComponent : string -> thrown string;
  (** [a.localeCompare(b)] *)
  localeCompare : string -> string -> comparison;
}.

(* ================================================================== *)
(** * Computations with state and exceptions *)
(* ================================================================== *)

(** A computation over a state [S] completes normally with a result, or
    abruptly with a thrown error; both leave a state behind. *)
Inductive completion (S A : Type) : Type :=
| Normal (a : A) (s : S)
| Abrupt (e : error) (s : S).
Arguments Normal {S A} a s.
Arguments Abrupt {S A} e s.

Definition M (S A : Type) : Type := S -> completion S A.

Definition ret {S A} (a : A) : M S A := fun s => Normal a s.

Definition bind {S A B} (m : M S A) (k : A -> M S B) : M S B :=
  fun s => match m s with
           | Normal a s' => k a s'
           | Abrupt e s' => Abrupt e s'
           end.

Definition throw {S A} (e : error) : M S A := fun s => Abrupt e s.

(** [try { m } catch (e) { h e }] *)
Definition try_catch {S A} (m : M S A) (h : error -> M S A) : M S A :=
  fun s => match m s with
           | Normal a s' => Normal a s'
           | Abrupt e s' => h e s'
           end.

Definition get_state {S} : M S S := fun s => Normal s s.
Definition modify {S} (f : S -> S) : M S unit := fun s => Normal tt (f s).

(** Calling a function that returns or throws. *)
Definition call {S A} (r : thrown A) : M S A :=
  match r with
  | Returns a => ret a
  | Throws e => throw e
  end.

(** Running a computation on one component of a larger state. *)
Definition zoom {S T A} (proj : T -> S) (upd : S -> T -> T) (m : M S A) : M T A :=
  fun t => match m (proj t) with
           | Normal a s => Normal a (upd s t)
           | Abrupt e s => Abrupt e (upd s t)
           end.

Declare Scope js_scope.
Delimit Scope js_scope with js.
Notation "x <- c1 ;; c2" := (bind c1 (fun x => c2))
  (at level 61, c1 at next level, right associativity) : js_scope.
Notation "c1 ;;; c2" := (bind c1 (fun _ => c2))
  (at level 61, right associativity) : js_scope.
Local Open Scope js_scope.

(** [for (const x of xs) acc = body(x, acc)] *)
Fixpoint for_of {S A B} (xs : list A) (body : A -> B -> M S B) (acc : B) : M S B :=
  match xs with
  | [] => ret acc
  | x :: r => acc' <- body x acc ;; for_of r body acc'
  end.

(** [xs.forEach(f)] *)
Fixpoint forEach {S A} (xs : list A) (f : A -> M S unit) : M S unit :=
  match xs with
  | [] => ret tt
  | x :: r => f x ;;; forEach r f
  end.

(* ================================================================== *)
(** * types.ts *)
(* ================================================================== *)

Inductive QueryParamType : Type :=
| TString | TNumber | TBoolean | TDate | TStringArray | TObject.

Inductive HistoryMode : Type := push | replace.

(** JavaScript objects used as dictionaries: an association list in
    [Object.keys] order. *)
Definition dict (A : Type) : Type := list (string * A).

Fixpoint lookup {A} (key : string) (d : dict A) : option A :=
  match d with
  | [] => None
  | (k, a) :: r => if String.eqb k key then Some a else lookup key r
  end.

(** [o[key] = a]: an existing property keeps its place. *)
Fixpoint assign {A} (key : string) (a : A) (d : dict A) : dict A :=
  match d with
  | [] => [(key, a)]
  | (k, x) :: r => if String.eqb k key then (k, a) :: r else (k, x) :: assign key a r
  end.

Definition typedKeys {A} (o : dict A) : list string := List.map fst o.

Definition QueryparamConfig : Type := dict QueryParamType.

(* ================================================================== *)
(** * The codec and the snapshot reader *)
(* ================================================================== *)

Section Reader.

Context {H : Host}.

Definition val : Type := jsval number.

(** ** Value tests *)

(** [v == null] *)
Definition nullish (v : val) : bool :=
  match v with
  | VUndefined | VNull => true
  | _ => false
  end.

(** [a ?? b] *)
Definition coalesce (a b : val) : val := if nullish a then b else a.

(** [!!v] *)
Definition truthy (v : val) : bool :=
  match v with
  | VUndefined | VNull => false
  | VBool b => b
  | VNum n => negb (number_falsy n)
  | VStr s => negb (Str.is_empty s)
  | VBigInt z => negb (Z.eqb z 0)
  | VDate _ _ | VArray _ _ | VObject _ _ => true
  end.

(** [a === b]: primitives by value, references by identity. *)
Definition strict_eq (a b : val) : bool :=
  match a, b with
  | VUndefined, VUndefined => true
  | VNull, VNull => true
  | VBool x, VBool y => Bool.eqb x y
  | VNum x, VNum y => number_strict_eq x y
  | VStr x, VStr y => String.eqb x y
  | VBigInt x, VBigInt y => Z.eqb x y
  | VDate i _, VDate j _ => Nat.eqb i j
  | VArray i _, VArray j _ => Nat.eqb i j
  | VObject i _, VObject j _ => Nat.eqb i j
  | _, _ => false
  end.

Definition isFiniteNumber (v : val) : bool :=
  match v with
  | VNum n => Number_isFinite n
  | _ => false
  end.

Definition is_JStr (j : json number) : bool :=
  match j with JStr _ => true | _ => false end.

Definition isStringArray (v : val) : bool :=
  match v with
  | VArray _ items => forallb is_JStr items
  | _ => false
  end.

(** The string elements of an array, in order. *)
Definition string_items (v : val) : list string :=
  match v with
  | VArray _ items =>
      flat_map (fun j => match j with JStr s => [s] | _ => [] end) items
  | _ => []
  end.

(** [o[key]] on a dictionary of values: [undefined] when missing. *)
Definition prop (key : string) (o : dict val) : val :=
  match lookup key o with
  | Some v => v
  | None => VUndefined
  end.

(** ** Options (types.ts) *)

Record CustomSerializer : Type := {
  serialize : val -> thrown (option string);
  parse : string -> thrown val;
}.

(** [onError] says whether the callback is configured; its calls are
    recorded in the runtime's [errors]. *)
Record UseQueryParamsOptions : Type := {
  sortKeys : bool;
  defaultHistory : HistoryMode;
  defaultValues : dict val;
  validation : dict (val -> thrown bool);
  customSerializers : dict CustomSerializer;
  onError : bool;
}.

(** [options = {}] after destructuring with its defaults. *)
Definition no_options : UseQueryParamsOptions :=
  {| sortKeys := false; defaultHistory := replace; defaultValues := [];
     validation := []; customSerializers := []; onError := false |}.

(** ** Runtime state of the reader and the codec *)

(** One call of [onError(error, key, value)]. *)
Record ErrorReport : Type := Report {
  report_error : error;
  report_key : string;
  report_value : val;
}.

Record runtime : Type := {
  next_id : nat;                       (* the next fresh object identity *)
  errors : list ErrorReport;           (* calls of onError, oldest first *)
  validated : list (string * val);   (* calls of validators, oldest first *)
}.

Definition alloc : M runtime nat :=
  fun r => Normal (next_id r)
             {| next_id := S (next_id r); errors := errors r; validated := validated r |}.

Definition log_error (e : error) (key : string) (v : val) : M runtime unit :=
  modify (fun r => {| next_id := next_id r;
                      errors := errors r ++ [Report e key v];
                      validated := validated r |}).

Definition log_validation (key : string) (v : val) : M runtime unit :=
  modify (fun r => {| next_id := next_id r;
                      errors := errors r;
                      validated := validated r ++ [(key, v)] |}).

(** [if (onError && key) onError(error, key, value)] *)
Definition report (onError : bool) (key : option string) (e : error) (v : val)
  : M runtime unit :=
  match key with
  | Some k => if onError && negb (Str.is_empty k) then log_error e k v else ret tt
  | None => ret tt
  end.

(** [new Date(s)] *)
Definition new_Date (s : string) : M runtime val :=
  id <- alloc ;; ret (VDate id (Date_parse s)).

(** A fresh array of strings, as [sp.getAll] or [[]] builds it. *)
Definition new_Array (xs : list string) : M runtime val :=
  id <- alloc ;; ret (VArray id (List.map JStr xs)).

(** The value [JSON.parse] returns for parsed data: containers are fresh. *)
Definition of_json (j : json number) : M runtime val :=
  match j with
  | JNull => ret VNull
  | JBool b => ret (VBool b)
  | JNum n => ret (VNum n)
  | JStr s => ret (VStr s)
  | JArr items => id <- alloc ;; ret (VArray id items)
  | JObj members => id <- alloc ;; ret (VObject id members)
  end.

(** ** The codec object [v] *)

Definition parseSingle (value : option string) (type : option QueryParamType)
    (customParser : option (string -> thrown val))
    (onError : bool) (key : option string) : M runtime val :=
  match value with
  | None => ret VUndefined
  | Some value =>
      try_catch
        (match customParser with
         | Some customParser => call (customParser value)
         | None =>
             match type with
             | Some TString => ret (VStr value)
             | Some TNumber =>
                 let n := Number_of_string value in
                 if negb (Number_isFinite n)
                 then throw (Error "Error" ("Invalid number: " ++ value))
                 else ret (VNum n)
             | Some TBoolean =>
                 if Str.includes ["true"; "1"] value then ret (VBool true)
                 else if Str.includes ["false"; "0"] value then ret (VBool false)
                 else throw (Error "Error" ("Invalid boolean: " ++ value))
             | Some TDate =>
                 date <- new_Date value ;;
                 match date with
                 | VDate _ None => throw (Error "Error" ("Invalid date: " ++ value))
                 | _ => ret date
                 end
             | _ => ret VUndefined
             end
         end)
        (fun error => report onError key error (VStr value) ;;; ret VUndefined)
  end.

Definition serializeSingle (value : val) (type : option QueryParamType)
    (customSerializer : option (val -> thrown (option string)))
    (onError : bool) (key : option string) : M runtime (option string) :=
  try_catch
    (match customSerializer with
     | Some customSerializer => call (customSerializer value)
     | None =>
         match type with
         | Some TString =>
             ret (match value with VStr s => Some s | _ => None end)
         | Some TNumber =>
             ret (match value with
                  | VNum n =>
                      if isFiniteNumber value then Some (String_of_number n) else None
                  | _ => None
                  end)
         | Some TBoolean =>
             ret (match value with
                  | VBool b => Some (if b then "true" else "false")
                  | _ => None
                  end)
         | Some TDate =>
             match value with
             | VDate _ (Some t) => ret (Some (Date_toISOString t))
             | VDate _ None => throw (Error "RangeError" "Invalid time value")
             | _ => ret None
             end
         | _ => ret None
         end
     end)
    (fun error => report onError key error value ;;; ret None).

Definition parseObject (value : option string) : M runtime val :=
  match value with
  | None => ret VUndefined
  | Some value =>
      try_catch
        (decoded <- call (decodeURIComponent value) ;;
         j <- call (JSON_parse decoded) ;;
         of_json j)
        (fun _ => ret VUndefined)
  end.

Definition serializeObject (value : val) : M runtime (option string) :=
  try_catch
    (text <- call (JSON_stringify value) ;;
     encoded <- call (encodeURIComponent
                        (match text with Some t => t | None => "undefined" end)) ;;
     ret (Some encoded))
    (fun _ => ret None).

(** ** Reading the address *)

Record Location : Type := {
  pathname : string;
  search : string;
  hash : string;
}.

(** [getSearchParams()]; [None] is a missing [window]. *)
Definition getSearchParams (win : option Location) : URLSearchParams :=
  USP.of_string (match win with None => "" | Some l => search l end).

Definition toSortedQueryString (sp : URLSearchParams) : string :=
  let entries :=
    array_sort (fun a b => localeCompare (fst a) (fst b)) (USP.entries sp) in
  USP.toString entries.

(** A snapshot object: its identity and its properties in insertion order. *)
Record snapshot : Type := {
  sid : nat;
  props : dict val;
}.

Definition set_prop (key : string) (v : val) (o : snapshot) : snapshot :=
  {| sid := sid o; props := assign key v (props o) |}.

Definition get_prop (key : string) (o : snapshot) : val := prop key (props o).

Definition new_object : M runtime snapshot :=
  id <- alloc ;; ret {| sid := id; props := [] |}.

(** [shallowEqual(a, b)] on two snapshot objects; the guard of line 36
    never fires on objects. *)
Definition shallowEqual (a b : snapshot) : bool :=
  if Nat.eqb (sid a) (sid b) then true
  else
    let aKeys := typedKeys (props a) in
    let bKeys := typedKeys (props b) in
    if negb (Nat.eqb (List.length aKeys) (List.length bKeys)) then false
    else forallb (fun k => strict_eq (get_prop k a) (get_prop k b)) aKeys.

(** The body of the loop of [getParams] for one key, in its two
    statements: the [if] chain that decodes the key or takes its default
    (lines 254-271), and the validation that follows (lines 273-279). *)
Definition decode_key (config : QueryparamConfig) (o : UseQueryParamsOptions)
    (sp : URLSearchParams) (key : string) (out : snapshot) : M runtime snapshot :=
  let type := lookup key config in
  let keyStr := key in
  let customParser := option_map parse (lookup key (customSerializers o)) in
  match type with
  | Some TStringArray =>
      values <- new_Array (USP.getAll keyStr sp) ;;
      if negb (Nat.eqb (List.length (USP.getAll keyStr sp)) 0)
      then ret (set_prop key values out)
      else if truthy (prop key (defaultValues o))
           then ret (set_prop key (prop key (defaultValues o)) out)
           else empty <- new_Array [] ;; ret (set_prop key empty out)
  | Some TObject =>
      parsed <- parseObject (USP.get keyStr sp) ;;
      ret (set_prop key (coalesce parsed (prop key (defaultValues o))) out)
  | _ =>
      parsed <- parseSingle (USP.get keyStr sp) type customParser
                  (onError o) (Some keyStr) ;;
      ret (set_prop key (coalesce parsed (prop key (defaultValues o))) out)
  end.

Definition validate_key (o : UseQueryParamsOptions) (key : string) (out : snapshot)
  : M runtime snapshot :=
  let keyStr := key in
  match lookup key (validation o) with
  | Some validator =>
      if nullish (get_prop key out) then ret out
      else
        log_validation keyStr (get_prop key out) ;;;
        ok <- call (validator (get_prop key out)) ;;
        if ok then ret out
        else
          (if onError o
           then log_error (Error "Error" ("Validation failed for " ++ keyStr))
                  keyStr (get_prop key out)
           else ret tt) ;;;
          ret (set_prop key (prop key (defaultValues o)) out)
  | None => ret out
  end.

Definition getParams_key (config : QueryparamConfig) (o : UseQueryParamsOptions)
    (sp : URLSearchParams) (key : string) (out : snapshot) : M runtime snapshot :=
  out <- decode_key config o sp key out ;;
  validate_key o key out.

Definition getParams (config : QueryparamConfig) (o : UseQueryParamsOptions)
    (win : option Location) : M runtime snapshot :=
  let sp := getSearchParams win in
  out <- new_object ;;
  for_of (typedKeys config) (getParams_key config o sp) out.

(** The updater of [setParams(next)], applied to the held state [prev]:
    [prev] itself, or the fresh object [{...prev, ...next}]. *)
Definition setParams (next prev : snapshot) : M runtime snapshot :=
  if shallowEqual prev next then ret prev
  else
    id <- alloc ;;
    ret {| sid := id;
           props := fold_left (fun acc kv => assign (fst kv) (snd kv) acc)
                      (props next) (props prev) |}.

(** The body of the loop of [syncParams] for one key of the patch. *)
Definition syncParams_key (config : QueryparamConfig) (o : UseQueryParamsOptions)
    (patch : dict val) (key : string) (sp : URLSearchParams)
  : M runtime URLSearchParams :=
  let type := lookup key config in
  let nextVal := prop key patch in
  let keyStr := key in
  let customSerializer := option_map serialize (lookup key (customSerializers o)) in
  match type with
  | Some TStringArray =>
      let sp := USP.delete keyStr sp in
      if isStringArray nextVal && negb (Nat.eqb (List.length (string_items nextVal)) 0)
      then ret (fold_left (fun sp value => USP.append keyStr value sp)
                  (string_items nextVal) sp)
      else ret sp
  | Some TObject =>
      serialized <- serializeObject nextVal ;;
      match serialized with
      | Some serialized => ret (USP.set keyStr serialized sp)
      | None => ret (USP.delete keyStr sp)
      end
  | _ =>
      serialized <- serializeSingle nextVal type customSerializer
                      (onError o) (Some keyStr) ;;
      match serialized with
      | Some serialized => ret (USP.set keyStr serialized sp)
      | None => ret (USP.delete keyStr sp)
      end
  end.

(** The query string after the patch, and whether it differs from the
    one before: the part of [syncParams] ahead of [applyUrl]. *)
Definition query_string (o : UseQueryParamsOptions) (sp : URLSearchParams) : string :=
  if sortKeys o then toSortedQueryString sp else USP.toString sp.

Definition patched_query (config : QueryparamConfig) (o : UseQueryParamsOptions)
    (patch : dict val) (sp : URLSearchParams) : M runtime URLSearchParams :=
  for_of (typedKeys patch) (syncParams_key config o patch) sp.

End Reader.

(* ================================================================== *)
(** * The navigation bridge and the hook *)
(* ================================================================== *)

Section Engine.

Context {H : Host}.

(** The value of a method property of [history]: the browser's own
    function, or the wrapper [patchHistory] installs. *)
Inductive history_fn : Type := Native | Wrapped.

Record Window : Type := {
  location : Location;
  pushState : history_fn;                       (* history.pushState *)
  replaceState : history_fn;                    (* history.replaceState *)
  popstate : list nat;                          (* 'popstate' listeners *)
  navigations : list (HistoryMode * string);    (* native history calls *)
}.

(** One mounted use of the hook: its arguments, the state it holds, and
    how often that state was replaced by a new object. *)
Record Instance : Type := {
  config : QueryparamConfig;
  options : UseQueryParamsOptions;
  params : snapshot;
  updates : nat;
}.

(** The page: the browser window ([None] outside a browser), the module
    variables of useQueryParams.ts, the mounted instances keyed by the
    identity of their [handle] closure, the subscriber calls made so far,
    and the runtime of the reader. *)
Record world : Type := {
  window : option Window;
  subs : list nat;
  isHistoryPatched : bool;
  originalPushState : option history_fn;
  originalReplaceState : option history_fn;
  patchCount : Z;
  instances : list (nat * Instance);
  invoked : list nat;
  rt : runtime;
}.

Definition set_window (x : option Window) (w : world) : world :=
  {| window := x; subs := subs w; isHistoryPatched := isHistoryPatched w;
     originalPushState := originalPushState w;
     originalReplaceState := originalReplaceState w; patchCount := patchCount w;
     instances := instances w; invoked := invoked w; rt := rt w |}.

Definition set_subs (x : list nat) (w : world) : world :=
  {| window := window w; subs := x; isHistoryPatched := isHistoryPatched w;
     originalPushState := originalPushState w;
     originalReplaceState := originalReplaceState w; patchCount := patchCount w;
     instances := instances w; invoked := invoked w; rt := rt w |}.

Definition set_patchCount (x : Z) (w : world) : world :=
  {| window := window w; subs := subs w; isHistoryPatched := isHistoryPatched w;
     originalPushState := originalPushState w;
     originalReplaceState := originalReplaceState w; patchCount := x;
     instances := instances w; invoked := invoked w; rt := rt w |}.

Definition set_instances (x : list (nat * Instance)) (w : world) : world :=
  {| window := window w; subs := subs w; isHistoryPatched := isHistoryPatched w;
     originalPushState := originalPushState w;
     originalReplaceState := originalReplaceState w; patchCount := patchCount w;
     instances := x; invoked := invoked w; rt := rt w |}.

Definition set_invoked (x : list nat) (w : world) : world :=
  {| window := window w; subs := subs w; isHistoryPatched := isHistoryPatched w;
     originalPushState := originalPushState w;
     originalReplaceState := originalReplaceState w; patchCount := patchCount w;
     instances := instances w; invoked := x; rt := rt w |}.

Definition set_rt (x : runtime) (w : world) : world :=
  {| window := window w; subs := subs w; isHistoryPatched := isHistoryPatched w;
     originalPushState := originalPushState w;
     originalReplaceState := originalReplaceState w; patchCount := patchCount w;
     instances := instances w; invoked := invoked w; rt := x |}.

Definition set_methods (p r : history_fn) (win : Window) : Window :=
  {| location := location win; pushState := p; replaceState := r;
     popstate := popstate win; navigations := navigations win |}.

Definition set_popstate (x : list nat) (win : Window) : Window :=
  {| location := location win; pushState := pushState win;
     replaceState := replaceState win; popstate := x;
     navigations := navigations win |}.

(** A computation of the reader, run inside the page. *)
Definition in_rt {A} (m : M runtime A) : M world A := zoom rt set_rt m.

Fixpoint find_instance (h : nat) (l : list (nat * Instance)) : option Instance :=
  match l with
  | [] => None
  | (k, i) :: r => if Nat.eqb k h then Some i else find_instance h r
  end.

Fixpoint put_instance (h : nat) (i : Instance) (l : list (nat * Instance))
  : list (nat * Instance) :=
  match l with
  | [] => [(h, i)]
  | (k, x) :: r => if Nat.eqb k h then (k, i) :: r else (k, x) :: put_instance h i r
  end.

Definition drop_instance (h : nat) (l : list (nat * Instance)) : list (nat * Instance) :=
  List.filter (fun ki => negb (Nat.eqb (fst ki) h)) l.

(** ** The address the browser shows after a history call *)

(** [url] resolved against the current location, for a reference that
    stays within the page's origin and spells its path as the browser
    shows it: the fragment starts at the first [#], the query at the first
    [?] before it; an empty query or fragment reads back as the empty
    string.  References that leave the origin or that the browser rewrites
    (a leading [//], dot segments, another scheme) are outside this model. *)
Definition resolve (base : Location) (url : string) : Location :=
  let '(before, fragment) := Str.cut "#" url in
  let '(path, query) := Str.cut "?" before in
  {| pathname := if Str.is_empty path then pathname base else path;
     search := match query with
               | Some q => if Str.is_empty q then "" else "?" ++ q
               | None => if Str.is_empty path then search base else ""
               end;
     hash := match fragment with
             | Some f => if Str.is_empty f then "" else "#" ++ f
             | None => ""
             end |}.

(** The browser's own [pushState] / [replaceState]: the call is recorded
    and the address becomes the resolved URL.  The browser refuses a URL of
    another origin with a SecurityError; that case is outside this model,
    and statements about the address after a call are made for URLs it
    accepts. *)
Definition native_history (mode : HistoryMode) (url : string) : M world unit :=
  modify (fun w =>
    match window w with
    | None => w
    | Some win =>
        set_window
          (Some {| location := resolve (location win) url;
                   pushState := pushState win; replaceState := replaceState win;
                   popstate := popstate win;
                   navigations := navigations win ++ [(mode, url)] |}) w
    end).

(** ** The hook's event handler *)

(** The closure [handle] of the instance [h]: re-read the address and
    hand the snapshot to [setParams]. *)
Definition handle (h : nat) : M world unit :=
  w <- get_state ;;
  match find_instance h (instances w) with
  | None => ret tt
  | Some i =>
      newParams <- in_rt (getParams (config i) (options i)
                            (option_map location (window w))) ;;
      state <- in_rt (setParams newParams (params i)) ;;
      modify (fun w =>
        set_instances
          (put_instance h
             {| config := config i; options := options i; params := state;
                updates := if Nat.eqb (sid state) (sid (params i))
                           then updates i else S (updates i) |}
             (instances w)) w)
  end.

(** A subscriber is called: the call is recorded, then it runs. *)
Definition invoke (h : nat) : M world unit :=
  modify (fun w => set_invoked (invoked w ++ [h]) w) ;;; handle h.

(** ** pushStateEventManager *)

Definition notify : M world unit :=
  w <- get_state ;; forEach (subs w) invoke.

Definition addEventListener (cb : nat) : M world unit :=
  modify (fun w => set_subs (subs w ++ [cb]) w).

Definition removeEventListener (cb : nat) : M world unit :=
  modify (fun w => set_subs (List.filter (fun fn => negb (Nat.eqb fn cb)) (subs w)) w).

(** ** patchHistory / unpatchHistory *)

Definition patchHistory : M world unit :=
  fun w =>
    match window w with
    | None => Normal tt w
    | Some win =>
        if isHistoryPatched w then Normal tt w
        else
          Normal tt
            {| window := Some (set_methods Wrapped Wrapped win);
               subs := subs w;
               isHistoryPatched := true;
               originalPushState := Some (pushState win);
               originalReplaceState := Some (replaceState win);
               patchCount := patchCount w + 1;
               instances := instances w; invoked := invoked w; rt := rt w |}
    end.

Definition unpatchHistory : M world unit :=
  fun w =>
    match window w with
    | None => Normal tt w
    | Some win =>
        if negb (isHistoryPatched w) then Normal tt w
        else
          let w := set_patchCount (patchCount w - 1) w in
          match originalPushState w, originalReplaceState w with
          | Some p, Some r =>
              if (patchCount w <=? 0)%Z
              then Normal tt
                     {| window := Some (set_methods p r win);
                        subs := subs w;
                        isHistoryPatched := false;
                        originalPushState := None;
                        originalReplaceState := None;
                        patchCount := 0;
                        instances := instances w; invoked := invoked w; rt := rt w |}
              else Normal tt w
          | _, _ => Normal tt w
          end
    end.

(** ** Calling [history.pushState] / [history.replaceState] *)

(** [window.history[fn]({}, '', url)], for the page's own code and for
    any other caller: the native function, or the installed wrapper, which
    calls the saved original and then notifies. *)
Definition history_call (mode : HistoryMode) (url : string) : M world unit :=
  w <- get_state ;;
  match window w with
  | None => throw (Error "ReferenceError" "window is not defined")
  | Some win =>
      match (match mode with push => pushState win | replace => replaceState win end) with
      | Native => native_history mode url
      | Wrapped =>
          match (match mode with
                 | push => originalPushState w
                 | replace => originalReplaceState w
                 end) with
          | Some Native => native_history mode url ;;; notify
          | Some Wrapped =>
              throw (Error "RangeError" "Maximum call stack size exceeded")
          | None =>
              throw (Error "TypeError" "Cannot read properties of null")
          end
      end
  end.

Definition applyUrl (newUrl : string) (mode : HistoryMode) : M world unit :=
  w <- get_state ;;
  match window w with
  | None => ret tt
  | Some _ => history_call mode newUrl ;;; notify
  end.

(** ** syncParams *)

Definition syncParams (config : QueryparamConfig) (o : UseQueryParamsOptions)
    (patch : dict val) (mode : option HistoryMode) : M world unit :=
  w <- get_state ;;
  match window w with
  | None => ret tt
  | Some win =>
      let sp := getSearchParams (Some (location win)) in
      let before := query_string o sp in
      sp <- in_rt (patched_query config o patch sp) ;;
      let after := query_string o sp in
      if negb (String.eqb after before)
      then
        let newUrl :=
          (pathname (location win)
           ++ (if Str.is_empty after then "" else "?" ++ after)
           ++ hash (location win))%string in
        applyUrl newUrl (match mode with Some m => m | None => defaultHistory o end)
      else ret tt
  end.

(** ** Mounting and unmounting *)

(** First render and effect of [useQueryParams(config, options)]: the
    state starts as [getParams()]; the effect patches the history and
    registers [handle] for 'popstate' and with the event manager.  The
    result is the identity of [handle].  Effects do not run without a
    window. *)
Definition mount (config : QueryparamConfig) (o : UseQueryParamsOptions)
  : M world nat :=
  w <- get_state ;;
  initial <- in_rt (getParams config o (option_map location (window w))) ;;
  h <- in_rt alloc ;;
  modify (fun w =>
    set_instances
      (put_instance h {| config := config; options := o; params := initial;
                         updates := 0 |} (instances w)) w) ;;;
  match window w with
  | None => ret h
  | Some _ =>
      patchHistory ;;;
      modify (fun w =>
        match window w with
        | None => w
        | Some win => set_window (Some (set_popstate (popstate win ++ [h]) win)) w
        end) ;;;
      addEventListener h ;;;
      ret h
  end.

(** The cleanup of the effect. *)
Definition unmount (h : nat) : M world unit :=
  modify (fun w =>
    match window w with
    | None => w
    | Some win =>
        set_window
          (Some (set_popstate
                   (List.filter (fun fn => negb (Nat.eqb fn h)) (popstate win)) win)) w
    end) ;;;
  removeEventListener h ;;;
  unpatchHistory ;;;
  modify (fun w => set_instances (drop_instance h (instances w)) w).

(** The browser goes back or forward to [url] and fires 'popstate'. *)
Definition popstate_event (url : string) : M world unit :=
  w <- get_state ;;
  match window w with
  | None => ret tt
  | Some win =>
      modify (set_window
                (Some {| location := resolve (location win) url;
                         pushState := pushState win; replaceState := replaceState win;
                         popstate := popstate win;
                         navigations := navigations win |})) ;;;
      forEach (popstate win) invoke
  end.

(** A freshly loaded page at the given address. *)
Definition fresh_page (l : Location) : world :=
  {| window := Some {| location := l; pushState := Native; replaceState := Native;
                       popstate := []; navigations := [] |};
     subs := []; isHistoryPatched := false;
     originalPushState := None; originalReplaceState := None; patchCount := 0;
     instances := []; invoked := [];
     rt := {| next_id := 0; errors := []; validated := [] |} |}.

(** The state a computation leaves, however it completes. *)
Definition state_of {S A} (c : completion S A) : S :=
  match c with Normal _ s => s | Abrupt _ s => s end.

End Engine.

(* ================================================================== *)
(** * A reference host *)
(* ================================================================== *)

(** A host to run the hook on.  It covers integer-valued numbers and the
    non-finite ones, decimal integer literals, ISO-8601 dates in UTC
    ([YYYY-MM-DD] and [YYYY-MM-DDTHH:mm:ss.sssZ]), JSON without fractions,
    exponents or [\u] escapes, and byte-wise string comparison.  What a
    browser accepts beyond that is outside this instance; the theorems of
    the development are stated over every [Host]. *)
Module RefHost.

Inductive num : Type :=
| NaN
| Infinity (negative : bool)
| Int (z : Z).

Definition is_finite (n : num) : bool :=
  match n with Int _ => true | _ => false end.

Definition num_eq (a b : num) : bool :=
  match a, b with
  | Int x, Int y => Z.eqb x y
  | Infinity s, Infinity t => Bool.eqb s t
  | _, _ => false
  end.

Definition num_falsy (n : num) : bool :=
  match n with
  | NaN => true
  | Int z => Z.eqb z 0
  | Infinity _ => false
  end.

Definition all_digits (s : string) : bool :=
  negb (Str.is_empty s) && Str.forallb Form.is_digit s.

(** The value of a string of decimal digits. *)
Fixpoint digits_value (acc : Z) (s : string) : Z :=
  match s with
  | EmptyString => acc
  | String a r => digits_value (10 * acc + Z.of_nat (nat_of_ascii a - 48)) r
  end.

Definition to_number (s : string) : num :=
  match s with
  | EmptyString => Int 0
  | String "-" r =>
      if all_digits r then Int (- digits_value 0 r)
      else if String.eqb r "Infinity" then Infinity true else NaN
  | String "+" r =>
      if all_digits r then Int (digits_value 0 r)
      else if String.eqb r "Infinity" then Infinity false else NaN
  | _ =>
      if all_digits s then Int (digits_value 0 s)
      else if String.eqb s "Infinity" then Infinity false else NaN
  end.

Definition decimal (z : Z) : string := NilZero.string_of_int (Z.to_int z).

Definition of_number (n : num) : string :=
  match n with
  | NaN => "NaN"
  | Infinity false => "Infinity"
  | Infinity true => "-Infinity"
  | Int z => decimal z
  end.

(** ** Dates *)

Definition ms_per_day : Z := 86400000.

(** Days since 1970-01-01 of a proleptic Gregorian date. *)
Definition days_from_civil (y m d : Z) : Z :=
  let y := if (m <=? 2)%Z then (y - 1)%Z else y in
  let era := (y / 400)%Z in
  let yoe := (y - era * 400)%Z in
  let mp := if (2 <? m)%Z then (m - 3)%Z else (m + 9)%Z in
  let doy := ((153 * mp + 2) / 5 + d - 1)%Z in
  let doe := (yoe * 365 + yoe / 4 - yoe / 100 + doy)%Z in
  (era * 146097 + doe - 719468)%Z.

Definition civil_from_days (days : Z) : Z * Z * Z :=
  let z := (days + 719468)%Z in
  let era := (z / 146097)%Z in
  let doe := (z - era * 146097)%Z in
  let yoe := ((doe - doe / 1460 + doe / 36524 - doe / 146096) / 365)%Z in
  let doy := (doe - (365 * yoe + yoe / 4 - yoe / 100))%Z in
  let mp := ((5 * doy + 2) / 153)%Z in
  let d := (doy - (153 * mp + 2) / 5 + 1)%Z in
  let m := if (mp <? 10)%Z then (mp + 3)%Z else (mp - 9)%Z in
  let y := (yoe + era * 400)%Z in
  (if (m <=? 2)%Z then (y + 1)%Z else y, m, d).

Fixpoint zeros (n : nat) : string :=
  match n with O => EmptyString | S k => String "0" (zeros k) end.

(** [z >= 0] in decimal, padded with zeros to [width] digits. *)
Definition pad (width : nat) (z : Z) : string :=
  let s := decimal z in
  (zeros (width - String.length s) ++ s)%string.

Definition to_iso (t : Z) : string :=
  let days := (t / ms_per_day)%Z in
  let ms := (t mod ms_per_day)%Z in
  let '(y, m, d) := civil_from_days days in
  let year :=
    if ((0 <=? y) && (y <=? 9999))%Z then pad 4 y
    else ((if (y <? 0)%Z then "-" else "+") ++ pad 6 (Z.abs y))%string in
  (year ++ "-" ++ pad 2 m ++ "-" ++ pad 2 d
   ++ "T" ++ pad 2 (ms / 3600000) ++ ":" ++ pad 2 (ms / 60000 mod 60)
   ++ ":" ++ pad 2 (ms / 1000 mod 60) ++ "." ++ pad 3 (ms mod 1000) ++ "Z")%string.

Definition field (s : string) (start len : nat) : option Z :=
  let f := substring start len s in
  if Nat.eqb (String.length f) len && all_digits f
  then Some (digits_value 0 f) else None.

Definition char_at (s : string) (i : nat) (c : ascii) : bool :=
  match String.get i s with
  | Some a => Ascii.eqb a c
  | None => false
  end.

Definition days_in_month (y m : Z) : Z :=
  (days_from_civil (if (m =? 12) then y + 1 else y) (if (m =? 12) then 1 else m + 1) 1
   - days_from_civil y m 1)%Z.

Definition parse_date_part (s : string) : option Z :=
  match field s 0 4, field s 5 2, field s 8 2 with
  | Some y, Some m, Some d =>
      if char_at s 4 "-" && char_at s 7 "-"
         && ((1 <=? m) && (m <=? 12) && (1 <=? d) && (d <=? days_in_month y m))%Z
      then Some (days_from_civil y m d * ms_per_day)%Z
      else None
  | _, _, _ => None
  end.

Definition parse_time_part (s : string) : option Z :=
  match field s 11 2, field s 14 2, field s 17 2, field s 20 3 with
  | Some h, Some mi, Some sec, Some ms =>
      if char_at s 10 "T" && char_at s 13 ":" && char_at s 16 ":"
         && char_at s 19 "." && char_at s 23 "Z"
         && ((h <=? 23) && (mi <=? 59) && (sec <=? 59))%Z
      then Some (h * 3600000 + mi * 60000 + sec * 1000 + ms)%Z
      else None
  | _, _, _, _ => None
  end.

Definition date_parse (s : string) : option Z :=
  if Nat.eqb (String.length s) 10 then parse_date_part s
  else if Nat.eqb (String.length s) 24 then
    match parse_date_part s, parse_time_part s with
    | Some d, Some t => Some (d + t)%Z
    | _, _ => None
    end
  else None.

(** ** URI components *)

Definition uri_unreserved (a : ascii) : bool :=
  Form.is_digit a || Form.is_upper a || Form.is_lower a
  || Str.includes ["-"; "_"; "."; "!"; "~"; "*"; "'"; "("; ")"] (String a EmptyString).

Definition uri_encode_byte (a : ascii) : string :=
  if uri_unreserved a then String a EmptyString
  else let n := nat_of_ascii a in
       String "%" (String (Form.hex_digit (n / 16))
                     (String (Form.hex_digit (n mod 16)) EmptyString)).

Fixpoint uri_encode (s : string) : string :=
  match s with
  | EmptyString => EmptyString
  | String a r => (uri_encode_byte a ++ uri_encode r)%string
  end.

(** A [%] must be followed by two hex digits. *)
Fixpoint uri_decode (s : string) : option string :=
  match s with
  | EmptyString => Some EmptyString
  | String a r =>
      if Ascii.eqb a "%" then
        match r with
        | String h (String l r') =>
            match Form.hex_value h, Form.hex_value l, uri_decode r' with
            | Some x, Some y, Some d => Some (String (ascii_of_nat (16 * x + y)) d)
            | _, _, _ => None
            end
        | _ => None
        end
      else option_map (String a) (uri_decode r)
  end.

(** ** JSON *)

Definition is_space (a : ascii) : bool :=
  Str.includes [" "] (String a EmptyString)
  || (let n := nat_of_ascii a in Nat.eqb n 9 || Nat.eqb n 10 || Nat.eqb n 13).

Fixpoint skip_space (s : string) : string :=
  match s with
  | String a r => if is_space a then skip_space r else s
  | EmptyString => s
  end.

(** The double quote character. *)
Definition dquote : ascii := ascii_of_nat 34.

(** The text of a string literal after its opening quote, and the rest. *)
Fixpoint read_string (s : string) : option (string * string) :=
  match s with
  | EmptyString => None
  | String a r =>
      if Ascii.eqb a dquote then Some (EmptyString, r)
      else if (nat_of_ascii a <? 32)%nat then None
      else if Ascii.eqb a "\" then
        match r with
        | String e r' =>
            let unescaped :=
              if Ascii.eqb e dquote then Some e
              else if Ascii.eqb e "\" then Some e
              else if Ascii.eqb e "/" then Some e
              else if Ascii.eqb e "n" then Some (ascii_of_nat 10)
              else if Ascii.eqb e "r" then Some (ascii_of_nat 13)
              else if Ascii.eqb e "t" then Some (ascii_of_nat 9)
              else if Ascii.eqb e "b" then Some (ascii_of_nat 8)
              else if Ascii.eqb e "f" then Some (ascii_of_nat 12)
              else None in
            match unescaped, read_string r' with
            | Some c, Some (t, rest) => Some (String c t, rest)
            | _, _ => None
            end
        | EmptyString => None
        end
      else match read_string r with
           | Some (t, rest) => Some (String a t, rest)
           | None => None
           end
  end.

(** The longest prefix of digits, and the rest. *)
Fixpoint read_digits (s : string) : string * string :=
  match s with
  | String a r =>
      if Form.is_digit a then let '(d, rest) := read_digits r in (String a d, rest)
      else (EmptyString, s)
  | EmptyString => (EmptyString, s)
  end.

Definition read_number (negative : bool) (s : string) : option (json num * string) :=
  let '(d, rest) := read_digits s in
  match d with
  | EmptyString => None
  | String "0" (String _ _) => None
  | _ =>
      match rest with
      | String "." _ | String "e" _ | String "E" _ => None
      | _ => Some (JNum (Int (if negative then - digits_value 0 d else digits_value 0 d)), rest)
      end
  end.

Definition starts_with (p s : string) : option string :=
  if String.prefix p s
  then Some (substring (String.length p) (String.length s - String.length p) s)
  else None.

(** A JSON value at the head of [s], and the rest; [fuel] bounds the
    nesting depth and the number of elements. *)
Fixpoint read_value (fuel : nat) (s : string) : option (json num * string) :=
  match fuel with
  | O => None
  | S fuel =>
      let read_items :=
        fix read_items (n : nat) (s : string) : option (list (json num) * string) :=
          match n with
          | O => None
          | S n =>
              match read_value fuel s with
              | Some (x, rest) =>
                  match skip_space rest with
                  | String "," rest' =>
                      match read_items n rest' with
                      | Some (xs, rest'') => Some (x :: xs, rest'')
                      | None => None
                      end
                  | String "]" rest' => Some ([x], rest')
                  | _ => None
                  end
              | None => None
              end
          end in
      let read_members :=
        fix read_members (n : nat) (s : string)
          : option (list (string * json num) * string) :=
          match n with
          | O => None
          | S n =>
              match skip_space s with
              | String q r =>
                  match (if Ascii.eqb q dquote then read_string r else None) with
                  | Some (k, rest) =>
                      match skip_space rest with
                      | String ":" rest' =>
                          match read_value fuel rest' with
                          | Some (x, rest'') =>
                              match skip_space rest'' with
                              | String "," r2 =>
                                  match read_members n r2 with
                                  | Some (ms, r3) => Some ((k, x) :: ms, r3)
                                  | None => None
                                  end
                              | String "}" r2 => Some ([(k, x)], r2)
                              | _ => None
                              end
                          | None => None
                          end
                      | _ => None
                      end
                  | None => None
                  end
              | _ => None
              end
          end in
      match skip_space s with
      | String "[" r =>
          match skip_space r with
          | String "]" rest => Some (JArr [], rest)
          | _ =>
              match read_items (String.length r) r with
              | Some (xs, rest) => Some (JArr xs, rest)
              | None => None
              end
          end
      | String "{" r =>
          match skip_space r with
          | String "}" rest => Some (JObj [], rest)
          | _ =>
              match read_members (String.length r) r with
              | Some (ms, rest) => Some (JObj ms, rest)
              | None => None
              end
          end
      | String "-" r => read_number true r
      | String a r as s' =>
          if Ascii.eqb a dquote then
            match read_string r with
            | Some (t, rest) => Some (JStr t, rest)
            | None => None
            end
          else if Form.is_digit a then read_number false s'
          else match starts_with "null" s' with
               | Some rest => Some (JNull, rest)
               | None =>
                   match starts_with "true" s' with
                   | Some rest => Some (JBool true, rest)
                   | None =>
                       match starts_with "false" s' with
                       | Some rest => Some (JBool false, rest)
                       | None => None
                       end
                   end
               end
      | EmptyString => None
      end
  end.

Definition json_parse (s : string) : thrown (json num) :=
  match read_value (S (String.length s)) s with
  | Some (j, rest) =>
      if Str.is_empty (skip_space rest) then Returns j
      else Throws (Error "SyntaxError" "Unexpected token in JSON")
  | None => Throws (Error "SyntaxError" "Unexpected token in JSON")
  end.

Definition quote_char (a : ascii) : string :=
  let n := nat_of_ascii a in
  if Ascii.eqb a dquote then String "\" (String dquote EmptyString)
  else if Ascii.eqb a "\" then "\\"
  else if Nat.eqb n 10 then "\n"
  else if Nat.eqb n 13 then "\r"
  else if Nat.eqb n 9 then "\t"
  else if Nat.eqb n 8 then "\b"
  else if Nat.eqb n 12 then "\f"
  else if (n <? 32)%nat
       then String "\" (String "u" (String "0" (String "0"
              (String (Form.hex_digit (n / 16))
                 (String (Form.hex_digit (n mod 16)) EmptyString)))))
  else String a EmptyString.

Fixpoint quote_body (s : string) : string :=
  match s with
  | EmptyString => EmptyString
  | String a r => (quote_char a ++ quote_body r)%string
  end.

Definition quote (s : string) : string :=
  (String dquote (quote_body s) ++ String dquote EmptyString)%string.

Fixpoint json_text (j : json num) : string :=
  match j with
  | JNull => "null"
  | JBool b => if b then "true" else "false"
  | JNum n => if is_finite n then of_number n else "null"
  | JStr s => quote s
  | JArr items => ("[" ++ Str.join "," (List.map json_text items) ++ "]")%string
  | JObj members =>
      ("{" ++ Str.join ","
                (List.map (fun kv => (quote (fst kv) ++ ":" ++ json_text (snd kv))%string)
                   members) ++ "}")%string
  end.

Definition json_stringify (v : jsval num) : thrown (option string) :=
  match v with
  | VUndefined => Returns None
  | VNull => Returns (Some "null")
  | VBool b => Returns (Some (if b then "true" else "false"))
  | VNum n => Returns (Some (if is_finite n then of_number n else "null"))
  | VStr s => Returns (Some (quote s))
  | VBigInt _ => Throws (Error "TypeError" "Do not know how to serialize a BigInt")
  | VDate _ (Some t) => Returns (Some (quote (to_iso t)))
  | VDate _ None => Returns (Some "null")
  | VArray _ items => Returns (Some (json_text (JArr items)))
  | VObject _ members => Returns (Some (json_text (JObj members)))
  end.

#[export] Instance host : Host := {|
  number := num;
  Number_of_string := to_number;
  Number_isFinite := is_finite;
  String_of_number := of_number;
  number_strict_eq := num_eq;
  number_falsy := num_falsy;
  Date_parse := date_parse;
  Date_toISOString := to_iso;
  JSON_parse := json_parse;
  JSON_stringify := json_stringify;
  decodeURIComponent := fun s =>
    match uri_decode s with
    | Some d => Returns d
    | None => Throws (Error "URIError" "URI malformed")
    end;
  encodeURIComponent := fun s => Returns (uri_encode s);
  localeCompare := String.compare;
|}.

End RefHost.

(* ================================================================== *)
(** * Vocabulary of the statements *)
(* ================================================================== *)

Local Open Scope js_scope.

(** A computation that always completes normally. *)
Definition total {S A} (m : M S A) : Prop :=
  forall s, exists a s', m s = Normal a s'.

(** A property of the state that a computation never loses, however it
    completes. *)
Definition preserves {S A} (R : S -> S -> Prop) (m : M S A) : Prop :=
  forall s, R s (state_of (m s)).

(** [c] does not occur in [s]. *)
Definition lacks (c : ascii) (s : string) : bool :=
  Str.forallb (fun a => negb (Ascii.eqb a c)) s.

(** Bytes the serializer can emit for a name or a value. *)
Definition encoded_char (a : ascii) : bool :=
  Form.unreserved a || Ascii.eqb a "+" || Ascii.eqb a "%".

(** The pairs of a query that carry a given name, in order. *)
Definition entries_of (key : string) (sp : URLSearchParams) : URLSearchParams :=
  List.filter (fun kv => String.eqb (fst kv) key) sp.

(** What a patch does to the query for a key that is not a string list:
    it sets the key to a text, or deletes it. *)
Definition apply_op (op : string * option string) (sp : URLSearchParams)
  : URLSearchParams :=
  match snd op with
  | Some text => USP.set (fst op) text sp
  | None => USP.delete (fst op) sp
  end.

(** The operations of a patch, applied in the order of its keys. *)
Definition apply_ops (ops : list (string * option string)) (sp : URLSearchParams)
  : URLSearchParams :=
  fold_left (fun sp op => apply_op op sp) ops sp.

(** The query already is what the operation would make of it. *)
Definition settled (op : string * option string) (sp : URLSearchParams) : Prop :=
  entries_of (fst op) sp
  = match snd op with Some text => [(fst op, text)] | None => [] end.

(** The comparator orders the names: never both ways after, transitive,
    and two names neither of which comes after the other are the same. *)
Definition orders_names (cmp : string -> string -> comparison) : Prop :=
  (forall a b, cmp a b = Gt -> cmp b a <> Gt)
  /\ (forall a b c, cmp a b <> Gt -> cmp b c <> Gt -> cmp a c <> Gt)
  /\ (forall a b, cmp a b <> Gt -> cmp b a <> Gt -> a = b).

(** The comparator of [toSortedQueryString]: pairs are compared by name. *)
Definition by_name (cmp : string -> string -> comparison) (a b : string * string)
  : comparison :=
  cmp (fst a) (fst b).

(** The name of [a] does not come after the name of [b]. *)
Definition name_le (cmp : string -> string -> comparison) (a b : string * string)
  : Prop :=
  cmp (fst a) (fst b) <> Gt.

(** The query a URL reference carries: what stands between its first [?]
    and its first [#], parsed. *)
Definition query_of_url (url : string) : URLSearchParams :=
  let '(before, _) := Str.cut "#" url in
  let '(_, query) := Str.cut "?" before in
  USP.of_string (match query with Some q => q | None => EmptyString end).

(** The pairs of a query whose names are not among [keys], in order. *)
Definition others (keys : list string) (sp : URLSearchParams) : URLSearchParams :=
  List.filter (fun kv => negb (existsb (String.eqb (fst kv)) keys)) sp.

Section Vocabulary.

Context {H : Host}.

(** The runtime after one object was created. *)
Definition allocated (r : runtime) : runtime :=
  {| next_id := Datatypes.S (next_id r); errors := errors r; validated := validated r |}.

(** The runtime after one call of [onError]. *)
Definition with_error (rep : ErrorReport) (r : runtime) : runtime :=
  {| next_id := next_id r; errors := errors r ++ [rep]; validated := validated r |}.

(** The runtime after one call of the validator of [key] on [v]. *)
Definition with_validation (key : string) (v : val) (r : runtime) : runtime :=
  {| next_id := next_id r; errors := errors r; validated := validated r ++ [(key, v)] |}.

(** Identities are never handed out twice. *)
Definition ids_grow (r r' : runtime) : Prop := next_id r <= next_id r'.

(** No validator was called in between. *)
Definition validated_kept (r r' : runtime) : Prop := validated r' = validated r.

(** The address a page shows and the native history calls made on it. *)
Definition address (w : world) : option (Location * list (HistoryMode * string)) :=
  option_map (fun win => (location win, navigations win)) (window w).

(** The address and the history calls are as before. *)
Definition same_address (w w' : world) : Prop := address w' = address w.

(** Every configured validator returns, whatever it is given. *)
Definition validators_return (o : UseQueryParamsOptions) : Prop :=
  forall key f v, lookup key (validation o) = Some f -> exists b, f v = Returns b.

(** No mounted instance has a validator that throws. *)
Definition calm (w : world) : Prop :=
  Forall (fun hi => validators_return (options (snd hi))) (instances w).

(** What a subscriber never touches: the window and the module variables
    of the bridge. *)
Definition wiring (w : world) :=
  (window w, subs w, isHistoryPatched w,
   originalPushState w, originalReplaceState w, patchCount w).

(** [decodeURIComponent] or [JSON.parse] throws on the raw text. *)
Definition decode_fails (raw : string) : bool :=
  match decodeURIComponent raw with
  | Throws _ => true
  | Returns d => match JSON_parse d with Throws _ => true | Returns _ => false end
  end.

(** [JSON.stringify] or [encodeURIComponent] throws on the value. *)
Definition encode_fails (v : val) : bool :=
  match JSON_stringify v with
  | Throws _ => true
  | Returns text =>
      match encodeURIComponent (match text with Some t => t | None => "undefined" end) with
      | Throws _ => true
      | Returns _ => false
      end
  end.

(** [decode(encode(value))] with the built-in codec of a tag. *)
Definition round_trip (type : QueryParamType) (value : val) (onError : bool)
    (key : option string) : M runtime val :=
  serialized <- serializeSingle value (Some type) None onError key ;;
  parseSingle serialized (Some type) None onError key.

(** The value has the type its tag declares. *)
Definition conforms (type : QueryParamType) (v : val) : bool :=
  match type, v with
  | TString, VStr _ => true
  | TNumber, VNum n => Number_isFinite n
  | TBoolean, VBool _ => true
  | TDate, VDate _ _ => true
  | _, _ => false
  end.

(** The tags of [SingleType]. *)
Definition scalar (type : QueryParamType) : bool :=
  match type with
  | TString | TNumber | TBoolean | TDate => true
  | TStringArray | TObject => false
  end.

(** The recorded calls of the validator of [key], in order. *)
Definition calls_for (key : string) (r : runtime) : list (string * val) :=
  List.filter (fun kv => String.eqb (fst kv) key) (validated r).

(** The validator of [key] was not called in between. *)
Definition calls_kept (key : string) (r r' : runtime) : Prop :=
  calls_for key r' = calls_for key r.

(** What one iteration of the loop of [getParams] does for a key with a
    validator [f], from the value [v] the decoding step left under the key. *)
Definition validated_iteration (o : UseQueryParamsOptions) (key : string)
    (f : val -> thrown bool) (out1 : snapshot) (r1 : runtime)
  : completion runtime snapshot :=
  let v := get_prop key out1 in
  if nullish v then Normal out1 r1
  else
    match f v with
    | Throws e => Abrupt e (with_validation key v r1)
    | Returns true => Normal out1 (with_validation key v r1)
    | Returns false =>
        Normal (set_prop key (prop key (defaultValues o)) out1)
          (if onError o
           then with_error
                  (Report (Error "Error" ("Validation failed for " ++ key)) key v)
                  (with_validation key v r1)
           else with_validation key v r1)
    end.

(** The identity of a reference, none for a primitive. *)
Definition identity (v : val) : option nat :=
  match v with
  | VDate id _ | VArray id _ | VObject id _ => Some id
  | _ => None
  end.

(** The built-in codec decodes the key's raw value to a new object: a
    valid date, a JSON array or object, or at least one list element. *)
Definition fresh_on_read (config : QueryparamConfig) (o : UseQueryParamsOptions)
    (sp : URLSearchParams) (key : string) : bool :=
  match lookup key config with
  | Some TDate =>
      match lookup key (customSerializers o), USP.get key sp with
      | None, Some s => match Date_parse s with Some _ => true | None => false end
      | _, _ => false
      end
  | Some TObject =>
      match USP.get key sp with
      | Some s =>
          match decodeURIComponent s with
          | Returns d =>
              match JSON_parse d with
              | Returns (JArr _) | Returns (JObj _) => true
              | _ => false
              end
          | Throws _ => false
          end
      | None => false
      end
  | Some TStringArray => negb (Nat.eqb (List.length (USP.getAll key sp)) 0)
  | _ => false
  end.

(** No key of the patch is declared as a string list. *)
Definition plain_patch (config : QueryparamConfig) (patch : dict val) : bool :=
  forallb (fun key => match lookup key config with
                      | Some TStringArray => false
                      | _ => true
                      end) (typedKeys patch).

(** A location as a browser reports it: a path without [?] or [#], and a
    hash that is empty or a [#] followed by something. *)
Definition well_formed (l : Location) : bool :=
  negb (Str.is_empty (pathname l))
  && lacks "?" (pathname l) && lacks "#" (pathname l)
  && match hash l with
     | EmptyString => true
     | String a f => Ascii.eqb a "#" && negb (Str.is_empty f)
     end.

(** A history method is the native function, or the wrapper around it. *)
Definition method_ok (f : history_fn) (original : option history_fn) : bool :=
  match f, original with
  | Native, _ => true
  | Wrapped, Some Native => true
  | Wrapped, _ => false
  end.

(** Both history methods of the page are native or wrapped. *)
Definition wired (w : world) : bool :=
  match window w with
  | Some win => method_ok (pushState win) (originalPushState w)
                && method_ok (replaceState win) (originalReplaceState w)
  | None => false
  end.

(** The text of a commit's query in the address: behind a [?] unless empty. *)
Definition query_part (q : string) : string :=
  if Str.is_empty q then EmptyString else String "?" q.

(** The pairs whose serialization is the query string of [sp]: sorted by
    name under [sortKeys], else [sp] itself. *)
Definition written (o : UseQueryParamsOptions) (sp : URLSearchParams) : URLSearchParams :=
  if sortKeys o then array_sort (by_name localeCompare) (USP.entries sp) else sp.

(** The window is as before. *)
Definition window_kept (w w' : world) : Prop := window w' = window w.

(** No validator of the key rejects what the key decodes to from this
    query, whichever identity the decoded object gets. *)
Definition not_rejected (config : QueryparamConfig) (o : UseQueryParamsOptions)
    (sp : URLSearchParams) (key : string) : Prop :=
  forall f out r out1 r1,
    lookup key (validation o) = Some f ->
    decode_key config o sp key out r = Normal out1 r1 ->
    f (get_prop key out1) <> Returns false.

(** The tags whose values are primitives. *)
Definition primitive (type : QueryParamType) : bool :=
  match type with
  | TString | TNumber | TBoolean => true
  | TDate | TStringArray | TObject => false
  end.

(** Every key of the configuration has a primitive tag and is read by the
    built-in parser. *)
Definition primitive_keys (config : QueryparamConfig) (o : UseQueryParamsOptions) : bool :=
  forallb (fun key =>
             match lookup key config, lookup key (customSerializers o) with
             | Some type, None => primitive type
             | _, _ => false
             end) (typedKeys config).

(** [v === v]: every value but NaN. *)
Definition self_equal (v : val) : bool := strict_eq v v.

(** The value is what the built-in parser of the tag produces. *)
Definition decoded_as (type : QueryParamType) (v : val) : bool :=
  match type, v with
  | TString, VStr _ => true
  | TNumber, VNum n => Number_isFinite n
  | TBoolean, VBool _ => true
  | TDate, VDate _ (Some _) => true
  | TStringArray, VArray _ items => forallb is_JStr items
  | _, _ => false
  end.

(** The options without their custom serializers. *)
Definition built_in (o : UseQueryParamsOptions) : UseQueryParamsOptions :=
  {| sortKeys := sortKeys o; defaultHistory := defaultHistory o;
     defaultValues := defaultValues o; validation := validation o;
     customSerializers := []; onError := onError o |}.

End Vocabulary.

(* ================================================================== *)
(** * Concrete pages, on the reference host *)
(* ================================================================== *)

Module Scenario.

Import RefHost.

Definition rt0 : runtime := {| next_id := 0; errors := []; validated := [] |}.

Definition root : Location :=
  {| pathname := "/"; search := EmptyString; hash := EmptyString |}.

(** [{page: 'number'}], with [onError] configured. *)
Definition page_config : QueryparamConfig := [("page", TNumber)].

Definition loud : UseQueryParamsOptions :=
  {| sortKeys := false; defaultHistory := replace; defaultValues := [];
     validation := []; customSerializers := []; onError := true |}.

Definition on_page_1 : world :=
  fresh_page {| pathname := "/list"; search := "?page=1"; hash := EmptyString |}.

(** [{page: 'number'}] with the validator [page > 0] and the default 1. *)
Definition positive (v : jsval num) : thrown bool :=
  match v with
  | VNum (Int z) => Returns (0 <? z)%Z
  | VNum (Infinity negative) => Returns (negb negative)
  | _ => Returns false
  end.

Definition checked : UseQueryParamsOptions :=
  {| sortKeys := false; defaultHistory := replace;
     defaultValues := [("page", VNum (Int 1))];
     validation := [("page", positive)]; customSerializers := []; onError := true |}.

Definition at_page_minus_1 : option Location :=
  Some {| pathname := "/list"; search := "?page=-1"; hash := EmptyString |}.

(** [{filters: 'object'}] with the validator [o => o.status.length > 0],
    which throws a TypeError on an object without [status]. *)
Definition has_status (v : jsval num) : thrown bool :=
  match v with
  | VObject _ members =>
      match lookup "status" members with
      | Some (JStr s) => Returns (negb (Str.is_empty s))
      | Some (JArr items) => Returns (negb (Nat.eqb (List.length items) 0))
      | _ => Throws (Error "TypeError" "Cannot read properties of undefined")
      end
  | _ => Throws (Error "TypeError" "Cannot read properties of undefined")
  end.

Definition filters_config : QueryparamConfig := [("filters", TObject)].

Definition with_status : UseQueryParamsOptions :=
  {| sortKeys := false; defaultHistory := replace; defaultValues := [];
     validation := [("filters", has_status)]; customSerializers := [];
     onError := true |}.

Definition on_empty_filters : world :=
  fresh_page {| pathname := "/list"; search := "?filters=%7B%7D"; hash := EmptyString |}.

(** [{tags: 'string[]', q: 'string'}] and the patch [{tags: ['a'], q: 'x'}]. *)
Definition search_config : QueryparamConfig := [("tags", TStringArray); ("q", TString)].

Definition search_patch : dict (jsval num) :=
  [("tags", VArray 100 [JStr "a"]); ("q", VStr "x")].

Definition on_app : world :=
  fresh_page {| pathname := "/app"; search := EmptyString; hash := "#top" |}.

Definition patched_once : world :=
  state_of (syncParams search_config no_options search_patch None on_app).

Definition patched_twice : world :=
  state_of (syncParams search_config no_options search_patch None patched_once).

(** The same patch on the same page, with [sortKeys] on. *)
Definition sorting : UseQueryParamsOptions :=
  {| sortKeys := true; defaultHistory := replace; defaultValues := [];
     validation := []; customSerializers := []; onError := false |}.

Definition sorted_once : world :=
  state_of (syncParams search_config sorting search_patch None on_app).

Definition sorted_twice : world :=
  state_of (syncParams search_config sorting search_patch None sorted_once).

(** [{f: 'object'}] on [?f=5], and [{tags: 'string[]'}] on [?tags=a] with a
    validator that rejects every value. *)
Definition object_config : QueryparamConfig := [("f", TObject)].

Definition at_f_5 : option Location :=
  Some {| pathname := "/"; search := "?f=5"; hash := EmptyString |}.

Definition tags_config : QueryparamConfig := [("tags", TStringArray)].

Definition rejecting : UseQueryParamsOptions :=
  {| sortKeys := false; defaultHistory := replace; defaultValues := [];
     validation := [("tags", fun _ => Returns false)]; customSerializers := [];
     onError := false |}.

Definition at_tags_a : option Location :=
  Some {| pathname := "/"; search := "?tags=a"; hash := EmptyString |}.

(** A second read made right after a first one, and the verdict of
    [shallowEqual] on the two snapshots. *)
Definition read_twice (config : QueryparamConfig) (o : UseQueryParamsOptions)
    (win : option Location) : option bool :=
  match getParams config o win rt0 with
  | Normal first r1 =>
      match getParams config o win r1 with
      | Normal second _ => Some (shallowEqual first second)
      | Abrupt _ _ => None
      end
  | Abrupt _ _ => None
  end.

(** A page with one mounted instance of [{page: 'number'}], and with two. *)
Definition mounted_once : world := state_of (mount page_config no_options (fresh_page root)).

Definition mounted_twice : world := state_of (mount page_config no_options mounted_once).

(** Two reads of [?tags=a], one after the other. *)
Definition first_snapshot : snapshot :=
  {| sid := 0; props := [("tags", VArray 1 [JStr "a"])] |}.

Definition after_first : runtime := {| next_id := 2; errors := []; validated := [] |}.

Definition second_snapshot : snapshot :=
  {| sid := 2; props := [("tags", VArray 3 [JStr "a"])] |}.

Definition after_second : runtime := {| next_id := 4; errors := []; validated := [] |}.

(** The same two reads under the validator [tags => tags.length > 0]. *)
Definition nonempty (v : jsval num) : thrown bool :=
  match v with
  | VArray _ (_ :: _) => Returns true
  | _ => Returns false
  end.

Definition nonempty_tags : UseQueryParamsOptions :=
  {| sortKeys := false; defaultHistory := replace; defaultValues := [];
     validation := [("tags", nonempty)]; customSerializers := []; onError := false |}.

Definition accepted_first : runtime :=
  {| next_id := 2; errors := []; validated := [("tags", VArray 1 [JStr "a"])] |}.

Definition accepted_second : runtime :=
  {| next_id := 4; errors := [];
     validated := [("tags", VArray 1 [JStr "a"]); ("tags", VArray 3 [JStr "a"])] |}.

(** The page of [on_page_1] as the browser has it. *)
Definition page_1_window : Window :=
  {| location := {| pathname := "/list"; search := "?page=1"; hash := EmptyString |};
     pushState := Native; replaceState := Native; popstate := []; navigations := [] |}.

Definition page_2_patch : dict (jsval num) := [("page", VNum (Int 2))].

Definition app_window : Window :=
  {| location := {| pathname := "/app"; search := EmptyString; hash := "#top" |};
     pushState := Native; replaceState := Native; popstate := []; navigations := [] |}.

(** A query with a parameter the hook does not know. *)
Definition tracked : URLSearchParams := [("utm", "x"); ("tags", "old")].

(** [{f: 'object'}] patched with the array [[1, 2]]. *)
Definition pair_patch : dict (jsval num) := [("f", VArray 7 [JNum (Int 1); JNum (Int 2)])].

(** Four pairs out of order, two of them under [tags]. *)
Definition shuffled : URLSearchParams :=
  [("q", "x"); ("tags", "b"); ("a", "1"); ("tags", "a")].

Definition at_page_1 : option Location :=
  Some {| pathname := "/list"; search := "?page=1"; hash := EmptyString |}.

Definition at_page_1_tracked : option Location :=
  Some {| pathname := "/list"; search := "?utm=x&page=1&page=7"; hash := EmptyString |}.

(** A custom serializer for strings that marks what it reads. *)
Definition marking : CustomSerializer :=
  {| serialize := fun v => match v with
                           | VStr s => Returns (Some s)
                           | _ => Throws (Error "TypeError" "not a string")
                           end;
     parse := fun s => Returns (VStr ("#" ++ s)) |}.

Definition with_marking : UseQueryParamsOptions :=
  {| sortKeys := false; defaultHistory := replace; defaultValues := [];
     validation := []; customSerializers := [("tags", marking); ("q", marking)];
     onError := true |}.

(** The instance of [mounted_once]. *)
Definition first_instance : Instance :=
  {| config := page_config; options := no_options;
     params := {| sid := 0; props := [("page", VUndefined)] |}; updates := 0 |}.

Definition mounted_window : Window :=
  {| location := root; pushState := Wrapped; replaceState := Wrapped;
     popstate := [1]; navigations := [] |}.

(** A render outside a browser. *)
Definition on_server : world :=
  {| window := None; subs := []; isHistoryPatched := false;
     originalPushState := None; originalReplaceState := None; patchCount := 0;
     instances := []; invoked := [];
     rt := {| next_id := 0; errors := []; validated := [] |} |}.

(** Two instances mounted on [/list]: the first with the validator that
    throws on an object without [status], then one of [{page: 'number'}]. *)
Definition guarded_once : world :=
  state_of (mount filters_config with_status
              (fresh_page {| pathname := "/list"; search := EmptyString;
                             hash := EmptyString |})).

Definition guarded_twice : world := state_of (mount page_config no_options guarded_once).

(** The page of [mounted_twice] after its first instance is unmounted. *)
Definition after_first_unmount : world := state_of (unmount 1 mounted_twice).

End Scenario.

(* ================================================================== *)
(** * Reasoning about computations *)
(* ================================================================== *)

Local Open Scope js_scope.

Section Computations.

Context {S : Type}.

Lemma bind_normal_inv {A B} (m : M S A) (k : A -> M S B) s b s' :
  bind m k s = Normal b s' ->
  exists a s1, m s = Normal a s1 /\ k a s1 = Normal b s'.
Proof.
  unfold bind. destruct (m s) as [a s1 | e s1]; intros E.
  - exists a, s1. split; [reflexivity | exact E].
  - discriminate E.
Qed.

Lemma bind_normal {A B} (m : M S A) (k : A -> M S B) s a s1 :
  m s = Normal a s1 -> bind m k s = k a s1.
Proof. unfold bind. intros ->. reflexivity. Qed.

Lemma bind_abrupt {A B} (m : M S A) (k : A -> M S B) s e s1 :
  m s = Abrupt e s1 -> bind m k s = Abrupt e s1.
Proof. unfold bind. intros ->. reflexivity. Qed.

Lemma total_ret {A} (a : A) : total (@ret S A a).
Proof. intros s. exists a, s. reflexivity. Qed.

Lemma total_bind {A B} (m : M S A) (k : A -> M S B) :
  total m -> (forall a, total (k a)) -> total (bind m k).
Proof.
  intros Hm Hk s. destruct (Hm s) as (a & s1 & E).
  erewrite bind_normal by exact E. apply Hk.
Qed.

Lemma total_try_catch {A} (m : M S A) (h : error -> M S A) :
  (forall e, total (h e)) -> total (try_catch m h).
Proof.
  intros Hh s. unfold try_catch. destruct (m s) as [a s1 | e s1].
  - exists a, s1. reflexivity.
  - apply Hh.
Qed.

Lemma total_modify (f : S -> S) : total (modify f).
Proof. intros s. exists tt, (f s). reflexivity. Qed.

Lemma total_get_state : total (@get_state S).
Proof. intros s. exists s, s. reflexivity. Qed.

Lemma total_for_of {A B} (xs : list A) (body : A -> B -> M S B) :
  (forall x, In x xs -> forall b, total (body x b)) ->
  forall acc, total (for_of xs body acc).
Proof.
  induction xs as [| x r IH]; intros Hb acc; simpl.
  - apply total_ret.
  - apply total_bind.
    + apply Hb. left. reflexivity.
    + intros b. apply IH. intros y Hy. apply Hb. right. exact Hy.
Qed.

Section Preserves.

Context (R : S -> S -> Prop) {HR : PreOrder R}.

Lemma preserves_ret {A} (a : A) : preserves R (ret a).
Proof. intros s. simpl. reflexivity. Qed.

Lemma preserves_throw {A} e : preserves R (@throw S A e).
Proof. intros s. simpl. reflexivity. Qed.

Lemma preserves_call {A} (r : thrown A) : preserves R (call r).
Proof. destruct r; intros s; simpl; reflexivity. Qed.

Lemma preserves_get_state : preserves R (@get_state S).
Proof. intros s. simpl. reflexivity. Qed.

Lemma preserves_bind {A B} (m : M S A) (k : A -> M S B) :
  preserves R m -> (forall a, preserves R (k a)) -> preserves R (bind m k).
Proof.
  intros Hm Hk s. specialize (Hm s). unfold bind.
  destruct (m s) as [a s1 | e s1]; simpl in *.
  - etransitivity; [exact Hm | apply Hk].
  - exact Hm.
Qed.

Lemma preserves_try_catch {A} (m : M S A) (h : error -> M S A) :
  preserves R m -> (forall e, preserves R (h e)) -> preserves R (try_catch m h).
Proof.
  intros Hm Hh s. specialize (Hm s). unfold try_catch.
  destruct (m s) as [a s1 | e s1]; simpl in *.
  - exact Hm.
  - etransitivity; [exact Hm | apply Hh].
Qed.

Lemma preserves_modify (f : S -> S) :
  (forall s, R s (f s)) -> preserves R (modify f).
Proof. intros Hf s. apply Hf. Qed.

Lemma preserves_for_of {A B} (xs : list A) (body : A -> B -> M S B) :
  (forall x b, preserves R (body x b)) ->
  forall acc, preserves R (for_of xs body acc).
Proof.
  intros Hb. induction xs as [| x r IH]; intros acc; simpl.
  - apply preserves_ret.
  - apply preserves_bind; [apply Hb | intros b; apply IH].
Qed.

Lemma preserves_forEach {A} (xs : list A) (f : A -> M S unit) :
  (forall x, preserves R (f x)) -> preserves R (forEach xs f).
Proof.
  intros Hf. induction xs as [| x r IH]; simpl.
  - apply preserves_ret.
  - apply preserves_bind; [apply Hf | intros _; exact IH].
Qed.

End Preserves.

End Computations.

(** One step of a proof that a computation preserves a relation. *)
Ltac preserves_step :=
  lazymatch goal with
  | |- PreOrder _ => exact _
  | |- preserves _ (bind _ _) => apply preserves_bind; [| | intros ?]
  | |- preserves _ (try_catch _ _) => apply preserves_try_catch; [| | intros ?]
  | |- preserves _ (ret _) => apply preserves_ret
  | |- preserves _ (throw _) => apply preserves_throw
  | |- preserves _ (call _) => apply preserves_call
  | |- preserves _ get_state => apply preserves_get_state
  | |- preserves _ (for_of _ _ _) => apply preserves_for_of; [| intros ? ?]
  | |- preserves _ (forEach _ _) => apply preserves_forEach; [| intros ?]
  | |- preserves _ (match ?x with _ => _ end) => destruct x
  | |- preserves _ (let _ := _ in _) => cbv zeta
  end.

(* ================================================================== *)
(** * Facts about the reader *)
(* ================================================================== *)

Section ReaderFacts.

Context {H : Host}.

(** ** Relations every step of the codec preserves *)

Section Kept.

Variable R : runtime -> runtime -> Prop.
Context {HR : PreOrder R}.
Hypothesis R_alloc : forall r, R r (allocated r).
Hypothesis R_error : forall rep r, R r (with_error rep r).

Lemma alloc_kept : preserves R alloc.
Proof. intros r. apply R_alloc. Qed.

Lemma log_error_kept e k v : preserves R (log_error e k v).
Proof. intros r. apply R_error. Qed.

Lemma report_kept b k e v : preserves R (report b k e v).
Proof.
  unfold report. destruct k as [k |]; [| apply preserves_ret; exact _].
  destruct (b && negb (Str.is_empty k));
    [apply log_error_kept | apply preserves_ret; exact _].
Qed.

Ltac kept :=
  repeat first
    [ preserves_step
    | apply alloc_kept
    | apply log_error_kept
    | apply report_kept ].

Lemma new_Date_kept s : preserves R (new_Date s).
Proof. unfold new_Date. kept. Qed.

Lemma new_Array_kept xs : preserves R (new_Array xs).
Proof. unfold new_Array. kept. Qed.

Lemma new_object_kept : preserves R new_object.
Proof. unfold new_object. kept. Qed.

Lemma of_json_kept j : preserves R (of_json j).
Proof. unfold of_json. kept. Qed.

Lemma parseSingle_kept value type p b k : preserves R (parseSingle value type p b k).
Proof. unfold parseSingle, new_Date. kept. Qed.

Lemma serializeSingle_kept v type p b k : preserves R (serializeSingle v type p b k).
Proof. unfold serializeSingle. kept. Qed.

Lemma parseObject_kept value : preserves R (parseObject value).
Proof. unfold parseObject, of_json. kept. Qed.

Lemma serializeObject_kept v : preserves R (serializeObject v).
Proof. unfold serializeObject. kept. Qed.

Lemma decode_key_kept config o sp key out : preserves R (decode_key config o sp key out).
Proof.
  unfold decode_key.
  repeat first
    [ preserves_step | apply new_Array_kept | apply parseObject_kept
    | apply parseSingle_kept ].
Qed.

Lemma validate_key_kept o key out :
  (forall v r, R r (with_validation key v r)) ->
  preserves R (validate_key o key out).
Proof.
  intros R_valid. unfold validate_key.
  repeat first
    [ preserves_step | apply log_error_kept
    | match goal with |- preserves _ (log_validation _ _) => intros r; apply R_valid end ].
Qed.

Lemma getParams_key_kept config o sp key out :
  (forall v r, R r (with_validation key v r)) ->
  preserves R (getParams_key config o sp key out).
Proof.
  intros R_valid. unfold getParams_key. apply preserves_bind; [exact _ | |].
  - apply decode_key_kept.
  - intros out1. apply validate_key_kept. exact R_valid.
Qed.

Lemma setParams_kept next prev : preserves R (setParams next prev).
Proof. unfold setParams. kept. Qed.

Lemma syncParams_key_kept config o patch key sp :
  preserves R (syncParams_key config o patch key sp).
Proof.
  unfold syncParams_key.
  repeat first [ preserves_step | apply serializeObject_kept | apply serializeSingle_kept ].
Qed.

End Kept.

(** ** Object identities are handed out in increasing order *)

#[local] Instance ids_grow_preorder : PreOrder ids_grow.
Proof.
  split.
  - intros r. unfold ids_grow. lia.
  - intros a b c. unfold ids_grow. lia.
Qed.

Lemma ids_grow_alloc r : ids_grow r (allocated r).
Proof. unfold ids_grow. simpl. lia. Qed.

Lemma ids_grow_error rep r : ids_grow r (with_error rep r).
Proof. unfold ids_grow. simpl. lia. Qed.

Lemma ids_grow_validation key v r : ids_grow r (with_validation key v r).
Proof. unfold ids_grow. simpl. lia. Qed.

Lemma decode_key_ids config o sp key out :
  preserves ids_grow (decode_key config o sp key out).
Proof.
  apply decode_key_kept; [exact _ | apply ids_grow_alloc | apply ids_grow_error].
Qed.

Lemma validate_key_ids o key out : preserves ids_grow (validate_key o key out).
Proof.
  apply validate_key_kept;
    [exact _ | apply ids_grow_error | intros v r; apply ids_grow_validation].
Qed.

Lemma getParams_key_ids config o sp key out :
  preserves ids_grow (getParams_key config o sp key out).
Proof.
  apply getParams_key_kept;
    [exact _ | apply ids_grow_alloc | apply ids_grow_error
    | intros v r; apply ids_grow_validation].
Qed.

Lemma for_of_ids config o sp keys out :
  preserves ids_grow (for_of keys (getParams_key config o sp) out).
Proof.
  apply preserves_for_of; [exact _ |]. intros key acc. apply getParams_key_ids.
Qed.

Lemma getParams_ids config o win : preserves ids_grow (getParams config o win).
Proof.
  unfold getParams. apply preserves_bind; [exact _ | |].
  - apply new_object_kept; [exact _ | apply ids_grow_alloc].
  - intros out. apply for_of_ids.
Qed.

Lemma setParams_ids next prev : preserves ids_grow (setParams next prev).
Proof. apply setParams_kept; [exact _ | apply ids_grow_alloc]. Qed.

(** ** The codec and the decoding step never call a validator *)

#[local] Instance validated_kept_preorder : PreOrder validated_kept.
Proof.
  split.
  - intros r. reflexivity.
  - intros a b c. unfold validated_kept. congruence.
Qed.

Lemma decode_key_calls_no_validator config o sp key out :
  preserves validated_kept (decode_key config o sp key out).
Proof. apply decode_key_kept; [exact _ | |]; intros; reflexivity. Qed.

End ReaderFacts.

(* ================================================================== *)
(** * The navigation bridge *)
(* ================================================================== *)

Section BridgeFacts.

Context {H : Host}.

(** What a mount that completes leaves behind, field by field. *)
Lemma mount_inv config o w win h w' :
  window w = Some win ->
  mount config o w = Normal h w' ->
  exists out r1,
    getParams config o (Some (location win)) (rt w) = Normal out r1
    /\ h = next_id r1
    /\ w' =
       {| window :=
            Some (set_popstate (popstate win ++ [h])
                    (if isHistoryPatched w then win else set_methods Wrapped Wrapped win));
          subs := subs w ++ [h];
          isHistoryPatched := true;
          originalPushState :=
            if isHistoryPatched w then originalPushState w else Some (pushState win);
          originalReplaceState :=
            if isHistoryPatched w then originalReplaceState w else Some (replaceState win);
          patchCount := if isHistoryPatched w then patchCount w else (patchCount w + 1)%Z;
          instances :=
            put_instance h {| config := config; options := o; params := out; updates := 0 |}
              (instances w);
          invoked := invoked w;
          rt := {| next_id := Datatypes.S (next_id r1); errors := errors r1;
                   validated := validated r1 |} |}.
Proof.
  intros Hwin. unfold mount, bind, get_state, in_rt, zoom. rewrite Hwin. simpl.
  destruct (getParams config o (Some (location win)) (rt w)) as [out r1 | e r1]; simpl;
    [| discriminate].
  unfold patchHistory, modify, addEventListener, ret, modify,
    set_window, set_subs, set_instances, set_rt.
  simpl. rewrite Hwin.
  destruct (isHistoryPatched w) eqn:Hp; simpl; rewrite ?Hwin; simpl;
    intros E; injection E as <- <-; exists out, r1; repeat split.
Qed.

#[local] Instance same_address_preorder : PreOrder same_address.
Proof.
  split.
  - intros w. reflexivity.
  - intros a b c Hab Hbc. unfold same_address in *. congruence.
Qed.

Lemma in_rt_preserves {A} (R : world -> world -> Prop) (m : M runtime A) :
  (forall w r, R w (set_rt r w)) -> preserves R (in_rt m).
Proof.
  intros HR w. unfold in_rt, zoom. destruct (m (rt w)); simpl; apply HR.
Qed.

Lemma in_rt_same_address {A} (m : M runtime A) : preserves same_address (in_rt m).
Proof. apply in_rt_preserves. intros w r. reflexivity. Qed.

Lemma patchHistory_same_address : preserves same_address patchHistory.
Proof.
  intros w. unfold patchHistory, same_address, address.
  destruct (window w) as [win |] eqn:E; simpl; [| rewrite E; reflexivity].
  destruct (isHistoryPatched w); simpl; [rewrite E |]; reflexivity.
Qed.

Lemma addEventListener_same_address h : preserves same_address (addEventListener h).
Proof. intros w. reflexivity. Qed.

(** Mounting never touches the address: no history call is made and the
    location stays as it was. *)
Lemma mount_same_address config o : preserves same_address (mount config o).
Proof.
  unfold mount.
  repeat first
    [ preserves_step
    | apply in_rt_same_address
    | apply patchHistory_same_address
    | apply addEventListener_same_address
    | apply preserves_modify; [exact _ |] ].
  all: intros x; unfold same_address, address; simpl; try reflexivity.
  destruct (window x) as [win |] eqn:E; simpl; rewrite ?E; reflexivity.
Qed.

(** C1 (the code departs from the claim).  Two instances are mounted on a
    fresh page and the first one is unmounted.  [patchHistory] counts only
    the first mount, so this single unmount already restores the native
    [pushState] and [replaceState]: the second instance is still mounted
    and subscribed, yet a push or replace made by other code no longer
    notifies it. *)
Theorem shared_interception_lost :
  forall (l : Location) c1 o1 c2 o2 h1 w1 h2 w2,
    mount c1 o1 (fresh_page l) = Normal h1 w1 ->
    mount c2 o2 w1 = Normal h2 w2 ->
    patchCount w2 = 1%Z
    /\ exists w3,
        unmount h1 w2 = Normal tt w3
        /\ find_instance h2 (instances w3) <> None
        /\ subs w3 = [h2]
        /\ isHistoryPatched w3 = false
        /\ option_map pushState (window w3) = Some Native
        /\ option_map replaceState (window w3) = Some Native
        /\ forall mode url,
             invoked (state_of (history_call mode url w3)) = invoked w3.
Proof.
  intros l c1 o1 c2 o2 h1 w1 h2 w2 M1 M2.
  eapply mount_inv in M1; [| reflexivity].
  destruct M1 as (out1 & r1 & G1 & Hh1 & ->).
  eapply mount_inv in M2; [| reflexivity].
  destruct M2 as (out2 & r2 & G2 & Hh2 & ->).
  simpl in G2. simpl.
  assert (Hlt : h1 < h2).
  { pose proof (getParams_ids c2 o2 (Some l) (Build_runtime (Datatypes.S (next_id r1))
                                               (errors r1) (validated r1))) as Hm.
    simpl in G2. rewrite G2 in Hm. unfold ids_grow in Hm. simpl in Hm. lia. }
  assert (E12 : Nat.eqb h1 h2 = false) by (apply Nat.eqb_neq; lia).
  assert (E21 : Nat.eqb h2 h1 = false) by (apply Nat.eqb_neq; lia).
  split; [reflexivity |].
  eexists. split.
  - unfold unmount, bind, modify, removeEventListener, unpatchHistory. simpl.
    rewrite ?Nat.eqb_refl, ?E12, ?E21. simpl. reflexivity.
  - simpl. rewrite ?Nat.eqb_refl, ?E12, ?E21. simpl. rewrite ?Nat.eqb_refl, ?E12, ?E21.
    repeat split; try reflexivity; try discriminate.
    intros mode url. destruct mode; reflexivity.
Qed.

End BridgeFacts.

(* ================================================================== *)
(** * Reads that complete *)
(* ================================================================== *)

Section Totality.

Context {H : Host}.

Lemma total_alloc : total alloc.
Proof. intros r. eexists _, _. reflexivity. Qed.

Lemma total_report b k e v : total (report b k e v).
Proof.
  unfold report. destruct k as [k |]; [| apply total_ret].
  destruct (b && negb (Str.is_empty k)); [apply total_modify | apply total_ret].
Qed.

Lemma total_parseSingle value type p b k : total (parseSingle value type p b k).
Proof.
  unfold parseSingle. destruct value as [s |]; [| apply total_ret].
  apply total_try_catch. intros e. apply total_bind.
  - apply total_report.
  - intros _. apply total_ret.
Qed.

Lemma total_serializeSingle v type p b k : total (serializeSingle v type p b k).
Proof.
  unfold serializeSingle. apply total_try_catch. intros e. apply total_bind.
  - apply total_report.
  - intros _. apply total_ret.
Qed.

Lemma total_parseObject value : total (parseObject value).
Proof.
  unfold parseObject. destruct value as [s |]; [| apply total_ret].
  apply total_try_catch. intros e. apply total_ret.
Qed.

Lemma total_serializeObject v : total (serializeObject v).
Proof. unfold serializeObject. apply total_try_catch. intros e. apply total_ret. Qed.

Lemma total_new_Array xs : total (new_Array xs).
Proof.
  unfold new_Array. apply total_bind; [apply total_alloc | intros id; apply total_ret].
Qed.

Lemma total_decode_key config o sp key out : total (decode_key config o sp key out).
Proof.
  unfold decode_key.
  destruct (lookup key config) as [[] |];
    try (apply total_bind; [apply total_parseSingle | intros ?; apply total_ret]).
  - apply total_bind; [apply total_new_Array | intros values].
    destruct (negb _); [apply total_ret |].
    destruct (truthy _); [apply total_ret |].
    apply total_bind; [apply total_new_Array | intros ?; apply total_ret].
  - apply total_bind; [apply total_parseObject | intros ?; apply total_ret].
Qed.

Lemma total_validate_key o key out :
  validators_return o -> total (validate_key o key out).
Proof.
  intros Hv. unfold validate_key.
  destruct (lookup key (validation o)) as [f |] eqn:Ef; [| apply total_ret].
  destruct (nullish _); [apply total_ret |].
  apply total_bind; [apply total_modify | intros _].
  destruct (Hv key f (get_prop key out) Ef) as [b Eb]. rewrite Eb.
  apply total_bind; [apply total_ret | intros ok].
  destruct ok; [apply total_ret |].
  apply total_bind; [| intros _; apply total_ret].
  destruct (onError o); [apply total_modify | apply total_ret].
Qed.

Lemma total_getParams_key config o sp key out :
  validators_return o -> total (getParams_key config o sp key out).
Proof.
  intros Hv. unfold getParams_key. apply total_bind.
  - apply total_decode_key.
  - intros out1. apply total_validate_key. exact Hv.
Qed.

(** A read completes whenever the validators return: everything else that
    can throw is caught inside the codec. *)
Lemma total_getParams config o win :
  validators_return o -> total (getParams config o win).
Proof.
  intros Hv. unfold getParams. apply total_bind.
  - unfold new_object. apply total_bind; [apply total_alloc | intros id; apply total_ret].
  - intros out. apply total_for_of. intros key _ acc. apply total_getParams_key. exact Hv.
Qed.

Lemma total_setParams next prev : total (setParams next prev).
Proof.
  unfold setParams. destruct (shallowEqual prev next); [apply total_ret |].
  apply total_bind; [apply total_alloc | intros id; apply total_ret].
Qed.

(** Applying a patch to the query always completes. *)
Lemma total_syncParams_key config o patch key sp :
  total (syncParams_key config o patch key sp).
Proof.
  unfold syncParams_key.
  destruct (lookup key config) as [[] |];
    try (apply total_bind; [apply total_serializeSingle | intros [s |]; apply total_ret]).
  - destruct (_ && _); apply total_ret.
  - apply total_bind; [apply total_serializeObject | intros [s |]; apply total_ret].
Qed.

Lemma total_patched_query config o patch sp : total (patched_query config o patch sp).
Proof.
  unfold patched_query. apply total_for_of. intros key _ acc. apply total_syncParams_key.
Qed.

End Totality.

(* ================================================================== *)
(** * Notifications *)
(* ================================================================== *)

Section Notifications.

Context {H : Host}.

Lemma find_instance_In h l i : find_instance h l = Some i -> In (h, i) l.
Proof.
  induction l as [| [k x] r IH]; simpl; [discriminate |].
  destruct (Nat.eqb k h) eqn:E.
  - intros [= ->]. apply Nat.eqb_eq in E. subst. left. reflexivity.
  - intros Hf. right. apply IH. exact Hf.
Qed.

Lemma put_instance_Forall (P : nat * Instance -> Prop) h i l :
  P (h, i) -> (forall k x, P (k, x) -> k = h -> P (k, i)) ->
  Forall P l -> Forall P (put_instance h i l).
Proof.
  intros Hi Hk. induction 1 as [| [k x] r Hx Hr IH]; simpl.
  - constructor; [exact Hi | constructor].
  - destruct (Nat.eqb k h) eqn:E.
    + constructor; [| exact Hr]. apply Nat.eqb_eq in E. eapply Hk; eauto.
    + constructor; [exact Hx | exact IH].
Qed.

Lemma handle_spec h w :
  calm w ->
  exists w', handle h w = Normal tt w'
             /\ wiring w' = wiring w /\ invoked w' = invoked w /\ calm w'.
Proof.
  intros Hc. unfold handle, bind, get_state.
  destruct (find_instance h (instances w)) as [i |] eqn:Ei.
  - assert (Hv : validators_return (options i)).
    { apply find_instance_In in Ei. unfold calm in Hc.
      rewrite Forall_forall in Hc. apply (Hc _ Ei). }
    unfold in_rt, zoom.
    destruct (total_getParams (config i) (option_map location (window w)) Hv (rt w))
      as (out & r1 & E1).
    rewrite E1. simpl.
    destruct (total_setParams out (params i) r1) as (st & r2 & E2).
    rewrite E2. simpl. eexists. split; [reflexivity |].
    repeat split.
    unfold calm. simpl. apply put_instance_Forall; simpl; auto.
  - exists w. repeat split. exact Hc.
Qed.

Lemma invoke_spec h w :
  calm w ->
  exists w', invoke h w = Normal tt w'
             /\ wiring w' = wiring w /\ invoked w' = invoked w ++ [h] /\ calm w'.
Proof.
  intros Hc. unfold invoke, bind, modify.
  destruct (@handle_spec h (set_invoked (invoked w ++ [h]) w) Hc)
    as (w' & E & Hw & Hi & Hc').
  exists w'. rewrite E. repeat split; assumption.
Qed.

Lemma forEach_invoke_spec hs :
  forall w, calm w ->
  exists w', forEach hs invoke w = Normal tt w'
             /\ wiring w' = wiring w /\ invoked w' = invoked w ++ hs /\ calm w'.
Proof.
  induction hs as [| h r IH]; intros w Hc; simpl.
  - exists w. rewrite app_nil_r. repeat split. exact Hc.
  - destruct (invoke_spec h Hc) as (w1 & E1 & Hw1 & Hi1 & Hc1).
    destruct (IH w1 Hc1) as (w2 & E2 & Hw2 & Hi2 & Hc2).
    exists w2. unfold bind. rewrite E1, E2. repeat split.
    + congruence.
    + rewrite Hi2, Hi1, <- app_assoc. reflexivity.
    + exact Hc2.
Qed.

Lemma notify_spec w :
  calm w ->
  exists w', notify w = Normal tt w'
             /\ wiring w' = wiring w /\ invoked w' = invoked w ++ subs w /\ calm w'.
Proof.
  intros Hc. unfold notify, bind, get_state. apply forEach_invoke_spec. exact Hc.
Qed.


End Notifications.

(* ================================================================== *)
(** * What escapes a read, and what a mount does to the address *)
(* ================================================================== *)

Section Escapes.

Context {H : Host}.

(** C3 (the code departs from the claim).  The codec catches what a
    custom parser or serializer throws, but [getParams] calls the
    validator outside any [try]: when the value read for the first declared
    key is present and its validator throws [e] on it, the read itself
    throws [e], and so does mounting the hook on that address. *)
Theorem validator_exception_escapes :
  forall (config : QueryparamConfig) (o : UseQueryParamsOptions) (w : world)
         (win : Window) (key : string) (rest : list string)
         (f : val -> thrown bool) (e : error) (out1 : snapshot) (r1 : runtime),
    window w = Some win ->
    typedKeys config = key :: rest ->
    lookup key (validation o) = Some f ->
    decode_key config o (getSearchParams (Some (location win))) key
      {| sid := next_id (rt w); props := [] |}
      {| next_id := Datatypes.S (next_id (rt w)); errors := errors (rt w);
         validated := validated (rt w) |} = Normal out1 r1 ->
    nullish (get_prop key out1) = false ->
    f (get_prop key out1) = Throws e ->
    (exists r', getParams config o (Some (location win)) (rt w) = Abrupt e r')
    /\ (exists w', mount config o w = Abrupt e w').
Proof.
  intros config o w win key rest f e out1 r1 Hwin Hk Hf Hd Hn He.
  assert (G : getParams config o (Some (location win)) (rt w)
              = Abrupt e {| next_id := next_id r1; errors := errors r1;
                            validated := validated r1 ++ [(key, get_prop key out1)] |}).
  { unfold getParams, new_object, bind, alloc, ret. rewrite Hk. simpl.
    unfold bind, getParams_key, bind. rewrite Hd.
    unfold validate_key. rewrite Hf, Hn. unfold bind, log_validation, modify.
    rewrite He. reflexivity. }
  split.
  - eexists. exact G.
  - unfold mount, bind, get_state, in_rt, zoom. rewrite Hwin. simpl. rewrite G.
    eexists. reflexivity.
Qed.

(** C2 (the code departs from the claim).  For the declaration
    [{page: 'number'}] with the default [{page: n}] on an address without
    a query, the mount completes and the state it holds is [{page: n}], but
    the address is as it was and no history call was made: the default is
    not written into the query string.  No mount, of any declaration on
    any page, changes the address. *)
Theorem mount_keeps_the_address :
  forall (n : number) (path fragment : string),
    let l := {| pathname := path; search := EmptyString; hash := fragment |} in
    let o := {| sortKeys := false; defaultHistory := replace;
                defaultValues := [("page", VNum n)]; validation := [];
                customSerializers := []; onError := false |} in
    (exists h w',
        mount [("page", TNumber)] o (fresh_page l) = Normal h w'
        /\ option_map params (find_instance h (instances w'))
           = Some {| sid := 0; props := [("page", VNum n)] |}
        /\ option_map location (window w') = Some l
        /\ option_map navigations (window w') = Some [])
    /\ forall config o' w, address (state_of (mount config o' w)) = address w.
Proof.
  intros n path fragment l o. split.
  - eexists _, _. split; [reflexivity |]. simpl. repeat split.
  - intros config o' w. apply (mount_same_address config o' w).
Qed.

End Escapes.

(* ================================================================== *)
(** * The codec *)
(* ================================================================== *)

Section CodecFacts.

Context {H : Host}.

Lemma parseObject_failure raw r :
  decode_fails raw = true -> parseObject (Some raw) r = Normal VUndefined r.
Proof.
  unfold decode_fails, parseObject, try_catch, bind, call.
  destruct (decodeURIComponent raw) as [d | e]; simpl; [| reflexivity].
  destruct (JSON_parse d) as [j | e]; simpl; [discriminate | reflexivity].
Qed.

Lemma serializeObject_failure v r :
  encode_fails v = true -> serializeObject v r = Normal None r.
Proof.
  unfold encode_fails, serializeObject, try_catch, bind, call.
  destruct (JSON_stringify v) as [text | e]; simpl; [| reflexivity].
  destruct (encodeURIComponent _) as [s | e]; simpl; [discriminate | reflexivity].
Qed.

Lemma delete_removes key sp : USP.get key (USP.delete key sp) = None.
Proof.
  induction sp as [| [k x] r IH]; simpl; [reflexivity |].
  destruct (String.eqb k key) eqn:E; simpl; [exact IH |].
  rewrite E. exact IH.
Qed.

(** C7.  For an opaque-object key a decode failure and an encode failure
    both yield absent, and neither calls [onError]: the runtime, and so the
    record of [onError] calls, is left exactly as it was.  In a read the key
    then takes its default; in a patch the key is deleted from the query.
    The scalar codec is louder: a number that does not parse is reported. *)
Theorem object_codec_fails_silently :
  forall (config : QueryparamConfig) (o : UseQueryParamsOptions)
         (sp : URLSearchParams) (key raw : string) (patch : dict val)
         (out : snapshot) (r : runtime),
    lookup key config = Some TObject ->
    USP.get key sp = Some raw ->
    decode_fails raw = true ->
    encode_fails (prop key patch) = true ->
    parseObject (Some raw) r = Normal VUndefined r
    /\ serializeObject (prop key patch) r = Normal None r
    /\ decode_key config o sp key out r
       = Normal (set_prop key (prop key (defaultValues o)) out) r
    /\ (exists sp', syncParams_key config o patch key sp r = Normal sp' r
                    /\ USP.get key sp' = None)
    /\ (forall text,
          Str.is_empty key = false ->
          Number_isFinite (Number_of_string text) = false ->
          parseSingle (Some text) (Some TNumber) None true (Some key) r
          = Normal VUndefined
              (with_error (Report (Error "Error" ("Invalid number: " ++ text))
                             key (VStr text)) r)).
Proof.
  intros config o sp key raw patch out r Ht Hraw Hd He.
  pose proof (parseObject_failure raw r Hd) as Pd.
  pose proof (serializeObject_failure (prop key patch) r He) as Pe.
  repeat split.
  - exact Pd.
  - exact Pe.
  - unfold decode_key, bind. rewrite Ht, Hraw, Pd. reflexivity.
  - exists (USP.delete key sp). split.
    + unfold syncParams_key, bind. rewrite Ht, Pe. reflexivity.
    + apply delete_removes.
  - intros text Hk Hn. unfold parseSingle, try_catch, report, bind.
    rewrite Hn, Hk. reflexivity.
Qed.

(** C8.  With the built-in codec, decoding what was encoded gives the
    value back for every string, every boolean, every finite number and
    every valid date, given that the host reads back the text it prints for
    that number and that date; the date comes back as a new [Date] object
    with the same time value.  A number that is not finite does not round
    trip: it encodes to absent. *)
Theorem codec_round_trip :
  forall (onError : bool) (key : option string) (r : runtime)
         (s : string) (b : bool) (n m : number) (id : nat) (t : Z),
    Number_isFinite n = true ->
    Number_of_string (String_of_number n) = n ->
    Date_parse (Date_toISOString t) = Some t ->
    Number_isFinite m = false ->
    round_trip TString (VStr s) onError key r = Normal (VStr s) r
    /\ round_trip TBoolean (VBool b) onError key r = Normal (VBool b) r
    /\ round_trip TNumber (VNum n) onError key r = Normal (VNum n) r
    /\ round_trip TDate (VDate id (Some t)) onError key r
       = Normal (VDate (next_id r) (Some t))
           (allocated r)
    /\ serializeSingle (VNum m) (Some TNumber) None onError key r = Normal None r.
Proof.
  intros onError key r s b n m id t Hn Hr Hd Hm.
  unfold round_trip, serializeSingle, parseSingle, try_catch, bind, ret. simpl.
  rewrite Hn, Hr, Hn, Hm. simpl.
  repeat split.
  - destruct b; reflexivity.
  - unfold new_Date, bind, alloc, ret. rewrite Hd. reflexivity.
Qed.

(** C4 as amended.  Without a custom serializer, a patch value that does
    not conform to the scalar tag of its key is dropped in silence: the key
    is deleted from the query and [onError] is not called.  [onError] is
    called, with the key and the value, only when serializing throws: by a
    custom serializer that throws, or for an invalid [Date]. *)
Theorem nonconforming_value_is_dropped_unreported :
  forall (config : QueryparamConfig) (o : UseQueryParamsOptions) (patch : dict val)
         (key : string) (type : QueryParamType) (sp : URLSearchParams) (r : runtime),
    lookup key config = Some type ->
    scalar type = true ->
    (lookup key (customSerializers o) = None ->
     conforms type (prop key patch) = false ->
     syncParams_key config o patch key sp r = Normal (USP.delete key sp) r)
    /\ (forall c e,
          lookup key (customSerializers o) = Some c ->
          serialize c (prop key patch) = Throws e ->
          syncParams_key config o patch key sp r
          = Normal (USP.delete key sp)
              (if onError o && negb (Str.is_empty key)
               then with_error (Report e key (prop key patch)) r else r))
    /\ (forall id,
          lookup key (customSerializers o) = None ->
          type = TDate ->
          prop key patch = VDate id None ->
          syncParams_key config o patch key sp r
          = Normal (USP.delete key sp)
              (if onError o && negb (Str.is_empty key)
               then with_error (Report (Error "RangeError" "Invalid time value")
                                  key (prop key patch)) r
               else r))
    /\ USP.get key (USP.delete key sp) = None.
Proof.
  intros config o patch key type sp r Ht Hs.
  repeat split.
  - intros Hc Hn. unfold syncParams_key, serializeSingle, try_catch, bind.
    rewrite Ht, Hc. simpl.
    destruct type; try discriminate Hs; simpl;
      destruct (prop key patch); simpl in *; try discriminate Hn; try reflexivity.
    rewrite Hn. reflexivity.
  - intros c e Hc He. unfold syncParams_key, serializeSingle, try_catch, bind, report.
    rewrite Ht, Hc. simpl. rewrite He. simpl.
    destruct type; try discriminate Hs;
      destruct (onError o && negb (Str.is_empty key)); reflexivity.
  - intros id Hc -> Hv. unfold syncParams_key, serializeSingle, try_catch, bind, report.
    rewrite Ht, Hc, Hv. simpl.
    destruct (onError o && negb (Str.is_empty key)); reflexivity.
  - apply delete_removes.
Qed.

End CodecFacts.

(* ================================================================== *)
(** * One read, key by key *)
(* ================================================================== *)

(** Take apart a hypothesis saying that a computation completed. *)
Ltac invert_normal :=
  match goal with
  | E : bind _ _ _ = Normal _ _ |- _ =>
      apply bind_normal_inv in E; destruct E as (? & ? & ? & E)
  | E : ret _ _ = Normal _ _ |- _ => unfold ret in E; injection E as <- <-
  | E : Normal _ _ = Normal _ _ |- _ => injection E as <- <-
  | E : (if ?c then _ else _) _ = Normal _ _ |- _ => destruct c eqn:?
  | E : (match ?x with _ => _ end) _ = Normal _ _ |- _ => destruct x eqn:?
  end.

Section Reads.

Context {H : Host}.

Lemma for_of_app {S A B} (xs ys : list A) (body : A -> B -> M S B) (acc : B) (s : S) :
  for_of (xs ++ ys) body acc s = bind (for_of xs body acc) (for_of ys body) s.
Proof.
  revert acc s. induction xs as [| x r IH]; intros acc s; simpl.
  - reflexivity.
  - unfold bind. destruct (body x acc s) as [b s1 | e s1]; [| reflexivity].
    rewrite IH. reflexivity.
Qed.

Lemma lookup_assign_same {A} key (a : A) d : lookup key (assign key a d) = Some a.
Proof.
  induction d as [| [k x] r IH]; simpl.
  - rewrite String.eqb_refl. reflexivity.
  - destruct (String.eqb k key) eqn:E; simpl; rewrite E; [reflexivity | exact IH].
Qed.

Lemma lookup_assign_other {A} key key' (a : A) d :
  key' <> key -> lookup key (assign key' a d) = lookup key d.
Proof.
  intros Hne. induction d as [| [k x] r IH]; simpl.
  - destruct (String.eqb key' key) eqn:E; [| reflexivity].
    apply String.eqb_eq in E. contradiction.
  - destruct (String.eqb k key') eqn:E; simpl.
    + apply String.eqb_eq in E. subst k.
      destruct (String.eqb key' key) eqn:E'; [| reflexivity].
      apply String.eqb_eq in E'. contradiction.
    + destruct (String.eqb k key); [reflexivity | exact IH].
Qed.

Lemma get_set_same key v out : get_prop key (set_prop key v out) = v.
Proof. unfold get_prop, set_prop, prop. simpl. rewrite lookup_assign_same. reflexivity. Qed.

Lemma get_set_other key key' v out :
  key' <> key -> get_prop key (set_prop key' v out) = get_prop key out.
Proof.
  intros Hne. unfold get_prop, set_prop, prop. simpl.
  rewrite lookup_assign_other by exact Hne. reflexivity.
Qed.

(** The decoding step assigns the key it is given and nothing else. *)
Lemma decode_key_assigns config o sp key out r out' r' :
  decode_key config o sp key out r = Normal out' r' ->
  exists x, out' = set_prop key x out.
Proof.
  unfold decode_key. intros E. repeat invert_normal; eexists; reflexivity.
Qed.

Lemma validate_key_assigns o key out r out' r' :
  validate_key o key out r = Normal out' r' ->
  out' = out \/ out' = set_prop key (prop key (defaultValues o)) out.
Proof.
  unfold validate_key. intros E. repeat invert_normal; auto.
Qed.

Lemma getParams_key_other config o sp key key' out r out' r' :
  key' <> key ->
  getParams_key config o sp key' out r = Normal out' r' ->
  get_prop key out' = get_prop key out /\ sid out' = sid out.
Proof.
  intros Hne E. unfold getParams_key in E.
  apply bind_normal_inv in E. destruct E as (out1 & r1 & E1 & E2).
  apply decode_key_assigns in E1. destruct E1 as [x0 ->].
  apply validate_key_assigns in E2. destruct E2 as [-> | ->];
    rewrite ?get_set_other by exact Hne; split; reflexivity.
Qed.

Lemma for_of_other config o sp key keys :
  ~ In key keys ->
  forall out r out' r',
    for_of keys (getParams_key config o sp) out r = Normal out' r' ->
    get_prop key out' = get_prop key out /\ sid out' = sid out.
Proof.
  induction keys as [| k rest IH]; intros Hnot out r out' r' E; simpl in E.
  - injection E as <- <-. split; reflexivity.
  - apply bind_normal_inv in E. destruct E as (out1 & r1 & E1 & E2).
    apply getParams_key_other with (key := key) in E1;
      [| intros ->; apply Hnot; left; reflexivity].
    apply IH in E2; [| intros Hin; apply Hnot; right; exact Hin].
    destruct E1, E2. split; congruence.
Qed.

(** ** Calls of one key's validator *)

#[local] Instance calls_kept_preorder key : PreOrder (calls_kept key).
Proof.
  split.
  - intros r. reflexivity.
  - intros a b c. unfold calls_kept. congruence.
Qed.

Lemma getParams_key_calls config o sp key key' out :
  key' <> key -> preserves (calls_kept key) (getParams_key config o sp key' out).
Proof.
  intros Hne. apply getParams_key_kept; [exact _ | | |]; intros; try reflexivity.
  unfold calls_kept, calls_for. simpl. rewrite filter_app. simpl.
  destruct (String.eqb key' key) eqn:E.
  - apply String.eqb_eq in E. contradiction.
  - apply app_nil_r.
Qed.

Lemma for_of_calls config o sp key keys :
  ~ In key keys ->
  forall out, preserves (calls_kept key) (for_of keys (getParams_key config o sp) out).
Proof.
  induction keys as [| k rest IH]; intros Hnot out; simpl.
  - apply preserves_ret. exact _.
  - apply preserves_bind; [exact _ | |].
    + apply getParams_key_calls. intros ->. apply Hnot. left. reflexivity.
    + intros b. apply IH. intros Hin. apply Hnot. right. exact Hin.
Qed.

Lemma split_at_key (key : string) keys :
  NoDup keys -> In key keys ->
  exists pre post, keys = pre ++ key :: post /\ ~ In key pre /\ ~ In key post.
Proof.
  intros Hnd Hin. destruct (in_split _ _ Hin) as (pre & post & ->).
  exists pre, post. split; [reflexivity |].
  apply NoDup_remove_2 in Hnd. split; intros Hx; apply Hnd; apply in_or_app; auto.
Qed.

(** What the validation step does, case by case. *)
Lemma validate_key_cases o key f out r :
  lookup key (validation o) = Some f ->
  validate_key o key out r =
    if nullish (get_prop key out) then Normal out r
    else
      match f (get_prop key out) with
      | Throws e => Abrupt e (with_validation key (get_prop key out) r)
      | Returns true => Normal out (with_validation key (get_prop key out) r)
      | Returns false =>
          Normal (set_prop key (prop key (defaultValues o)) out)
            (if onError o
             then with_error
                    (Report (Error "Error" ("Validation failed for " ++ key))
                       key (get_prop key out))
                    (with_validation key (get_prop key out) r)
             else with_validation key (get_prop key out) r)
      end.
Proof.
  intros Hf. unfold validate_key. rewrite Hf.
  destruct (nullish (get_prop key out)); [reflexivity |].
  unfold bind, log_validation, modify, call.
  destruct (f (get_prop key out)) as [[|] | e]; simpl; try reflexivity.
  destruct (onError o); reflexivity.
Qed.

End Reads.

Section Validation.

Context {H : Host}.

(** C6.  For a key with a validator [f]: the decoding step calls no
    validator; the validation step then calls [f] once on the decoded or
    defaulted value [v] when [v] is present, and not at all otherwise.
    When [f] answers [false], [onError] (if configured) is called once with
    the message "Validation failed for <key>", the key and [v], and the
    key takes the configured default, on which [f] is not called.  Over a
    whole read of a declaration with distinct keys the validator of the key
    is therefore called exactly once when the value is present. *)
Theorem validator_runs_once_per_read :
  forall (config : QueryparamConfig) (o : UseQueryParamsOptions) (key : string)
         (f : val -> thrown bool),
    lookup key (validation o) = Some f ->
    (forall sp out r,
        exists out1 r1,
          decode_key config o sp key out r = Normal out1 r1
          /\ validated r1 = validated r
          /\ getParams_key config o sp key out r = validated_iteration o key f out1 r1)
    /\ (forall win r out' r',
          NoDup (typedKeys config) ->
          In key (typedKeys config) ->
          getParams config o win r = Normal out' r' ->
          exists out0 r0 out1 r1,
            decode_key config o (getSearchParams win) key out0 r0 = Normal out1 r1
            /\ let v := get_prop key out1 in
               calls_for key r' = calls_for key r ++ (if nullish v then [] else [(key, v)])
               /\ (nullish v = true -> get_prop key out' = v)
               /\ (nullish v = false ->
                   exists b, f v = Returns b
                             /\ get_prop key out'
                                = if b then v else prop key (defaultValues o))).
Proof.
  intros config o key f Hf.
  assert (Step : forall sp out r,
             exists out1 r1,
               decode_key config o sp key out r = Normal out1 r1
               /\ validated r1 = validated r
               /\ getParams_key config o sp key out r
                  = validated_iteration o key f out1 r1).
  { intros sp out r.
    destruct (total_decode_key config o sp key out r) as (out1 & r1 & E).
    exists out1, r1. split; [exact E |]. split.
    - pose proof (decode_key_calls_no_validator config o sp key out r) as K.
      rewrite E in K. exact K.
    - unfold getParams_key, bind. rewrite E.
      rewrite validate_key_cases with (f := f) by exact Hf. reflexivity. }
  split; [exact Step |].
  intros win r out' r' Hnd Hin E.
  destruct (split_at_key key Hnd Hin) as (pre & post & Hk & Hpre & Hpost).
  unfold getParams in E. rewrite Hk in E.
  apply bind_normal_inv in E. destruct E as (o0 & q0 & E0 & E).
  rewrite for_of_app in E.
  apply bind_normal_inv in E. destruct E as (o1 & q1 & E1 & E).
  simpl in E. apply bind_normal_inv in E. destruct E as (o2 & q2 & E2 & E3).
  destruct (Step (getSearchParams win) o1 q1) as (out1 & r1 & D & V & G).
  exists o1, q1, out1, r1. split; [exact D |].
  assert (C0 : calls_for key q0 = calls_for key r).
  { unfold new_object, bind, alloc, ret in E0. injection E0 as <- <-. reflexivity. }
  assert (C1 : calls_for key q1 = calls_for key q0).
  { pose proof (for_of_calls config o (getSearchParams win) key pre Hpre o0 q0) as K.
    rewrite E1 in K. exact K. }
  assert (C3 : calls_for key r' = calls_for key q2).
  { pose proof (for_of_calls config o (getSearchParams win) key post Hpost o2 q2) as K.
    rewrite E3 in K. exact K. }
  destruct (for_of_other config o (getSearchParams win) key post Hpost o2 q2 E3) as [P3 _].
  assert (Cr1 : calls_for key r1 = calls_for key q1).
  { unfold calls_for. rewrite V. reflexivity. }
  rewrite G in E2. unfold validated_iteration in E2. cbv zeta.
  destruct (nullish (get_prop key out1)) eqn:Hn.
  - injection E2 as <- <-. repeat split.
    + rewrite C3, Cr1, C1, C0, app_nil_r. reflexivity.
    + intros _. exact P3.
    + discriminate.
  - assert (Cv : forall q, calls_for key (with_validation key (get_prop key out1) q)
                          = calls_for key q ++ [(key, get_prop key out1)]).
    { intros q. unfold calls_for. simpl. rewrite filter_app. simpl.
      rewrite String.eqb_refl. reflexivity. }
    destruct (f (get_prop key out1)) as [[|] | e] eqn:Ef; [| | discriminate E2].
    + injection E2 as <- <-. repeat split.
      * rewrite C3, Cv, Cr1, C1, C0. reflexivity.
      * discriminate.
      * intros _. exists true. split; [reflexivity | exact P3].
    + injection E2 as <- <-. repeat split.
      * rewrite C3. destruct (onError o).
        -- change (calls_for key (with_error _ ?q)) with (calls_for key q).
           rewrite Cv, Cr1, C1, C0. reflexivity.
        -- rewrite Cv, Cr1, C1, C0. reflexivity.
      * discriminate.
      * intros _. exists false. split; [reflexivity |].
        rewrite P3. apply get_set_same.
Qed.

End Validation.

(* ================================================================== *)
(** * Identity of what a read returns *)
(* ================================================================== *)

Section Identity.

Context {H : Host}.

Lemma strict_eq_identity a b i j :
  identity a = Some i -> identity b = Some j -> i <> j -> strict_eq a b = false.
Proof.
  intros Ha Hb Hne.
  destruct a; try discriminate Ha; destruct b; try discriminate Hb; simpl in *;
    try reflexivity; injection Ha as ->; injection Hb as ->;
    apply Nat.eqb_neq; exact Hne.
Qed.

Lemma lookup_In_keys {A} key (d : dict A) a : lookup key d = Some a -> In key (typedKeys d).
Proof.
  induction d as [| [k x] r IH]; simpl; [discriminate |].
  destruct (String.eqb k key) eqn:E.
  - intros _. left. apply String.eqb_eq. exact E.
  - intros Hl. right. apply IH. exact Hl.
Qed.

(** The decoding step of such a key leaves a reference allocated by it. *)
Lemma decode_key_fresh config o sp key out r out1 r1 :
  fresh_on_read config o sp key = true ->
  decode_key config o sp key out r = Normal out1 r1 ->
  exists id, identity (get_prop key out1) = Some id
             /\ next_id r <= id < next_id r1.
Proof.
  unfold fresh_on_read, decode_key.
  destruct (lookup key config) as [[] |]; try discriminate.
  - (* date *)
    destruct (lookup key (customSerializers o)); [discriminate |].
    destruct (USP.get key sp) as [s |]; [| discriminate].
    destruct (Date_parse s) as [t |] eqn:Et; [| discriminate]. intros _.
    unfold parseSingle, try_catch, bind, new_Date, bind, alloc, ret. simpl.
    rewrite Et. intros E. inversion E; subst out1 r1; clear E.
    exists (next_id r). rewrite get_set_same. simpl. split; [reflexivity | lia].
  - (* string[] *)
    intros Hne. unfold bind, new_Array, bind, alloc, ret. rewrite Hne.
    intros E. inversion E; subst out1 r1; clear E.
    exists (next_id r). rewrite get_set_same. simpl. split; [reflexivity | lia].
  - (* object *)
    destruct (USP.get key sp) as [s |]; [| discriminate].
    destruct (decodeURIComponent s) as [d | e] eqn:Ed; [| discriminate].
    destruct (JSON_parse d) as [j | e] eqn:Ej; [| discriminate].
    intros Hj. unfold parseObject, try_catch, bind. rewrite Ed. simpl. rewrite Ej. simpl.
    destruct j; try discriminate Hj; simpl; unfold bind, alloc, ret;
      intros E; inversion E; subst out1 r1; clear E;
      exists (next_id r); rewrite get_set_same; simpl; (split; [reflexivity | lia]).
Qed.

(** A completed read of such a key returns, under the key, a reference
    allocated during the read, in a snapshot object allocated by the read. *)
Lemma read_fresh config o win key r out r' :
  NoDup (typedKeys config) ->
  fresh_on_read config o (getSearchParams win) key = true ->
  not_rejected config o (getSearchParams win) key ->
  getParams config o win r = Normal out r' ->
  sid out = next_id r
  /\ exists id, identity (get_prop key out) = Some id /\ next_id r < id < next_id r'.
Proof.
  intros Hnd Hfr Hacc E.
  assert (Hin : In key (typedKeys config)).
  { unfold fresh_on_read in Hfr.
    destruct (lookup key config) as [t |] eqn:El; [| discriminate].
    eapply lookup_In_keys. exact El. }
  destruct (split_at_key key Hnd Hin) as (pre & post & Hk & Hpre & Hpost).
  unfold getParams in E. rewrite Hk in E.
  apply bind_normal_inv in E. destruct E as (o0 & q0 & E0 & E).
  rewrite for_of_app in E.
  apply bind_normal_inv in E. destruct E as (o1 & q1 & E1 & E).
  simpl in E. apply bind_normal_inv in E. destruct E as (o2 & q2 & E2 & E3).
  unfold new_object, bind, alloc, ret in E0. injection E0 as <- <-.
  set (sp := getSearchParams win) in *.
  assert (G1 : ids_grow (allocated r) q1).
  { pose proof (for_of_ids config o sp pre {| sid := next_id r; props := [] |}
                  (allocated r)) as K.
    unfold allocated in K. rewrite E1 in K. exact K. }
  assert (G3 : ids_grow q2 r').
  { pose proof (for_of_ids config o sp post o2 q2) as K. rewrite E3 in K. exact K. }
  destruct (for_of_other config o sp key pre Hpre _ _ E1) as [_ S1].
  destruct (for_of_other config o sp key post Hpost _ _ E3) as [P3 S3].
  unfold getParams_key in E2.
  apply bind_normal_inv in E2. destruct E2 as (d1 & p1 & D & V).
  destruct (decode_key_fresh _ _ _ _ _ _ Hfr D) as (id & Hid & Hrange).
  assert (Gv : ids_grow p1 q2).
  { pose proof (validate_key_ids o key d1 p1) as K. rewrite V in K. exact K. }
  assert (Hnn : nullish (get_prop key d1) = false).
  { destruct (get_prop key d1); simpl in Hid; try discriminate; reflexivity. }
  assert (Ho2 : o2 = d1 /\ sid d1 = sid o1).
  { split.
    - unfold validate_key in V.
      destruct (lookup key (validation o)) as [f |] eqn:Ef.
      + rewrite Hnn in V. unfold bind, log_validation, modify, call in V.
        destruct (f (get_prop key d1)) as [[] | e] eqn:Efv; simpl in V.
        * inversion V. reflexivity.
        * exfalso. exact (Hacc f _ _ _ _ Ef D Efv).
        * discriminate V.
      + inversion V. reflexivity.
    - apply decode_key_assigns in D. destruct D as [x ->]. reflexivity. }
  destruct Ho2 as [-> Sd].
  unfold ids_grow in *. simpl in *.
  split; [congruence |].
  exists id. rewrite P3. split; [exact Hid | lia].
Qed.

Lemma find_put_same h i l : find_instance h (put_instance h i l) = Some i.
Proof.
  induction l as [| [k x] r IH]; simpl.
  - rewrite Nat.eqb_refl. reflexivity.
  - destruct (Nat.eqb k h) eqn:E; simpl; rewrite E; [reflexivity | exact IH].
Qed.

Lemma in_rt_normal_inv {A} (m : M runtime A) w a w' :
  in_rt m w = Normal a w' ->
  exists r', m (rt w) = Normal a r' /\ w' = set_rt r' w.
Proof.
  unfold in_rt, zoom. destruct (m (rt w)) as [x r' | e r']; intros E; inversion E.
  exists r'. split; reflexivity.
Qed.

(** C9 as amended.  Take a declaration with distinct keys and a key of
    tag date, object or string-list whose raw value the built-in codec
    decodes to a new object (a valid date, a JSON array or object, at least
    one list element), and whose decoded value no validator rejects.  Two
    completed reads of the same address, the second made after the first,
    are then judged different by [shallowEqual], and [setParams] replaces
    the held state by a new object.  So after a mount, a notification
    republishes the state of that instance although the address is
    unchanged. *)
Theorem fresh_objects_defeat_shallowEqual :
  forall (config : QueryparamConfig) (o : UseQueryParamsOptions)
         (win : option Location) (key : string),
    NoDup (typedKeys config) ->
    fresh_on_read config o (getSearchParams win) key = true ->
    not_rejected config o (getSearchParams win) key ->
    (forall r1 out1 r1' r2 out2 r2',
        getParams config o win r1 = Normal out1 r1' ->
        next_id r1' <= next_id r2 ->
        getParams config o win r2 = Normal out2 r2' ->
        shallowEqual out1 out2 = false
        /\ exists state r3, setParams out2 out1 r2' = Normal state r3
                            /\ sid state <> sid out1)
    /\ (forall w page h w1 w2,
          window w = Some page ->
          win = Some (location page) ->
          mount config o w = Normal h w1 ->
          handle h w1 = Normal tt w2 ->
          option_map updates (find_instance h (instances w2)) = Some 1
          /\ address w2 = address w).
Proof.
  intros config o win key Hnd Hfr Hacc.
  assert (Reads : forall r1 out1 r1' r2 out2 r2',
             getParams config o win r1 = Normal out1 r1' ->
             next_id r1' <= next_id r2 ->
             getParams config o win r2 = Normal out2 r2' ->
             shallowEqual out1 out2 = false
             /\ exists state r3, setParams out2 out1 r2' = Normal state r3
                                 /\ sid state <> sid out1).
  { intros r1 out1 r1' r2 out2 r2' G1 Hle G2.
    destruct (@read_fresh config o win key r1 out1 r1' Hnd Hfr Hacc G1) as (S1 & i1 & I1 & R1).
    destruct (@read_fresh config o win key r2 out2 r2' Hnd Hfr Hacc G2) as (S2 & i2 & I2 & R2).
    pose proof (getParams_ids config o win r2) as M2. rewrite G2 in M2.
    unfold ids_grow in M2. simpl in M2.
    assert (Hsid : Nat.eqb (sid out1) (sid out2) = false) by (apply Nat.eqb_neq; lia).
    assert (Hse : shallowEqual out1 out2 = false).
    { unfold shallowEqual. rewrite Hsid.
      destruct (negb _); [reflexivity |].
      destruct (forallb _ _) eqn:Hall; [| reflexivity].
      rewrite forallb_forall in Hall.
      assert (Hin : In key (typedKeys (props out1))).
      { unfold get_prop, prop in I1.
        destruct (lookup key (props out1)) as [x |] eqn:El; [| discriminate I1].
        eapply lookup_In_keys. exact El. }
      specialize (Hall key Hin).
      rewrite (strict_eq_identity _ _ I1 I2) in Hall; [discriminate | lia]. }
    split; [exact Hse |].
    unfold setParams. rewrite Hse. unfold bind, alloc, ret.
    eexists _, _. split; [reflexivity |]. simpl. lia. }
  split; [exact Reads |].
  intros w page h w1 w2 Hwin -> Hm Hh.
  pose proof (mount_same_address config o w) as Ha. rewrite Hm in Ha. simpl in Ha.
  destruct (mount_inv config o w Hwin Hm) as (out1 & r1' & G1 & -> & ->).
  unfold handle, bind, get_state in Hh. simpl in Hh. rewrite find_put_same in Hh.
  destruct (in_rt _ _) as [out2 wa | e wa] eqn:Ea in Hh; [| discriminate Hh].
  destruct (in_rt _ wa) as [st wb | e wb] eqn:Eb in Hh; [| discriminate Hh].
  apply in_rt_normal_inv in Ea. destruct Ea as (r2' & G2 & ->).
  apply in_rt_normal_inv in Eb. destruct Eb as (r3 & G3 & ->).
  simpl in G2, G3.
  assert (Hloc : location (if isHistoryPatched w then page else set_methods Wrapped Wrapped page)
                 = location page) by (destruct (isHistoryPatched w); reflexivity).
  rewrite Hloc in G2.
  destruct (Reads _ _ _ (allocated r1') _ _ G1 (Nat.le_succ_diag_r _) G2)
    as (_ & st' & r3' & G3' & Hsid).
  rewrite G3 in G3'. injection G3' as <- <-.
  unfold modify in Hh. inversion Hh; subst w2; clear Hh. simpl.
  rewrite find_put_same. simpl.
  apply Nat.eqb_neq in Hsid. rewrite Hsid. split; [reflexivity |].
  unfold same_address, address in *. simpl in *. exact Ha.
Qed.

End Identity.

(* ================================================================== *)
(** * The query string round trip *)
(* ================================================================== *)

Section FormFacts.

Lemma forallb_app f a b : Str.forallb f (a ++ b) = Str.forallb f a && Str.forallb f b.
Proof.
  induction a as [| x r IH]; simpl; [reflexivity |].
  rewrite IH. apply andb_assoc.
Qed.

Lemma lacks_app c a b : lacks c (a ++ b) = lacks c a && lacks c b.
Proof. apply forallb_app. Qed.

Lemma lacks_cons c x s : lacks c (String x s) = negb (Ascii.eqb x c) && lacks c s.
Proof. reflexivity. Qed.

Lemma map_app f a b : Str.map f (a ++ b) = (Str.map f a ++ Str.map f b)%string.
Proof. induction a as [| x r IH]; simpl; [reflexivity | rewrite IH; reflexivity]. Qed.

Lemma string_app_assoc (a b c : string) : ((a ++ b) ++ c = a ++ (b ++ c))%string.
Proof. induction a as [| x r IH]; simpl; [reflexivity | rewrite IH; reflexivity]. Qed.

Lemma cut_app c a b :
  lacks c a = true -> Str.cut c (a ++ String c b) = (a, Some b).
Proof.
  induction a as [| x r IH]; simpl.
  - intros _. rewrite Ascii.eqb_refl. reflexivity.
  - intros Hl. apply andb_prop in Hl. destruct Hl as [Hx Hr].
    apply negb_true_iff in Hx. rewrite Hx, (IH Hr). reflexivity.
Qed.

Lemma cut_lacks c a : lacks c a = true -> Str.cut c a = (a, None).
Proof.
  induction a as [| x r IH]; simpl; [reflexivity |].
  intros Hl. apply andb_prop in Hl. destruct Hl as [Hx Hr].
  apply negb_true_iff in Hx. rewrite Hx, (IH Hr). reflexivity.
Qed.

Lemma cut_app_lacks c a b :
  lacks c a = true ->
  Str.cut c (a ++ b) = let '(h, t) := Str.cut c b in ((a ++ h)%string, t).
Proof.
  induction a as [| x r IH]; simpl.
  - intros _. destruct (Str.cut c b). reflexivity.
  - intros Hl. apply andb_prop in Hl. destruct Hl as [Hx Hr].
    apply negb_true_iff in Hx. rewrite Hx, (IH Hr).
    destruct (Str.cut c b). reflexivity.
Qed.

Lemma split_lacks c a : lacks c a = true -> Str.split c a = [a].
Proof.
  induction a as [| x r IH]; simpl; [reflexivity |].
  intros Hl. apply andb_prop in Hl. destruct Hl as [Hx Hr].
  apply negb_true_iff in Hx. rewrite Hx, (IH Hr). reflexivity.
Qed.

Lemma split_app c a b :
  lacks c a = true -> Str.split c (a ++ String c b) = a :: Str.split c b.
Proof.
  induction a as [| x r IH]; simpl.
  - intros _. rewrite Ascii.eqb_refl. reflexivity.
  - intros Hl. apply andb_prop in Hl. destruct Hl as [Hx Hr].
    apply negb_true_iff in Hx. rewrite Hx, (IH Hr). reflexivity.
Qed.

Lemma encode_byte_chars a : Str.forallb encoded_char (Form.encode_byte a) = true.
Proof.
  destruct a as [[] [] [] [] [] [] [] []]; vm_compute; reflexivity.
Qed.

Lemma decode_encode_byte a rest :
  Form.percent_decode (Str.map Form.plus_to_space (Form.encode_byte a) ++ rest)
  = String a (Form.percent_decode rest).
Proof.
  destruct a as [[] [] [] [] [] [] [] []]; reflexivity.
Qed.

Lemma encode_chars s : Str.forallb encoded_char (Form.encode s) = true.
Proof.
  induction s as [| a r IH]; simpl; [reflexivity |].
  rewrite forallb_app, encode_byte_chars, IH. reflexivity.
Qed.

Lemma decode_encode s : Form.decode (Form.encode s) = s.
Proof.
  unfold Form.decode. induction s as [| a r IH]; simpl; [reflexivity |].
  rewrite map_app, decode_encode_byte, IH. reflexivity.
Qed.

Lemma forallb_impl (f g : ascii -> bool) s :
  (forall a, f a = true -> g a = true) ->
  Str.forallb f s = true -> Str.forallb g s = true.
Proof.
  intros Hfg. induction s as [| a r IH]; simpl; [reflexivity |].
  intros Hs. apply andb_prop in Hs. destruct Hs as [Ha Hr].
  rewrite (Hfg a Ha), (IH Hr). reflexivity.
Qed.

Lemma encoded_char_lacks c :
  encoded_char c = false -> forall s, Str.forallb encoded_char s = true -> lacks c s = true.
Proof.
  intros Hc s. apply forallb_impl. intros a Ha.
  apply negb_true_iff. destruct (Ascii.eqb a c) eqn:E; [| reflexivity].
  apply Ascii.eqb_eq in E. subst a. congruence.
Qed.

Lemma encode_lacks c s : encoded_char c = false -> lacks c (Form.encode s) = true.
Proof. intros Hc. apply (encoded_char_lacks c Hc). apply encode_chars. Qed.

Lemma decode_encode_pair kv : Form.decode_pair (Form.encode_pair kv) = kv.
Proof.
  destruct kv as [k x]. unfold Form.decode_pair, Form.encode_pair. simpl.
  rewrite cut_app by (apply encode_lacks; reflexivity).
  rewrite !decode_encode. reflexivity.
Qed.

Lemma encode_pair_lacks c kv :
  encoded_char c = false -> Ascii.eqb "=" c = false ->
  lacks c (Form.encode_pair kv) = true.
Proof.
  intros Hc He. unfold Form.encode_pair.
  change ("=" ++ Form.encode (snd kv))%string with (String "=" (Form.encode (snd kv))).
  rewrite lacks_app, lacks_cons, He, !encode_lacks by exact Hc. reflexivity.
Qed.

Lemma encode_pair_nonempty kv : Str.is_empty (Form.encode_pair kv) = false.
Proof.
  unfold Form.encode_pair. destruct (Form.encode (fst kv)); reflexivity.
Qed.

Lemma split_join l :
  l <> [] ->
  Str.split "&" (Str.join "&" (List.map Form.encode_pair l)) = List.map Form.encode_pair l.
Proof.
  induction l as [| kv r IH]; [congruence |]. intros _.
  destruct r as [| kv' r'].
  - simpl. apply split_lacks. apply encode_pair_lacks; reflexivity.
  - change (Str.join "&" (List.map Form.encode_pair (kv :: kv' :: r')))
      with (Form.encode_pair kv ++ String "&" (Str.join "&" (List.map Form.encode_pair (kv' :: r'))))%string.
    rewrite split_app by (apply encode_pair_lacks; reflexivity).
    rewrite IH by discriminate. reflexivity.
Qed.

(** Parsing what the serializer wrote gives the pairs back. *)
Lemma parse_serialize l : Form.parse (Form.serialize l) = l.
Proof.
  unfold Form.parse, Form.serialize. destruct l as [| kv r]; [reflexivity |].
  rewrite split_join by discriminate.
  assert (Hf : forall m, List.filter (fun p => negb (Str.is_empty p)) (List.map Form.encode_pair m)
                         = List.map Form.encode_pair m).
  { induction m as [| x m IH]; simpl; [reflexivity |].
    rewrite encode_pair_nonempty. simpl. rewrite IH. reflexivity. }
  rewrite Hf, List.map_map. clear Hf.
  induction (kv :: r) as [| x m IH]; simpl; [reflexivity |].
  rewrite decode_encode_pair, IH. reflexivity.
Qed.

Lemma serialize_lacks c l :
  encoded_char c = false -> Ascii.eqb "=" c = false -> Ascii.eqb "&" c = false ->
  lacks c (Form.serialize l) = true.
Proof.
  intros Hc He Ha. unfold Form.serialize.
  induction l as [| kv r IH]; [reflexivity |].
  destruct r as [| kv' r'].
  - simpl. apply encode_pair_lacks; assumption.
  - change (Str.join "&" (List.map Form.encode_pair (kv :: kv' :: r')))
      with (Form.encode_pair kv ++ String "&" (Str.join "&" (List.map Form.encode_pair (kv' :: r'))))%string.
    rewrite lacks_app, lacks_cons, Ha, encode_pair_lacks by assumption. exact IH.
Qed.

Lemma serialize_empty l : Str.is_empty (Form.serialize l) = true -> l = [].
Proof.
  destruct l as [| kv r]; [reflexivity |]. unfold Form.serialize.
  destruct r as [| kv' r']; simpl.
  - rewrite encode_pair_nonempty. discriminate.
  - pose proof (encode_pair_nonempty kv) as Hn.
    destruct (Form.encode_pair kv); [discriminate Hn | discriminate].
Qed.

(** Reading back the query a commit wrote: [location.search] is the
    serialized text behind a [?], or empty when there is no pair. *)
Lemma of_string_written l :
  USP.of_string (if Str.is_empty (USP.toString l) then EmptyString
                 else String "?" (USP.toString l)) = l.
Proof.
  unfold USP.toString. destruct (Str.is_empty (Form.serialize l)) eqn:E.
  - apply serialize_empty in E. subst l. reflexivity.
  - simpl. apply parse_serialize.
Qed.

End FormFacts.

(* ================================================================== *)
(** * Patches as operations on the query *)
(* ================================================================== *)

Section PatchOps.

Lemma entries_of_delete_same key sp : entries_of key (USP.delete key sp) = [].
Proof.
  unfold entries_of, USP.delete. induction sp as [| [k x] r IH]; simpl; [reflexivity |].
  destruct (String.eqb k key) eqn:E; simpl; [exact IH |]. rewrite E. exact IH.
Qed.

Lemma entries_of_delete_other key key' sp :
  key' <> key -> entries_of key (USP.delete key' sp) = entries_of key sp.
Proof.
  intros Hne. unfold entries_of, USP.delete.
  induction sp as [| [k x] r IH]; simpl; [reflexivity |].
  destruct (String.eqb k key') eqn:E; simpl.
  - apply String.eqb_eq in E. subst k.
    destruct (String.eqb key' key) eqn:E'; [| exact IH].
    apply String.eqb_eq in E'. contradiction.
  - destruct (String.eqb k key); [rewrite IH |]; [reflexivity | exact IH].
Qed.

Lemma entries_of_set_same key text sp : entries_of key (USP.set key text sp) = [(key, text)].
Proof.
  induction sp as [| [k x] r IH]; simpl.
  - unfold entries_of. simpl. rewrite String.eqb_refl. reflexivity.
  - destruct (String.eqb k key) eqn:E.
    + unfold entries_of. simpl. rewrite E.
      fold (entries_of key (USP.delete key r)). rewrite entries_of_delete_same.
      apply String.eqb_eq in E. subst k. reflexivity.
    + unfold entries_of. simpl. rewrite E. exact IH.
Qed.

Lemma entries_of_set_other key key' text sp :
  key' <> key -> entries_of key (USP.set key' text sp) = entries_of key sp.
Proof.
  intros Hne. assert (Hk : String.eqb key' key = false) by (apply String.eqb_neq; exact Hne).
  induction sp as [| [k x] r IH]; simpl.
  - unfold entries_of. simpl. rewrite Hk. reflexivity.
  - destruct (String.eqb k key') eqn:E.
    + apply String.eqb_eq in E. subst k. unfold entries_of. simpl. rewrite Hk.
      apply entries_of_delete_other. exact Hne.
    + unfold entries_of in *. simpl. destruct (String.eqb k key); [rewrite IH |];
        [reflexivity | exact IH].
Qed.

Lemma delete_absent key sp : entries_of key sp = [] -> USP.delete key sp = sp.
Proof.
  unfold entries_of, USP.delete. induction sp as [| [k x] r IH]; simpl; [reflexivity |].
  destruct (String.eqb k key); simpl; [discriminate |].
  intros Hr. rewrite IH by exact Hr. reflexivity.
Qed.

Lemma set_settled key text sp :
  entries_of key sp = [(key, text)] -> USP.set key text sp = sp.
Proof.
  induction sp as [| [k x] r IH]; simpl.
  - unfold entries_of. simpl. discriminate.
  - unfold entries_of. simpl. destruct (String.eqb k key) eqn:E.
    + intros Hs. injection Hs as _ Hx Hr. subst x.
      fold (entries_of key r) in Hr. rewrite delete_absent by exact Hr. reflexivity.
    + intros Hs. fold (entries_of key r) in Hs. rewrite IH by exact Hs. reflexivity.
Qed.

Lemma apply_op_settles op sp : settled op (apply_op op sp).
Proof.
  destruct op as [key [text |]]; unfold settled, apply_op; simpl.
  - apply entries_of_set_same.
  - apply entries_of_delete_same.
Qed.

Lemma apply_op_other key op sp :
  fst op <> key -> entries_of key (apply_op op sp) = entries_of key sp.
Proof.
  destruct op as [key' [text |]]; unfold apply_op; simpl; intros Hne.
  - apply entries_of_set_other. exact Hne.
  - apply entries_of_delete_other. exact Hne.
Qed.

Lemma apply_op_settled op sp : settled op sp -> apply_op op sp = sp.
Proof.
  destruct op as [key [text |]]; unfold settled, apply_op; simpl.
  - apply set_settled.
  - apply delete_absent.
Qed.

Lemma apply_ops_other key ops :
  ~ In key (List.map fst ops) ->
  forall sp, entries_of key (apply_ops ops sp) = entries_of key sp.
Proof.
  induction ops as [| op rest IH]; intros Hnot sp; simpl; [reflexivity |].
  rewrite IH by (intros Hin; apply Hnot; right; exact Hin).
  apply apply_op_other. intros He. apply Hnot. left. exact He.
Qed.

(** After a patch with distinct keys every one of its operations is settled. *)
Lemma apply_ops_settles ops :
  NoDup (List.map fst ops) ->
  forall sp op, In op ops -> settled op (apply_ops ops sp).
Proof.
  induction ops as [| o1 rest IH]; intros Hnd sp op Hin; [contradiction |].
  simpl in Hnd. inversion Hnd as [| k ks Hnot Hrest]; subst.
  simpl. destruct Hin as [-> | Hin].
  - unfold settled. rewrite apply_ops_other by exact Hnot. apply apply_op_settles.
  - apply IH; assumption.
Qed.

Lemma apply_ops_fixed ops sp :
  (forall op, In op ops -> settled op sp) -> apply_ops ops sp = sp.
Proof.
  induction ops as [| o1 rest IH]; intros Hs; simpl; [reflexivity |].
  rewrite apply_op_settled by (apply Hs; left; reflexivity).
  apply IH. intros op Hin. apply Hs. right. exact Hin.
Qed.

(** Applying a patch with distinct keys a second time changes nothing. *)
Lemma apply_ops_idempotent ops sp :
  NoDup (List.map fst ops) -> apply_ops ops (apply_ops ops sp) = apply_ops ops sp.
Proof.
  intros Hnd. apply apply_ops_fixed. intros op Hin. apply apply_ops_settles; assumption.
Qed.

(** ** Sorting keeps the pairs of each name *)

Lemma insert_sorted_perm {A} (cmp : A -> A -> comparison) x l :
  Permutation (insert_sorted cmp x l) (x :: l).
Proof.
  induction l as [| y r IH]; simpl; [apply Permutation_refl |].
  destruct (cmp x y); try apply Permutation_refl;
    (eapply Permutation_trans; [apply perm_skip; exact IH | apply perm_swap]).
Qed.

Lemma array_sort_perm {A} (cmp : A -> A -> comparison) l :
  Permutation (array_sort cmp l) l.
Proof.
  unfold array_sort. induction l as [| x r IH]; simpl; [apply Permutation_refl |].
  eapply Permutation_trans; [apply insert_sorted_perm | apply perm_skip; exact IH].
Qed.

Lemma filter_perm {A} (f : A -> bool) l l' :
  Permutation l l' -> Permutation (List.filter f l) (List.filter f l').
Proof.
  induction 1 as [| x l l' Hp IH | x y l | l l' l'' H1 IH1 H2 IH2]; simpl.
  - apply Permutation_refl.
  - destruct (f x); [apply perm_skip |]; exact IH.
  - destruct (f x), (f y); try apply Permutation_refl. apply perm_swap.
  - eapply Permutation_trans; eassumption.
Qed.

Lemma settled_perm op sp sp' : Permutation sp sp' -> settled op sp -> settled op sp'.
Proof.
  unfold settled, entries_of. intros Hp Hs.
  apply (filter_perm (fun kv => String.eqb (fst kv) (fst op))) in Hp. rewrite Hs in Hp.
  destruct (snd op) as [text |].
  - apply Permutation_length_1_inv in Hp. exact Hp.
  - apply Permutation_nil in Hp. exact Hp.
Qed.

(** ** Sorting by name is stable, and determined by the pairs of each name *)

Section SortFacts.

Variable cmp : string -> string -> comparison.

Hypothesis Hcmp : orders_names cmp.

Lemma entries_of_cons key x l :
  entries_of key (x :: l)
  = (if String.eqb (fst x) key then [x] else []) ++ entries_of key l.
Proof. unfold entries_of. simpl. destruct (String.eqb (fst x) key); reflexivity. Qed.

Lemma insert_entries key x l :
  entries_of key (insert_sorted (by_name cmp) x l) = entries_of key (x :: l).
Proof.
  destruct Hcmp as (Htotal & _).
  induction l as [| y r IH]; [reflexivity |].
  simpl insert_sorted. unfold by_name at 1.
  destruct (cmp (fst x) (fst y)) eqn:E; try reflexivity.
  rewrite (entries_of_cons key y), IH, !entries_of_cons.
  destruct (String.eqb (fst y) key) eqn:Ey, (String.eqb (fst x) key) eqn:Ex; try reflexivity.
  apply String.eqb_eq in Ey, Ex. exfalso. apply (Htotal _ _ E). congruence.
Qed.

Lemma sort_entries key l : entries_of key (array_sort (by_name cmp) l) = entries_of key l.
Proof.
  induction l as [| x r IH]; [reflexivity |].
  unfold array_sort in *. cbn [fold_right]. rewrite insert_entries, !entries_of_cons, IH.
  reflexivity.
Qed.

Lemma name_le_refl x : name_le cmp x x.
Proof.
  destruct Hcmp as (Htotal & _). unfold name_le. intros E. exact (Htotal _ _ E E).
Qed.

Lemma insert_sorted_sorted x l :
  StronglySorted (name_le cmp) l ->
  StronglySorted (name_le cmp) (insert_sorted (by_name cmp) x l).
Proof.
  destruct Hcmp as (Htotal & Htrans & _).
  induction 1 as [| y r Hr IH Hy]; simpl.
  - constructor; constructor.
  - unfold by_name at 1.
    assert (Hle : cmp (fst x) (fst y) <> Gt ->
                  StronglySorted (name_le cmp) (x :: y :: r)).
    { intros E. constructor; [constructor; assumption |].
      constructor; [exact E |].
      rewrite Forall_forall in *. intros z Hz. unfold name_le in *.
      apply Htrans with (b := fst y); [exact E | apply Hy; exact Hz]. }
    destruct (cmp (fst x) (fst y)) eqn:E; try (apply Hle; discriminate).
    constructor; [exact IH |].
    eapply Permutation_Forall.
    + apply Permutation_sym. apply insert_sorted_perm.
    + constructor; [apply Htotal; exact E | exact Hy].
Qed.

Lemma sort_sorted l : StronglySorted (name_le cmp) (array_sort (by_name cmp) l).
Proof.
  induction l as [| x r IH]; [constructor |].
  unfold array_sort in *. simpl. apply insert_sorted_sorted. exact IH.
Qed.

Lemma entries_of_In key (x : string * string) l :
  In x l -> fst x = key -> In x (entries_of key l).
Proof.
  intros Hin Hk. unfold entries_of. apply filter_In. split; [exact Hin |].
  apply String.eqb_eq. exact Hk.
Qed.

Lemma In_entries_of key (x : string * string) l : In x (entries_of key l) -> In x l.
Proof. unfold entries_of. intros Hin. apply filter_In in Hin. tauto. Qed.

(** Two sorted queries with the same pairs under every name are equal. *)
Lemma sorted_unique l :
  forall l',
    StronglySorted (name_le cmp) l -> StronglySorted (name_le cmp) l' ->
    (forall key, entries_of key l = entries_of key l') -> l = l'.
Proof.
  destruct Hcmp as (Htotal & Htrans & Hanti).
  induction l as [| x r IH]; intros l' Hs Hs' He.
  - destruct l' as [| y r']; [reflexivity |].
    specialize (He (fst y)). rewrite entries_of_cons, String.eqb_refl in He.
    discriminate He.
  - destruct l' as [| y r'].
    + specialize (He (fst x)). rewrite entries_of_cons, String.eqb_refl in He.
      discriminate He.
    + inversion Hs as [| ? ? Hsr Hx]; subst. inversion Hs' as [| ? ? Hsr' Hy]; subst.
      assert (Hxy : fst x = fst y).
      { apply Hanti.
        - assert (Hin : In y (x :: r)).
          { apply In_entries_of with (key := fst y). rewrite He.
            apply entries_of_In; [left |]; reflexivity. }
          destruct Hin as [-> | Hin]; [apply name_le_refl |].
          rewrite Forall_forall in Hx. apply (Hx y Hin).
        - assert (Hin : In x (y :: r')).
          { apply In_entries_of with (key := fst x). rewrite <- He.
            apply entries_of_In; [left |]; reflexivity. }
          destruct Hin as [-> | Hin]; [apply name_le_refl |].
          rewrite Forall_forall in Hy. apply (Hy x Hin). }
      assert (Hhead : x = y /\ forall key, entries_of key r = entries_of key r').
      { pose proof (He (fst x)) as H0. rewrite !entries_of_cons in H0.
        rewrite <- Hxy, String.eqb_refl in H0. injection H0 as Hh Ht.
        split; [exact Hh |]. intros key.
        destruct (String.eqb (fst x) key) eqn:Ek.
        - apply String.eqb_eq in Ek. subst key. exact Ht.
        - specialize (He key). rewrite !entries_of_cons in He.
          rewrite <- Hxy, Ek in He. exact He. }
      destruct Hhead as [-> Ht]. f_equal. apply IH; assumption.
Qed.

(** A stable sort by name is determined by the pairs under each name. *)
Lemma sort_determined l l' :
  (forall key, entries_of key l = entries_of key l') ->
  array_sort (by_name cmp) l = array_sort (by_name cmp) l'.
Proof.
  intros He. apply sorted_unique; try apply sort_sorted.
  intros key. rewrite !sort_entries. apply He.
Qed.

End SortFacts.

Lemma entries_of_app key l l' :
  entries_of key (l ++ l') = entries_of key l ++ entries_of key l'.
Proof. unfold entries_of. apply filter_app. Qed.

Lemma append_all key items sp :
  fold_left (fun sp value => USP.append key value sp) items sp
  = sp ++ List.map (pair key) items.
Proof.
  revert sp. induction items as [| x r IH]; intros sp; simpl.
  - rewrite app_nil_r. reflexivity.
  - rewrite IH. unfold USP.append. rewrite <- app_assoc. reflexivity.
Qed.

Lemma entries_of_named key key' items :
  entries_of key (List.map (pair key') items)
  = if String.eqb key' key then List.map (pair key') items else [].
Proof.
  induction items as [| x r IH]; cbn [List.map].
  - destruct (String.eqb key' key); reflexivity.
  - rewrite entries_of_cons, IH. simpl. destruct (String.eqb key' key); reflexivity.
Qed.

(** Applied to a query that has the pairs of a patched one under every
    name, the patch keeps the pairs under every name. *)
Lemma patched_entries_fixed keys (step : URLSearchParams -> URLSearchParams) target :
  (forall key sp, In key keys -> entries_of key (step sp) = target key) ->
  (forall key sp, ~ In key keys -> entries_of key (step sp) = entries_of key sp) ->
  forall sp sp1,
    (forall key, entries_of key sp1 = entries_of key (step sp)) ->
    forall key, entries_of key (step sp1) = entries_of key sp1.
Proof.
  intros Hin Hout sp sp1 He key.
  destruct (in_dec string_dec key keys) as [Hk | Hk].
  - rewrite He, !Hin by exact Hk. reflexivity.
  - apply Hout. exact Hk.
Qed.

End PatchOps.

(* ================================================================== *)
(** * Patching the address *)
(* ================================================================== *)

Section Patching.

Context {H : Host}.

Lemma serializeSingle_blind v type custom b k :
  exists res, forall r, exists r', serializeSingle v type custom b k r = Normal res r'.
Proof.
  unfold serializeSingle, try_catch, bind, call, report.
  destruct custom as [c |].
  - destruct (c v) as [s | e].
    + exists s. intros r. eexists. reflexivity.
    + exists None. intros r.
      destruct k as [k |]; [destruct (b && negb (Str.is_empty k)) |];
        eexists; reflexivity.
  - destruct type as [[] |]; try (eexists; intros r; eexists; reflexivity).
    destruct v; try (eexists; intros r; eexists; reflexivity).
    destruct t; [eexists; intros r; eexists; reflexivity |].
    exists None. intros r.
    destruct k as [k |]; [destruct (b && negb (Str.is_empty k)) |];
      eexists; reflexivity.
Qed.

Lemma serializeObject_blind v :
  exists res, forall r, serializeObject v r = Normal res r.
Proof.
  unfold serializeObject, try_catch, bind, call.
  destruct (JSON_stringify v) as [text | e]; [| exists None; reflexivity].
  unfold ret. cbv beta iota.
  destruct (encodeURIComponent (match text with Some t => t | None => "undefined" end))
    as [s | e]; eexists; reflexivity.
Qed.

(** For a key that is not a string list the patch sets the key to a text
    or deletes it, and which of the two does not depend on the query. *)
Lemma syncParams_key_op config o patch key :
  lookup key config <> Some TStringArray ->
  exists text, forall sp r,
    exists r', syncParams_key config o patch key sp r
               = Normal (apply_op (key, text) sp) r'.
Proof.
  intros Hne. unfold syncParams_key.
  destruct (serializeSingle_blind (prop key patch) (lookup key config)
              (option_map serialize (lookup key (customSerializers o)))
              (onError o) (Some key)) as (res & Hres).
  destruct (serializeObject_blind (prop key patch)) as (reso & Hreso).
  destruct (lookup key config) as [[] |] eqn:Et; try congruence;
    try (exists res; intros sp r; destruct (Hres r) as (r' & E);
         unfold bind; rewrite E; destruct res; eexists; reflexivity).
  exists reso. intros sp r. unfold bind. rewrite Hreso.
  destruct reso; eexists; reflexivity.
Qed.

Lemma for_of_ops config o patch keys :
  (forall key, In key keys -> lookup key config <> Some TStringArray) ->
  exists ops,
    List.map fst ops = keys
    /\ forall sp r, exists r',
         for_of keys (syncParams_key config o patch) sp r = Normal (apply_ops ops sp) r'.
Proof.
  induction keys as [| key rest IH]; intros Hk.
  - exists []. split; [reflexivity |]. intros sp r. exists r. reflexivity.
  - destruct (syncParams_key_op config o patch key (Hk key (or_introl eq_refl)))
      as (text & Hop).
    destruct IH as (ops & Hkeys & Hops).
    { intros k Hin. apply Hk. right. exact Hin. }
    exists ((key, text) :: ops). split; [simpl; rewrite Hkeys; reflexivity |].
    intros sp r. simpl. unfold bind.
    destruct (Hop sp r) as (r1 & E1). rewrite E1.
    apply Hops.
Qed.

Lemma patched_query_ops config o patch :
  plain_patch config patch = true ->
  exists ops,
    List.map fst ops = typedKeys patch
    /\ forall sp r, exists r',
         patched_query config o patch sp r = Normal (apply_ops ops sp) r'.
Proof.
  intros Hp. unfold patched_query. apply for_of_ops.
  intros key Hin. unfold plain_patch in Hp. rewrite forallb_forall in Hp.
  specialize (Hp key Hin). intros E. rewrite E in Hp. discriminate.
Qed.

(** One key of a patch rewrites the query by a function of the query
    alone: the pairs under the key become a list fixed by the patch, and
    the pairs under every other name stay. *)
Lemma syncParams_key_step config o patch key :
  exists step target,
    (forall sp r, exists r', syncParams_key config o patch key sp r = Normal (step sp) r')
    /\ (forall sp, entries_of key (step sp) = target)
    /\ (forall k sp, k <> key -> entries_of k (step sp) = entries_of k sp).
Proof.
  destruct (lookup key config) as [type |] eqn:Et.
  destruct type eqn:Ety.
  5: { (* a string list *)
    unfold syncParams_key. rewrite Et.
    destruct (isStringArray (prop key patch)
              && negb (Nat.eqb (List.length (string_items (prop key patch))) 0)).
    - exists (fun sp => USP.delete key sp ++ List.map (pair key) (string_items (prop key patch))),
        (List.map (pair key) (string_items (prop key patch))).
      split; [| split].
      + intros sp r. exists r. rewrite append_all. reflexivity.
      + intros sp. rewrite entries_of_app, entries_of_delete_same, entries_of_named,
          String.eqb_refl. reflexivity.
      + intros k sp Hne. rewrite entries_of_app, entries_of_named.
        assert (E : String.eqb key k = false) by (apply String.eqb_neq; congruence).
        rewrite E, app_nil_r. apply entries_of_delete_other. congruence.
    - exists (USP.delete key), []. split; [| split].
      + intros sp r. exists r. reflexivity.
      + apply entries_of_delete_same.
      + intros k sp Hne. apply entries_of_delete_other. congruence. }
  all: destruct (syncParams_key_op config o patch key) as (text & Hop);
    [rewrite Et; discriminate |];
    exists (apply_op (key, text)),
      (match text with Some t => [(key, t)] | None => [] end);
    (split; [exact Hop | split];
     [ intros sp; apply (apply_op_settles (key, text))
     | intros k sp Hne; apply apply_op_other; simpl; congruence ]).
Qed.

(** A patch with distinct keys rewrites the query by a function of the
    query alone, which fixes the pairs under its keys and keeps the others. *)
Lemma patched_query_step config o patch :
  NoDup (typedKeys patch) ->
  exists step target,
    (forall sp r, exists r', patched_query config o patch sp r = Normal (step sp) r')
    /\ (forall key sp, In key (typedKeys patch) -> entries_of key (step sp) = target key)
    /\ (forall key sp, ~ In key (typedKeys patch) ->
                       entries_of key (step sp) = entries_of key sp).
Proof.
  unfold patched_query. induction (typedKeys patch) as [| key rest IH]; intros Hnd.
  - exists (fun sp => sp), (fun _ => []). split; [| split].
    + intros sp r. exists r. reflexivity.
    + intros key sp [].
    + reflexivity.
  - inversion Hnd as [| ? ? Hnot Hrest]; subst.
    destruct (IH Hrest) as (step & target & Hrun & Hin & Hout).
    destruct (syncParams_key_step config o patch key) as (step1 & target1 & Hrun1 & Hin1 & Hout1).
    exists (fun sp => step (step1 sp)),
      (fun k => if String.eqb k key then target1 else target k).
    split; [| split].
    + intros sp r. simpl. unfold bind. destruct (Hrun1 sp r) as (r1 & E1). rewrite E1.
      apply Hrun.
    + intros k sp [<- | Hk].
      * rewrite String.eqb_refl, Hout by exact Hnot. apply Hin1.
      * assert (E : String.eqb k key = false).
        { apply String.eqb_neq. intros ->. contradiction. }
        rewrite E. apply Hin. exact Hk.
    + intros k sp Hk. rewrite Hout by (intros Hin'; apply Hk; right; exact Hin').
      apply Hout1. intros ->. apply Hk. left. reflexivity.
Qed.

(** ** What a commit does to the location *)

Lemma string_app_nil (s : string) : (s ++ EmptyString)%string = s.
Proof. induction s as [| a r IH]; simpl; [reflexivity | rewrite IH; reflexivity]. Qed.

Lemma resolve_written l q :
  well_formed l = true ->
  lacks "#" q = true ->
  resolve l (pathname l ++ query_part q ++ hash l)
  = {| pathname := pathname l; search := query_part q; hash := hash l |}.
Proof.
  unfold well_formed. intros Hwf Hq.
  apply andb_prop in Hwf. destruct Hwf as [Hwf Hh].
  apply andb_prop in Hwf. destruct Hwf as [Hwf Hp2].
  apply andb_prop in Hwf. destruct Hwf as [Hp0 Hp1].
  apply negb_true_iff in Hp0.
  assert (Hpq : lacks "#" (pathname l ++ query_part q) = true).
  { rewrite lacks_app, Hp2. unfold query_part.
    destruct (Str.is_empty q); [reflexivity |]. rewrite lacks_cons, Hq. reflexivity. }
  assert (Hcut : Str.cut "?" (pathname l ++ query_part q)
                 = (pathname l, if Str.is_empty q then None else Some q)).
  { unfold query_part. destruct (Str.is_empty q).
    - rewrite string_app_nil. apply cut_lacks. exact Hp1.
    - apply cut_app. exact Hp1. }
  unfold resolve. rewrite <- string_app_assoc.
  destruct (hash l) as [| a f] eqn:Eh.
  - rewrite string_app_nil, (cut_lacks _ _ Hpq), Hcut, Hp0.
    unfold query_part. destruct (Str.is_empty q) eqn:Eq; [reflexivity |].
    rewrite Eq. reflexivity.
  - apply andb_prop in Hh. destruct Hh as [Ha Hf].
    apply Ascii.eqb_eq in Ha. subst a. apply negb_true_iff in Hf.
    rewrite (cut_app _ _ f Hpq), Hcut, Hp0, Hf.
    unfold query_part. destruct (Str.is_empty q) eqn:Eq; [reflexivity |].
    rewrite Eq. reflexivity.
Qed.

(** ** Subscribers leave the window alone *)

#[local] Instance window_kept_preorder : PreOrder window_kept.
Proof.
  split.
  - intros w. reflexivity.
  - intros a b c. unfold window_kept. congruence.
Qed.

Lemma in_rt_window {A} (m : M runtime A) : preserves window_kept (in_rt m).
Proof. apply in_rt_preserves. intros w r. unfold window_kept. reflexivity. Qed.

Lemma handle_window h : preserves window_kept (handle h).
Proof.
  unfold handle.
  repeat first
    [ preserves_step | apply in_rt_window
    | solve [ apply preserves_modify; try exact _; intro; unfold window_kept; reflexivity ] ].
Qed.

Lemma notify_window : preserves window_kept notify.
Proof.
  unfold notify, invoke.
  repeat first
    [ preserves_step | apply handle_window
    | solve [ apply preserves_modify; try exact _; intro; unfold window_kept; reflexivity ] ].
Qed.

(** A commit on a wired page reaches the browser, whatever the subscribers
    then do. *)
Lemma applyUrl_window w win mode url :
  window w = Some win ->
  wired w = true ->
  window (state_of (applyUrl url mode w))
  = Some {| location := resolve (location win) url;
            pushState := pushState win; replaceState := replaceState win;
            popstate := popstate win;
            navigations := navigations win ++ [(mode, url)] |}.
Proof.
  intros Hwin Hw.
  set (w0 := set_window
               (Some {| location := resolve (location win) url;
                        pushState := pushState win; replaceState := replaceState win;
                        popstate := popstate win;
                        navigations := navigations win ++ [(mode, url)] |}) w).
  assert (Hn : native_history mode url w = Normal tt w0).
  { unfold native_history, modify. rewrite Hwin. reflexivity. }
  assert (Hc : window (state_of (history_call mode url w)) = window w0).
  { unfold wired in Hw. rewrite Hwin in Hw. apply andb_prop in Hw. destruct Hw as [Hp Hr].
    unfold history_call, bind, get_state. rewrite Hwin.
    destruct mode.
    - destruct (pushState win); [rewrite Hn; reflexivity |].
      destruct (originalPushState w) as [[] |]; try discriminate Hp.
      rewrite Hn. apply (notify_window w0).
    - destruct (replaceState win); [rewrite Hn; reflexivity |].
      destruct (originalReplaceState w) as [[] |]; try discriminate Hr.
      rewrite Hn. apply (notify_window w0). }
  unfold applyUrl, bind, get_state. rewrite Hwin.
  destruct (history_call mode url w) as [[] w1 | e w1]; simpl in *.
  - rewrite <- Hc. apply (notify_window w1).
  - exact Hc.
Qed.

Lemma query_string_of_written o sp : query_string o sp = USP.toString (written o sp).
Proof.
  unfold query_string, written, toSortedQueryString, USP.entries.
  destruct (sortKeys o); reflexivity.
Qed.

(** A patch whose query equals the current one makes no commit: nothing
    but the runtime of the codec changes. *)
Lemma syncParams_noop config o patch mode w win sp' r' :
  window w = Some win ->
  patched_query config o patch (getSearchParams (Some (location win))) (rt w)
  = Normal sp' r' ->
  query_string o sp' = query_string o (getSearchParams (Some (location win))) ->
  syncParams config o patch mode w = Normal tt (set_rt r' w).
Proof.
  intros Hwin Hp Hq. unfold syncParams, bind, get_state. rewrite Hwin.
  unfold in_rt, zoom. rewrite Hp. cbv beta iota zeta.
  rewrite Hq, String.eqb_refl. reflexivity.
Qed.

(** Two applications of a patch whose effect on the query is a function
    [step] of the query alone: when [step] leaves the query string of a
    written query as it is, the second application makes no commit. *)
Lemma syncParams_twice config o patch mode w win step :
  window w = Some win ->
  well_formed (location win) = true ->
  wired w = true ->
  (forall sp r, exists r', patched_query config o patch sp r = Normal (step sp) r') ->
  (forall sp, query_string o (step (written o (step sp)))
              = query_string o (written o (step sp))) ->
  let w1 := state_of (syncParams config o patch mode w) in
  let w2 := state_of (syncParams config o patch mode w1) in
  address w2 = address w1.
Proof.
  intros Hwin Hwf Hw Hops Hstable w1 w2.
  set (sp := getSearchParams (Some (location win))) in *.
  destruct (Hops sp (rt w)) as (r1 & Hp1).
  destruct (String.eqb (query_string o (step sp)) (query_string o sp)) eqn:Eq.
  - (* the first application makes no commit *)
    apply String.eqb_eq in Eq.
    assert (E1 : syncParams config o patch mode w = Normal tt (set_rt r1 w)).
    { eapply syncParams_noop; eassumption. }
    subst w2. subst w1. rewrite E1. simpl.
    destruct (Hops sp (rt (set_rt r1 w))) as (r2 & Hp2).
    rewrite (syncParams_noop config o patch mode (set_rt r1 w) Hwin Hp2 Eq).
    reflexivity.
  - (* the first application commits *)
    pose proof (query_string_of_written o (step sp)) as HL.
    set (after := query_string o (step sp)) in *.
    assert (Hhash : lacks "#" after = true).
    { rewrite HL. apply serialize_lacks; reflexivity. }
    assert (W1 : window w1
                 = Some {| location := {| pathname := pathname (location win);
                                          search := query_part after;
                                          hash := hash (location win) |};
                           pushState := pushState win; replaceState := replaceState win;
                           popstate := popstate win;
                           navigations :=
                             navigations win
                             ++ [(match mode with Some m => m | None => defaultHistory o end,
                                  (pathname (location win) ++ query_part after
                                   ++ hash (location win))%string)] |}).
    { subst w1. unfold syncParams, bind, get_state. rewrite Hwin.
      unfold in_rt, zoom. fold sp. rewrite Hp1. cbv beta iota zeta.
      fold after. rewrite Eq. change (negb false) with true. cbv iota.
      change (if Str.is_empty after then EmptyString else ("?" ++ after)%string)
        with (query_part after).
      rewrite (applyUrl_window (set_rt r1 w) _ _ Hwin Hw).
      rewrite resolve_written by assumption. reflexivity. }
    subst w2.
    assert (Hread : getSearchParams (Some {| pathname := pathname (location win);
                                             search := query_part after;
                                             hash := hash (location win) |})
                    = written o (step sp)).
    { unfold getSearchParams. simpl. unfold query_part. rewrite HL.
      apply of_string_written. }
    destruct (Hops (written o (step sp)) (rt w1)) as (r2 & Hp2).
    rewrite (syncParams_noop config o patch mode w1 W1 (sp' := step (written o (step sp)))
               (r' := r2)).
    + reflexivity.
    + simpl. rewrite Hread. exact Hp2.
    + simpl. rewrite Hread. apply Hstable.
Qed.


End Patching.

(* ================================================================== *)
(** * A patch, key by key *)
(* ================================================================== *)

Section PatchedKeys.

Context {H : Host}.

Lemma named_among key keys : In key keys -> existsb (String.eqb key) keys = true.
Proof.
  intros Hin. apply existsb_exists. exists key. split; [exact Hin | apply String.eqb_refl].
Qed.

Lemma others_delete key keys sp :
  In key keys -> others keys (USP.delete key sp) = others keys sp.
Proof.
  intros Hin. unfold others, USP.delete.
  induction sp as [| [k x] r IH]; [reflexivity |]. simpl.
  destruct (String.eqb k key) eqn:E; simpl.
  - apply String.eqb_eq in E. subst k. rewrite (named_among _ _ Hin). exact IH.
  - rewrite IH. reflexivity.
Qed.

Lemma others_set key text keys sp :
  In key keys -> others keys (USP.set key text sp) = others keys sp.
Proof.
  intros Hin. induction sp as [| [k x] r IH]; simpl.
  - unfold others. simpl. rewrite (named_among _ _ Hin). reflexivity.
  - destruct (String.eqb k key) eqn:E.
    + apply String.eqb_eq in E. subst k.
      unfold others. simpl. rewrite (named_among _ _ Hin). simpl.
      apply (others_delete _ _ r Hin).
    + unfold others in *. simpl. rewrite IH. reflexivity.
Qed.

Lemma others_app keys l l' : others keys (l ++ l') = others keys l ++ others keys l'.
Proof. unfold others. apply filter_app. Qed.

Lemma others_named key keys items :
  In key keys -> others keys (List.map (pair key) items) = [].
Proof.
  intros Hin. unfold others. induction items as [| x r IH]; [reflexivity |].
  simpl. rewrite (named_among _ _ Hin). exact IH.
Qed.

(** One key of the patch leaves the pairs of the names outside the patch
    where they are. *)
Lemma syncParams_key_others config o patch key keys sp r :
  In key keys ->
  exists sp' r',
    syncParams_key config o patch key sp r = Normal sp' r'
    /\ others keys sp' = others keys sp.
Proof.
  intros Hin.
  destruct (lookup key config) as [type |] eqn:Et.
  destruct type eqn:Ety.
  5: { unfold syncParams_key. rewrite Et.
       destruct (isStringArray (prop key patch)
                 && negb (Nat.eqb (List.length (string_items (prop key patch))) 0)).
       - eexists. exists r. split; [reflexivity |].
         rewrite append_all, others_app, others_named, app_nil_r by exact Hin.
         apply others_delete. exact Hin.
       - eexists. exists r. split; [reflexivity |]. apply others_delete. exact Hin. }
  all: destruct (syncParams_key_op config o patch key) as (text & Hop);
    [rewrite Et; discriminate |];
    destruct (Hop sp r) as (r' & E); exists (apply_op (key, text) sp), r';
    (split; [exact E |]);
    destruct text; unfold apply_op; simpl;
    [apply others_set | apply others_delete]; exact Hin.
Qed.

Lemma for_of_others config o patch keys all :
  (forall key, In key keys -> In key all) ->
  forall sp r,
  exists sp' r',
    for_of keys (syncParams_key config o patch) sp r = Normal sp' r'
    /\ others all sp' = others all sp.
Proof.
  induction keys as [| key rest IH]; intros Hsub sp r.
  - exists sp, r. split; reflexivity.
  - destruct (syncParams_key_others config o patch key all sp r) as (sp1 & r1 & E1 & H1).
    { apply Hsub. left. reflexivity. }
    destruct (IH (fun k Hk => Hsub k (or_intror Hk)) sp1 r1) as (sp2 & r2 & E2 & H2).
    exists sp2, r2. split.
    + simpl. unfold bind. rewrite E1. exact E2.
    + rewrite H2. exact H1.
Qed.

Lemma entries_of_others key keys sp :
  ~ In key keys -> entries_of key (others keys sp) = entries_of key sp.
Proof.
  intros Hnot. unfold entries_of, others.
  induction sp as [| [k x] r IH]; [reflexivity |]. simpl.
  destruct (existsb (String.eqb k) keys) eqn:E; simpl.
  - destruct (String.eqb k key) eqn:Ek; [| exact IH].
    apply String.eqb_eq in Ek. subst k.
    apply existsb_exists in E. destruct E as (k' & Hin & Ek').
    apply String.eqb_eq in Ek'. subst k'. contradiction.
  - rewrite IH. reflexivity.
Qed.

Lemma getAll_entries key sp : USP.getAll key sp = List.map snd (entries_of key sp).
Proof. reflexivity. Qed.

Lemma get_entries key sp :
  USP.get key sp = option_map snd (hd_error (entries_of key sp)).
Proof.
  unfold entries_of. induction sp as [| [k x] r IH]; [reflexivity |]. simpl.
  destruct (String.eqb k key); [reflexivity | exact IH].
Qed.

(** X3.  A patch leaves the other parameters of the query alone: applying
    a patch always completes, and the pairs whose names are not keys of
    the patch stay as they were, values and order. *)
Theorem patch_leaves_other_keys :
  forall (config : QueryparamConfig) (o : UseQueryParamsOptions) (patch : dict val)
         (sp : URLSearchParams) (r : runtime),
  exists sp' r',
    patched_query config o patch sp r = Normal sp' r'
    /\ others (typedKeys patch) sp' = others (typedKeys patch) sp
    /\ forall key, ~ In key (typedKeys patch) ->
         USP.getAll key sp' = USP.getAll key sp /\ USP.get key sp' = USP.get key sp.
Proof.
  intros config o patch sp r.
  destruct (for_of_others config o patch (typedKeys patch) (typedKeys patch)
              (fun _ Hk => Hk) sp r) as (sp' & r' & E & Ho).
  exists sp', r'. split; [exact E |]. split; [exact Ho |].
  intros key Hnot.
  assert (He : entries_of key sp' = entries_of key sp).
  { rewrite <- (entries_of_others key (typedKeys patch) sp') by exact Hnot.
    rewrite Ho. apply entries_of_others. exact Hnot. }
  rewrite !getAll_entries, !get_entries, He. split; reflexivity.
Qed.

Lemma string_items_all items :
  forallb is_JStr items = true ->
  List.map JStr (flat_map (fun j : json number => match j with JStr s => [s] | _ => [] end) items)
  = items.
Proof.
  induction items as [| j r IH]; [reflexivity |]. simpl. intros Hall.
  apply andb_prop in Hall. destruct Hall as [Hj Hr].
  destruct j; try discriminate Hj. simpl. rewrite IH by exact Hr. reflexivity.
Qed.

Lemma getAll_app key l l' : USP.getAll key (l ++ l') = USP.getAll key l ++ USP.getAll key l'.
Proof. unfold USP.getAll. rewrite filter_app, List.map_app. reflexivity. Qed.

Lemma getAll_delete_same key sp : USP.getAll key (USP.delete key sp) = [].
Proof. rewrite getAll_entries, entries_of_delete_same. reflexivity. Qed.

Lemma getAll_named key (xs : list string) : USP.getAll key (List.map (pair key) xs) = xs.
Proof.
  rewrite getAll_entries, entries_of_named, String.eqb_refl.
  rewrite List.map_map. simpl. apply List.map_id.
Qed.

Lemma length_nonzero {A} (l : list A) : l <> [] -> negb (Nat.eqb (List.length l) 0) = true.
Proof. destruct l; [congruence | reflexivity]. Qed.

(** X4.  Writing and reading a list of strings. For a key declared
    [string[]], a patch value that is a non-empty array of strings removes
    the pairs of the key and appends one pair per element, in order, at
    the end of the query; reading the key back gives a new array with the
    same elements. A value that is not an array of strings, or an empty
    array, removes the key and reports nothing. *)
Theorem string_list_patch :
  forall (config : QueryparamConfig) (o : UseQueryParamsOptions) (patch : dict val)
         (key : string) (sp : URLSearchParams) (out : snapshot) (r : runtime),
    lookup key config = Some TStringArray ->
    (forall id items,
        prop key patch = VArray id items ->
        forallb is_JStr items = true ->
        items <> [] ->
        let sp' := USP.delete key sp ++ List.map (pair key) (string_items (prop key patch)) in
        syncParams_key config o patch key sp r = Normal sp' r
        /\ USP.getAll key sp' = string_items (prop key patch)
        /\ decode_key config o sp' key out r
           = Normal (set_prop key (VArray (next_id r) items) out) (allocated r))
    /\ (isStringArray (prop key patch) = false \/ string_items (prop key patch) = [] ->
        syncParams_key config o patch key sp r = Normal (USP.delete key sp) r
        /\ USP.getAll key (USP.delete key sp) = []).
Proof.
  intros config o patch key sp out r Ht. split.
  - intros id items Hv Hall Hne sp'.
    assert (Hitems : string_items (prop key patch) <> []).
    { rewrite Hv. simpl. intros E. apply Hne. rewrite <- (string_items_all items Hall), E.
      reflexivity. }
    assert (Hall' : USP.getAll key sp' = string_items (prop key patch)).
    { subst sp'. rewrite getAll_app, getAll_delete_same, getAll_named. reflexivity. }
    split; [| split].
    + unfold syncParams_key. rewrite Ht. cbv zeta.
      assert (Hc : isStringArray (prop key patch) = true) by (rewrite Hv; exact Hall).
      rewrite Hc, (length_nonzero Hitems). simpl. unfold ret. rewrite append_all. reflexivity.
    + exact Hall'.
    + unfold decode_key. rewrite Ht. cbv zeta. rewrite Hall'.
      rewrite (length_nonzero Hitems). unfold bind, new_Array, alloc, ret. simpl.
      unfold bind. rewrite Hv. simpl. rewrite (string_items_all items Hall). reflexivity.
  - intros Hno. split; [| apply getAll_delete_same].
    unfold syncParams_key. rewrite Ht. cbv zeta.
    destruct Hno as [Hno | Hno].
    + rewrite Hno. reflexivity.
    + rewrite Hno. simpl. rewrite andb_false_r. reflexivity.
Qed.

End PatchedKeys.

(* ================================================================== *)
(** * A patch and the address *)
(* ================================================================== *)

Section Commits.

Context {H : Host}.

Lemma toString_no_question l :
  USP.of_string (USP.toString l) = l.
Proof.
  unfold USP.of_string, USP.toString.
  assert (Hq : lacks "?" (Form.serialize l) = true) by (apply serialize_lacks; reflexivity).
  destruct (Form.serialize l) as [| a s] eqn:E; [rewrite <- E; apply parse_serialize |].
  rewrite lacks_cons in Hq. apply andb_prop in Hq. destruct Hq as [Ha _].
  destruct (Ascii.eqb a "?") eqn:Ea; [discriminate Ha |].
  assert (Hparse : Form.parse (String a s) = l) by (rewrite <- E; apply parse_serialize).
  destruct a as [[] [] [] [] [] [] [] []]; try exact Hparse. discriminate Ea.
Qed.

Lemma toString_injective l l' : USP.toString l = USP.toString l' -> l = l'.
Proof.
  unfold USP.toString. intros E.
  rewrite <- (parse_serialize l), <- (parse_serialize l'), E. reflexivity.
Qed.

Lemma written_perm o sp : Permutation (written o sp) sp.
Proof.
  unfold written. destruct (sortKeys o); [apply array_sort_perm | apply Permutation_refl].
Qed.

(** The window a patch leaves: as it was when the query string does not
    change, else with the new query in the address and one more history
    call. *)
Lemma syncParams_window config o patch mode w win sp' r' :
  window w = Some win ->
  well_formed (location win) = true ->
  wired w = true ->
  patched_query config o patch (getSearchParams (Some (location win))) (rt w)
  = Normal sp' r' ->
  window (state_of (syncParams config o patch mode w))
  = if String.eqb (query_string o sp')
         (query_string o (getSearchParams (Some (location win))))
    then Some win
    else Some {| location := {| pathname := pathname (location win);
                                search := query_part (query_string o sp');
                                hash := hash (location win) |};
                 pushState := pushState win; replaceState := replaceState win;
                 popstate := popstate win;
                 navigations :=
                   navigations win
                   ++ [(match mode with Some m => m | None => defaultHistory o end,
                        (pathname (location win) ++ query_part (query_string o sp')
                         ++ hash (location win))%string)] |}.
Proof.
  intros Hwin Hwf Hw Hp.
  destruct (String.eqb (query_string o sp')
              (query_string o (getSearchParams (Some (location win))))) eqn:Eq.
  - apply String.eqb_eq in Eq.
    rewrite (syncParams_noop config o patch mode w Hwin Hp Eq). exact Hwin.
  - assert (Hhash : lacks "#" (query_string o sp') = true).
    { rewrite query_string_of_written. apply serialize_lacks; reflexivity. }
    unfold syncParams, bind, get_state. rewrite Hwin.
    unfold in_rt, zoom. rewrite Hp. cbv beta iota zeta.
    rewrite Eq. change (negb false) with true. cbv iota.
    change (if Str.is_empty (query_string o sp') then EmptyString
            else ("?" ++ query_string o sp')%string)
      with (query_part (query_string o sp')).
    rewrite (applyUrl_window (set_rt r' w) _ _ Hwin Hw).
    rewrite resolve_written by assumption. reflexivity.
Qed.

(** The query of the URL a patch commits for a query string. *)
Lemma query_of_written_url l q :
  well_formed l = true ->
  lacks "#" q = true ->
  query_of_url (pathname l ++ query_part q ++ hash l) = USP.of_string q.
Proof.
  unfold well_formed. intros Hwf Hq.
  apply andb_prop in Hwf. destruct Hwf as [Hwf Hh].
  apply andb_prop in Hwf. destruct Hwf as [Hwf Hp2].
  apply andb_prop in Hwf. destruct Hwf as [_ Hp1].
  assert (Hpq : lacks "#" (pathname l ++ query_part q) = true).
  { rewrite lacks_app, Hp2. unfold query_part.
    destruct (Str.is_empty q); [reflexivity |]. rewrite lacks_cons, Hq. reflexivity. }
  assert (Hcut : Str.cut "?" (pathname l ++ query_part q)
                 = (pathname l, if Str.is_empty q then None else Some q)).
  { unfold query_part. destruct (Str.is_empty q).
    - rewrite string_app_nil. apply cut_lacks. exact Hp1.
    - apply cut_app. exact Hp1. }
  assert (Hq0 : (if Str.is_empty q then EmptyString else q) = q)
    by (destruct q; reflexivity).
  unfold query_of_url. rewrite <- string_app_assoc.
  destruct (hash l) as [| a f] eqn:Eh.
  - rewrite string_app_nil, (cut_lacks _ _ Hpq), Hcut.
    destruct (Str.is_empty q) eqn:Eq; [destruct q; [reflexivity | discriminate Eq] |].
    reflexivity.
  - apply andb_prop in Hh. destruct Hh as [Ha _].
    apply Ascii.eqb_eq in Ha. subst a.
    rewrite (cut_app _ _ f Hpq), Hcut.
    destruct (Str.is_empty q) eqn:Eq; [destruct q; [reflexivity | discriminate Eq] |].
    reflexivity.
Qed.

(** What a patch leaves to be read: the current query when the query
    string does not change and no call is made, else the query of the URL
    of the one history call.  Either has the pairs of the patched query. *)
Lemma syncParams_commit config o patch mode w win sp' r' :
  window w = Some win ->
  well_formed (location win) = true ->
  wired w = true ->
  patched_query config o patch (getSearchParams (Some (location win))) (rt w)
  = Normal sp' r' ->
  let sp := getSearchParams (Some (location win)) in
  let url := (pathname (location win) ++ query_part (query_string o sp')
              ++ hash (location win))%string in
  exists win',
    window (state_of (syncParams config o patch mode w)) = Some win'
    /\ if String.eqb (query_string o sp') (query_string o sp)
       then win' = win /\ written o sp = written o sp'
       else navigations win'
            = navigations win
              ++ [(match mode with Some m => m | None => defaultHistory o end, url)]
            /\ query_of_url url = written o sp'.
Proof.
  intros Hwin Hwf Hw Hp sp url.
  rewrite (syncParams_window config o patch mode w Hwin Hwf Hw Hp). fold sp.
  destruct (String.eqb (query_string o sp') (query_string o sp)) eqn:Eq.
  - exists win. split; [reflexivity |]. split; [reflexivity |].
    apply String.eqb_eq in Eq. rewrite !query_string_of_written in Eq.
    apply toString_injective in Eq. symmetry. exact Eq.
  - eexists. split; [reflexivity |]. split; [reflexivity |].
    subst url. rewrite query_of_written_url; [| exact Hwf |].
    + rewrite query_string_of_written. apply toString_no_question.
    + rewrite query_string_of_written. apply serialize_lacks; reflexivity.
Qed.

(** X2.  The history call of a patch.  On a page whose history methods are
    native or wrapped, applying a patch makes no history call when the
    query string does not change: the window stays as it is, and the query
    of the address already has the patched pairs.  Else it makes exactly
    one history call, in the given mode or else the default one, with the
    path, a [?] and the new query string (nothing when it is empty) and the
    hash as its URL, and the query of that URL parses back to the patched
    pairs.  The pairs are the patched list itself with [sortKeys] off and a
    permutation of it with [sortKeys] on. *)
Theorem syncParams_commits_the_patched_query :
  forall (config : QueryparamConfig) (o : UseQueryParamsOptions) (patch : dict val)
         (mode : option HistoryMode) (w : world) (win : Window),
    window w = Some win ->
    well_formed (location win) = true ->
    wired w = true ->
    let sp := getSearchParams (Some (location win)) in
    exists sp' r' win',
      patched_query config o patch sp (rt w) = Normal sp' r'
      /\ window (state_of (syncParams config o patch mode w)) = Some win'
      /\ if String.eqb (query_string o sp') (query_string o sp)
         then win' = win
              /\ Permutation sp sp'
              /\ (sortKeys o = false -> sp = sp')
         else let url := (pathname (location win) ++ query_part (query_string o sp')
                          ++ hash (location win))%string in
              navigations win'
              = navigations win
                ++ [(match mode with Some m => m | None => defaultHistory o end, url)]
              /\ Permutation (query_of_url url) sp'
              /\ (sortKeys o = false -> query_of_url url = sp').
Proof.
  intros config o patch mode w win Hwin Hwf Hw sp.
  destruct (total_patched_query config o patch sp (rt w)) as (sp' & r' & Hp).
  destruct (syncParams_commit config o patch mode w Hwin Hwf Hw Hp) as (win' & W & Hc).
  fold sp in Hc. exists sp', r', win'. split; [exact Hp |]. split; [exact W |].
  destruct (String.eqb (query_string o sp') (query_string o sp)).
  - destruct Hc as (-> & Hq). split; [reflexivity |]. split.
    + eapply Permutation_trans; [apply Permutation_sym, (written_perm o) |].
      rewrite Hq. apply written_perm.
    + intros Hs. unfold written in Hq. rewrite Hs in Hq. exact Hq.
  - destruct Hc as (Hn & Hq). cbv zeta. split; [exact Hn |]. rewrite Hq. split.
    + apply written_perm.
    + intros Hs. unfold written. rewrite Hs. reflexivity.
Qed.

Lemma entries_perm key sp sp' x :
  Permutation sp sp' -> entries_of key sp' = [x] -> entries_of key sp = [x].
Proof.
  intros Hp He. unfold entries_of in *.
  apply (filter_perm (fun kv => String.eqb (fst kv) key)) in Hp. rewrite He in Hp.
  apply Permutation_sym, Permutation_length_1_inv in Hp. exact Hp.
Qed.

(** A key of a patch with distinct keys whose step sets a text ends with
    that one pair in the patched query. *)
Lemma patched_query_sets config o patch key text :
  NoDup (typedKeys patch) ->
  In key (typedKeys patch) ->
  (forall sp r, exists r',
      syncParams_key config o patch key sp r = Normal (USP.set key text sp) r') ->
  forall sp r sp' r',
    patched_query config o patch sp r = Normal sp' r' ->
    entries_of key sp' = [(key, text)].
Proof.
  intros Hnd Hin Hset sp r sp' r' Hp. unfold patched_query in Hp.
  destruct (split_at_key key Hnd Hin) as (pre & post & Hk & Hpre & Hpost).
  rewrite Hk, for_of_app in Hp.
  apply bind_normal_inv in Hp. destruct Hp as (sp1 & r1 & _ & Hp).
  simpl in Hp. apply bind_normal_inv in Hp. destruct Hp as (sp2 & r2 & E2 & Hp).
  destruct (Hset sp1 r1) as (r2' & E2'). rewrite E2' in E2.
  injection E2 as <- <-.
  destruct (for_of_others config o patch post post (fun _ Hx => Hx) (USP.set key text sp1) r2')
    as (sp3 & r3 & E3 & Ho).
  rewrite E3 in Hp. injection Hp as <- <-.
  rewrite <- (entries_of_others key post sp3) by exact Hpost.
  rewrite Ho, entries_of_others by exact Hpost.
  apply entries_of_set_same.
Qed.

Lemma get_single key sp text : entries_of key sp = [(key, text)] -> USP.get key sp = Some text.
Proof. intros E. rewrite get_entries, E. reflexivity. Qed.

Lemma syncParams_key_scalar config o patch key type text sp r :
  lookup key config = Some type ->
  scalar type = true ->
  (forall r, serializeSingle (prop key patch) (Some type)
               (option_map serialize (lookup key (customSerializers o)))
               (onError o) (Some key) r = Normal (Some text) r) ->
  exists r', syncParams_key config o patch key sp r = Normal (USP.set key text sp) r'.
Proof.
  intros Ht Hs Hser. exists r. unfold syncParams_key. rewrite Ht.
  destruct type; try discriminate Hs; cbv zeta; unfold bind; rewrite Hser; reflexivity.
Qed.

Lemma decode_key_scalar config o sp key type text out r :
  lookup key config = Some type ->
  scalar type = true ->
  USP.get key sp = Some text ->
  decode_key config o sp key out r
  = bind (parseSingle (Some text) (Some type)
            (option_map parse (lookup key (customSerializers o))) (onError o) (Some key))
      (fun parsed => ret (set_prop key (coalesce parsed (prop key (defaultValues o))) out)) r.
Proof.
  intros Ht Hs Hg. unfold decode_key. rewrite Ht, Hg.
  destruct type; try discriminate Hs; reflexivity.
Qed.

(** X1.  What is written under a key is what is read under it.  On a page
    whose history methods are native or wrapped, a patch with distinct keys
    leaves a query to be read: the query of the URL of its history call,
    or the query of the address as it is when it makes no call.  In that
    query a key of a scalar tag without a custom serializer has exactly
    one pair, carrying the text of its value, and decoding the key from it
    gives the value back: a string or a boolean as it is, a finite number
    when [Number(String(n))] is [n], a valid date as a new [Date] of the
    same time when its ISO text parses back. *)
Theorem patch_then_read :
  forall (config : QueryparamConfig) (o : UseQueryParamsOptions) (patch : dict val)
         (mode : option HistoryMode) (w : world) (win : Window)
         (key : string) (type : QueryParamType),
    window w = Some win ->
    well_formed (location win) = true ->
    wired w = true ->
    NoDup (typedKeys patch) ->
    In key (typedKeys patch) ->
    lookup key config = Some type ->
    lookup key (customSerializers o) = None ->
    exists win' sp,
      window (state_of (syncParams config o patch mode w)) = Some win'
      /\ (win' = win /\ sp = getSearchParams (Some (location win))
          \/ exists m url,
               navigations win' = navigations win ++ [(m, url)]
               /\ sp = query_of_url url)
      /\ (forall s out r,
            type = TString -> prop key patch = VStr s ->
            USP.getAll key sp = [s]
            /\ decode_key config o sp key out r = Normal (set_prop key (VStr s) out) r)
      /\ (forall b out r,
            type = TBoolean -> prop key patch = VBool b ->
            USP.getAll key sp = [if b then "true" else "false"]
            /\ decode_key config o sp key out r = Normal (set_prop key (VBool b) out) r)
      /\ (forall n out r,
            type = TNumber -> prop key patch = VNum n ->
            Number_isFinite n = true ->
            Number_of_string (String_of_number n) = n ->
            USP.getAll key sp = [String_of_number n]
            /\ decode_key config o sp key out r = Normal (set_prop key (VNum n) out) r)
      /\ (forall id t out r,
            type = TDate -> prop key patch = VDate id (Some t) ->
            Date_parse (Date_toISOString t) = Some t ->
            USP.getAll key sp = [Date_toISOString t]
            /\ decode_key config o sp key out r
               = Normal (set_prop key (VDate (next_id r) (Some t)) out) (allocated r)).
Proof.
  intros config o patch mode w win key type Hwin Hwf Hw Hnd Hin Ht Hc.
  destruct (total_patched_query config o patch (getSearchParams (Some (location win))) (rt w))
    as (sp' & r' & Hp).
  destruct (syncParams_commit config o patch mode w Hwin Hwf Hw Hp) as (win' & W & Hcommit).
  cbv zeta in Hcommit.
  assert (Left : exists sp,
             (win' = win /\ sp = getSearchParams (Some (location win))
              \/ exists m url,
                   navigations win' = navigations win ++ [(m, url)]
                   /\ sp = query_of_url url)
             /\ Permutation sp sp').
  { destruct (String.eqb (query_string o sp')
                (query_string o (getSearchParams (Some (location win))))).
    - destruct Hcommit as (-> & Hq). eexists. split; [left; split; reflexivity |].
      eapply Permutation_trans; [apply Permutation_sym, (written_perm o) |].
      rewrite Hq. apply written_perm.
    - destruct Hcommit as (Hn & Hq). eexists. split.
      + right. eexists. eexists. split; [exact Hn | reflexivity].
      + rewrite Hq. apply written_perm. }
  destruct Left as (sp & Hleft & Hperm).
  exists win', sp. split; [exact W |]. split; [exact Hleft |].
  assert (Written : forall text,
             (forall r, serializeSingle (prop key patch) (Some type)
                          (option_map serialize (lookup key (customSerializers o)))
                          (onError o) (Some key) r = Normal (Some text) r) ->
             scalar type = true ->
             entries_of key sp = [(key, text)]).
  { intros text Hser Hs. apply entries_perm with (sp' := sp'); [exact Hperm |].
    eapply patched_query_sets; [exact Hnd | exact Hin | | exact Hp].
    intros sp0 r. apply syncParams_key_scalar with (type := type); assumption. }
  rewrite Hc in Written. simpl in Written.
  assert (Read : forall text out r,
             scalar type = true ->
             entries_of key sp = [(key, text)] ->
             decode_key config o sp key out r
             = bind (parseSingle (Some text) (Some type) None (onError o) (Some key))
                 (fun parsed =>
                    ret (set_prop key (coalesce parsed (prop key (defaultValues o))) out)) r).
  { intros text out r Hs He.
    rewrite (decode_key_scalar config o _ key (type := type) (text := text));
      [rewrite Hc; reflexivity | exact Ht | exact Hs | apply get_single; exact He]. }
  split; [| split; [| split]].
  - intros s out r -> Hv.
    assert (He : entries_of key sp = [(key, s)]).
    { apply Written; [| reflexivity]. intros r0. rewrite Hv. reflexivity. }
    split; [rewrite getAll_entries, He; reflexivity |].
    rewrite (Read s) by (reflexivity || exact He). reflexivity.
  - intros b out r -> Hv.
    assert (He : entries_of key sp = [(key, if b then "true" else "false")]).
    { apply Written; [| reflexivity]. intros r0. rewrite Hv. reflexivity. }
    split; [rewrite getAll_entries, He; reflexivity |].
    rewrite (Read (if b then "true" else "false")) by (reflexivity || exact He).
    destruct b; reflexivity.
  - intros n out r -> Hv Hfin Hback.
    assert (He : entries_of key sp = [(key, String_of_number n)]).
    { apply Written; [| reflexivity]. intros r0. rewrite Hv.
      unfold serializeSingle, try_catch, ret. simpl. rewrite Hfin. reflexivity. }
    split; [rewrite getAll_entries, He; reflexivity |].
    rewrite (Read (String_of_number n)) by (reflexivity || exact He).
    unfold bind, parseSingle, try_catch. simpl. rewrite Hback, Hfin. reflexivity.
  - intros id t out r -> Hv Hback.
    assert (He : entries_of key sp = [(key, Date_toISOString t)]).
    { apply Written; [| reflexivity]. intros r0. rewrite Hv. reflexivity. }
    split; [rewrite getAll_entries, He; reflexivity |].
    rewrite (Read (Date_toISOString t)) by (reflexivity || exact He).
    unfold bind, parseSingle, try_catch, new_Date, bind, alloc, ret. simpl.
    rewrite Hback. reflexivity.
Qed.

End Commits.

(* ================================================================== *)
(** * The sorted query string *)
(* ================================================================== *)

Section SortedQuery.

Context {H : Host}.


End SortedQuery.

(* ================================================================== *)
(** * The shape of a snapshot *)
(* ================================================================== *)

Section Snapshots.

Context {H : Host}.

Lemma assign_keys_new {A} key (a : A) d :
  ~ In key (typedKeys d) -> typedKeys (assign key a d) = typedKeys d ++ [key].
Proof.
  unfold typedKeys.
  induction d as [| [k x] r IH]; simpl; intros Hnot; [reflexivity |].
  destruct (String.eqb k key) eqn:E.
  - apply String.eqb_eq in E. exfalso. apply Hnot. left. exact E.
  - simpl. rewrite IH; [reflexivity |].
    intros Hin. apply Hnot. right. exact Hin.
Qed.

Lemma assign_keys_old {A} key (a : A) d :
  In key (typedKeys d) -> typedKeys (assign key a d) = typedKeys d.
Proof.
  unfold typedKeys.
  induction d as [| [k x] r IH]; simpl; intros Hin; [contradiction |].
  destruct (String.eqb k key) eqn:E; [reflexivity |].
  simpl. rewrite IH; [reflexivity |].
  destruct Hin as [Hin | Hin]; [| exact Hin].
  apply String.eqb_neq in E. contradiction.
Qed.

Lemma getParams_key_keys config o sp key out r out' r' :
  ~ In key (typedKeys (props out)) ->
  getParams_key config o sp key out r = Normal out' r' ->
  typedKeys (props out') = typedKeys (props out) ++ [key].
Proof.
  intros Hnot E. unfold getParams_key in E.
  apply bind_normal_inv in E. destruct E as (out1 & r1 & E1 & E2).
  apply decode_key_assigns in E1. destruct E1 as (x & ->).
  apply validate_key_assigns in E2.
  assert (K1 : typedKeys (props (set_prop key x out)) = typedKeys (props out) ++ [key])
    by (apply assign_keys_new; exact Hnot).
  destruct E2 as [-> | ->]; [exact K1 |].
  simpl. rewrite assign_keys_old; [exact K1 |].
  simpl in K1. rewrite K1. apply in_or_app. right. left. reflexivity.
Qed.

Lemma for_of_keys config o sp keys :
  NoDup keys ->
  forall out r out' r',
    (forall key, In key keys -> ~ In key (typedKeys (props out))) ->
    for_of keys (getParams_key config o sp) out r = Normal out' r' ->
    typedKeys (props out') = typedKeys (props out) ++ keys.
Proof.
  induction 1 as [| key rest Hnot Hnd IH]; intros out r out' r' Hfresh E.
  - simpl in E. injection E as <- <-. rewrite app_nil_r. reflexivity.
  - simpl in E. apply bind_normal_inv in E. destruct E as (out1 & r1 & E1 & E2).
    pose proof (getParams_key_keys _ _ _ _ _ _ (Hfresh key (or_introl eq_refl)) E1) as K1.
    assert (Hfresh1 : forall k, In k rest -> ~ In k (typedKeys (props out1))).
    { intros k Hk. rewrite K1. intros Hin. apply in_app_or in Hin.
      destruct Hin as [Hin | [-> | []]].
      - apply (Hfresh k (or_intror Hk)). exact Hin.
      - contradiction. }
    rewrite (IH _ _ _ _ Hfresh1 E2), K1, <- app_assoc. reflexivity.
Qed.

Lemma lookup_absent {A} key (d : dict A) : ~ In key (typedKeys d) -> lookup key d = None.
Proof.
  intros Hnot. destruct (lookup key d) as [a |] eqn:L; [| reflexivity].
  apply lookup_In_keys in L. contradiction.
Qed.

Lemma for_of_sid config o sp keys :
  forall out r out' r',
    for_of keys (getParams_key config o sp) out r = Normal out' r' -> sid out' = sid out.
Proof.
  induction keys as [| k rest IH]; intros out r out' r' E.
  - simpl in E. injection E as <- <-. reflexivity.
  - simpl in E. apply bind_normal_inv in E. destruct E as (out1 & r1 & E1 & E2).
    rewrite (IH _ _ _ _ E2).
    unfold getParams_key in E1. apply bind_normal_inv in E1.
    destruct E1 as (out2 & r2 & D & V).
    apply decode_key_assigns in D. destruct D as (x & ->).
    apply validate_key_assigns in V. destruct V as [-> | ->]; reflexivity.
Qed.

Lemma snapshot_shape config o win r out r' :
  NoDup (typedKeys config) ->
  getParams config o win r = Normal out r' ->
  typedKeys (props out) = typedKeys config
  /\ sid out = next_id r
  /\ next_id r < next_id r'.
Proof.
  intros Hnd E. unfold getParams in E.
  apply bind_normal_inv in E. destruct E as (out0 & r0 & E0 & E).
  unfold new_object, bind, alloc, ret in E0. injection E0 as <- <-.
  pose proof (for_of_keys config o (getSearchParams win) Hnd
                {| sid := next_id r; props := [] |} _ (fun _ _ Hin => Hin) E) as K.
  simpl in K.
  pose proof (for_of_ids config o (getSearchParams win) (typedKeys config)
                {| sid := next_id r; props := [] |}
                {| next_id := S (next_id r); errors := errors r; validated := validated r |})
    as G.
  rewrite E in G. unfold ids_grow in G. simpl in G.
  split; [exact K |].
  split; [apply (for_of_sid _ _ _ _ _ _ E) | lia].
Qed.


End Snapshots.

(* ================================================================== *)
(** * The held state *)
(* ================================================================== *)

Section StateUpdates.

Context {H : Host}.

Lemma lookup_present {A} key (d : dict A) : In key (typedKeys d) -> exists a, lookup key d = Some a.
Proof.
  unfold typedKeys. induction d as [| [k x] r IH]; simpl; intros Hin; [contradiction |].
  destruct (String.eqb k key) eqn:E; [eexists; reflexivity |].
  apply IH. destruct Hin as [Hin | Hin]; [| exact Hin].
  apply String.eqb_neq in E. contradiction.
Qed.

(** [{...prev, ...next}], property by property. *)
Lemma spread_lookup {A} key (next : dict A) :
  NoDup (typedKeys next) ->
  forall prev,
    lookup key (fold_left (fun acc kv => assign (fst kv) (snd kv) acc) next prev)
    = match lookup key next with
      | Some v => Some v
      | None => lookup key prev
      end.
Proof.
  induction next as [| [k v] rest IH]; intros Hnd prev; [reflexivity |].
  simpl in Hnd. inversion Hnd as [| ? ? Hnot Hrest]; subst.
  simpl. rewrite (IH Hrest).
  destruct (String.eqb k key) eqn:E.
  - apply String.eqb_eq in E. subst k.
    rewrite (lookup_absent key rest Hnot). apply lookup_assign_same.
  - rewrite lookup_assign_other; [reflexivity |]. apply String.eqb_neq. exact E.
Qed.

Lemma spread_keys {A} (next : dict A) :
  forall prev,
    (forall k, In k (typedKeys next) -> In k (typedKeys prev)) ->
    typedKeys (fold_left (fun acc kv => assign (fst kv) (snd kv) acc) next prev)
    = typedKeys prev.
Proof.
  induction next as [| [k v] rest IH]; intros prev Hsub; [reflexivity |].
  simpl. rewrite IH.
  - apply assign_keys_old. apply Hsub. left. reflexivity.
  - intros k' Hk'. rewrite assign_keys_old by (apply Hsub; left; reflexivity).
    apply Hsub. right. exact Hk'.
Qed.

Lemma setParams_cases next prev r :
  setParams next prev r
  = if shallowEqual prev next then Normal prev r
    else Normal {| sid := next_id r;
                   props := fold_left (fun acc kv => assign (fst kv) (snd kv) acc)
                              (props next) (props prev) |}
           (allocated r).
Proof. unfold setParams. destruct (shallowEqual prev next); reflexivity. Qed.

Lemma setParams_agrees next prev r key :
  NoDup (typedKeys (props next)) ->
  sid prev <> sid next ->
  In key (typedKeys (props prev)) ->
  In key (typedKeys (props next)) ->
  let state := match setParams next prev r with Normal s _ => s | Abrupt _ _ => prev end in
  get_prop key state = get_prop key next
  \/ strict_eq (get_prop key state) (get_prop key next) = true.
Proof.
  intros Hnd Hsid Hp Hn. rewrite setParams_cases.
  destruct (shallowEqual prev next) eqn:Es; cbv zeta.
  - right. unfold shallowEqual in Es.
    apply Nat.eqb_neq in Hsid. rewrite Hsid in Es.
    destruct (negb (Nat.eqb (List.length (typedKeys (props prev)))
                      (List.length (typedKeys (props next))))); [discriminate Es |].
    rewrite forallb_forall in Es. apply Es. exact Hp.
  - left. unfold get_prop, prop. simpl. rewrite (spread_lookup key (props next) Hnd).
    destruct (lookup_present key (props next) Hn) as (v & ->). reflexivity.
Qed.

(** X15.  The held state after [setParams]. Given a new snapshot with
    distinct keys and another identity than the held object: when the held
    object is judged equal it is kept and nothing is created; else the
    state is a new object in which every key of the snapshot has the value
    of the snapshot and every other key keeps the held value. Either way,
    under every key that both objects have, the state holds the value of
    the snapshot or one [===] to it. *)
Theorem setParams_merges :
  forall (next prev : snapshot) (r : runtime),
    NoDup (typedKeys (props next)) ->
    sid prev <> sid next ->
    exists state r',
      setParams next prev r = Normal state r'
      /\ (if shallowEqual prev next
          then state = prev /\ r' = r
          else sid state = next_id r
               /\ r' = allocated r
               /\ forall key,
                    get_prop key state
                    = match lookup key (props next) with
                      | Some v => v
                      | None => get_prop key prev
                      end)
      /\ forall key,
           In key (typedKeys (props prev)) -> In key (typedKeys (props next)) ->
           get_prop key state = get_prop key next
           \/ strict_eq (get_prop key state) (get_prop key next) = true.
Proof.
  intros next prev r Hnd Hsid.
  pose proof (fun key => @setParams_agrees next prev r key Hnd Hsid) as Agree.
  rewrite setParams_cases in *.
  destruct (shallowEqual prev next) eqn:Es.
  - exists prev, r. split; [reflexivity |]. split; [split; reflexivity |]. exact Agree.
  - eexists. eexists. split; [reflexivity |]. split; [| exact Agree].
    split; [reflexivity |]. split; [reflexivity |].
    intros key. unfold get_prop, prop. simpl. rewrite (spread_lookup key (props next) Hnd).
    destruct (lookup key (props next)); reflexivity.
Qed.


End StateUpdates.

(* ================================================================== *)
(** * Reads of primitive keys *)
(* ================================================================== *)

Section StableReads.

Context {H : Host}.

Lemma assign_assign {A} key (a b : A) d : assign key b (assign key a d) = assign key b d.
Proof.
  induction d as [| [k x] r IH]; simpl.
  - rewrite String.eqb_refl. reflexivity.
  - destruct (String.eqb k key) eqn:E; simpl; rewrite E; [reflexivity |].
    rewrite IH. reflexivity.
Qed.

Lemma assign_Forall {A} (P : string * A -> Prop) key (a : A) d :
  P (key, a) -> (forall k x, P (k, x) -> k = key -> P (k, a)) ->
  Forall P d -> Forall P (assign key a d).
Proof.
  intros Ha Hk. induction 1 as [| [k x] r Hx Hr IH]; simpl.
  - constructor; [exact Ha | constructor].
  - destruct (String.eqb k key) eqn:E.
    + apply String.eqb_eq in E. constructor; [eapply Hk; eassumption | exact Hr].
    + constructor; assumption.
Qed.

Lemma lookup_In {A} key (d : dict A) a : lookup key d = Some a -> In (key, a) d.
Proof.
  induction d as [| [k x] r IH]; simpl; [discriminate |].
  destruct (String.eqb k key) eqn:E.
  - apply String.eqb_eq in E. subst k. intros E'. injection E' as <-. left. reflexivity.
  - intros E'. right. apply IH. exact E'.
Qed.

(** Two objects with the same properties, all of them equal to themselves,
    are judged equal. *)
Lemma shallowEqual_same_props a b :
  props b = props a ->
  Forall (fun kv => self_equal (snd kv) = true) (props a) ->
  shallowEqual a b = true.
Proof.
  intros Hp Hs. unfold shallowEqual.
  destruct (Nat.eqb (sid a) (sid b)); [reflexivity |].
  rewrite Hp, Nat.eqb_refl. simpl. apply forallb_forall. intros k Hk.
  unfold get_prop, prop. rewrite Hp.
  destruct (lookup_present k (props a) Hk) as (v & E). rewrite E.
  apply lookup_In in E. rewrite Forall_forall in Hs. apply (Hs (k, v) E).
Qed.

Lemma default_self_equal o key :
  (forall k d, lookup k (defaultValues o) = Some d -> self_equal d = true) ->
  self_equal (prop key (defaultValues o)) = true.
Proof.
  intros Hd. unfold prop. destruct (lookup key (defaultValues o)) as [d |] eqn:E.
  - apply (Hd key d E).
  - reflexivity.
Qed.

(** The value a primitive key decodes to is fixed by the address. *)
Lemma decode_key_primitive config o sp key type :
  lookup key config = Some type ->
  primitive type = true ->
  lookup key (customSerializers o) = None ->
  (forall n, Number_isFinite n = true -> number_strict_eq n n = true) ->
  (forall k d, lookup k (defaultValues o) = Some d -> self_equal d = true) ->
  exists v,
    self_equal v = true
    /\ forall out r, exists r',
         decode_key config o sp key out r = Normal (set_prop key v out) r'.
Proof.
  intros Ht Hprim Hc Hnum Hdef.
  pose proof (default_self_equal o key Hdef) as Hd.
  assert (Hco : forall x, self_equal x = true ->
                          self_equal (coalesce x (prop key (defaultValues o))) = true).
  { intros x Hx. unfold coalesce. destruct (nullish x); assumption. }
  unfold decode_key. rewrite Ht, Hc. simpl.
  destruct (USP.get key sp) as [text |].
  - destruct type; try discriminate Hprim.
    + exists (coalesce (VStr text) (prop key (defaultValues o))).
      split; [apply Hco; unfold self_equal; simpl; apply String.eqb_refl |].
      intros out r. exists r. reflexivity.
    + destruct (Number_isFinite (Number_of_string text)) eqn:Ef.
      * exists (coalesce (VNum (Number_of_string text)) (prop key (defaultValues o))).
        split; [apply Hco; unfold self_equal; simpl; apply Hnum; exact Ef |].
        intros out r. exists r. unfold bind, parseSingle, try_catch. rewrite Ef. reflexivity.
      * exists (coalesce VUndefined (prop key (defaultValues o))).
        split; [apply Hco; reflexivity |].
        intros out r. unfold bind, parseSingle, try_catch. rewrite Ef. simpl.
        unfold throw, bind, report.
        destruct (onError o && negb (Str.is_empty key)); eexists; reflexivity.
    + destruct (Str.includes ["true"; "1"] text) eqn:E1;
        [| destruct (Str.includes ["false"; "0"] text) eqn:E0].
      * exists (coalesce (VBool true) (prop key (defaultValues o))).
        split; [apply Hco; reflexivity |].
        intros out r. exists r. unfold bind, parseSingle, try_catch. rewrite E1. reflexivity.
      * exists (coalesce (VBool false) (prop key (defaultValues o))).
        split; [apply Hco; reflexivity |].
        intros out r. exists r. unfold bind, parseSingle, try_catch. rewrite E1, E0.
        reflexivity.
      * exists (coalesce VUndefined (prop key (defaultValues o))).
        split; [apply Hco; reflexivity |].
        intros out r. unfold bind, parseSingle, try_catch. rewrite E1, E0.
        unfold throw, bind, report.
        destruct (onError o && negb (Str.is_empty key)); eexists; reflexivity.
  - exists (coalesce VUndefined (prop key (defaultValues o))).
    split; [apply Hco; reflexivity |].
    intros out r. exists r. destruct type; try discriminate Hprim; reflexivity.
Qed.

Lemma getParams_key_primitive config o sp key type :
  lookup key config = Some type ->
  primitive type = true ->
  lookup key (customSerializers o) = None ->
  (forall n, Number_isFinite n = true -> number_strict_eq n n = true) ->
  (forall k d, lookup k (defaultValues o) = Some d -> self_equal d = true) ->
  validators_return o ->
  exists v,
    self_equal v = true
    /\ forall out r, exists out' r',
         getParams_key config o sp key out r = Normal out' r'
         /\ sid out' = sid out
         /\ props out' = assign key v (props out).
Proof.
  intros Ht Hprim Hc Hnum Hdef Hval.
  destruct (decode_key_primitive config o sp key Ht Hprim Hc Hnum Hdef) as (v & Hv & Hdec).
  pose proof (default_self_equal o key Hdef) as Hd.
  destruct (lookup key (validation o)) as [f |] eqn:Ef.
  - destruct (nullish v) eqn:En.
    + exists v. split; [exact Hv |]. intros out r.
      destruct (Hdec out r) as (r1 & E1).
      exists (set_prop key v out), r1. unfold getParams_key, bind. rewrite E1.
      rewrite (validate_key_cases o key (set_prop key v out) r1 Ef), get_set_same, En.
      repeat split.
    + destruct (Hval key f v Ef) as ([] & Hf).
      * exists v. split; [exact Hv |]. intros out r.
        destruct (Hdec out r) as (r1 & E1).
        eexists (set_prop key v out), _. unfold getParams_key, bind. rewrite E1.
        rewrite (validate_key_cases o key (set_prop key v out) r1 Ef), get_set_same, En, Hf.
        repeat split.
      * exists (prop key (defaultValues o)). split; [exact Hd |]. intros out r.
        destruct (Hdec out r) as (r1 & E1).
        eexists (set_prop key (prop key (defaultValues o)) (set_prop key v out)), _.
        unfold getParams_key, bind. rewrite E1.
        rewrite (validate_key_cases o key (set_prop key v out) r1 Ef), get_set_same, En, Hf.
        split; [reflexivity |]. split; [reflexivity |]. simpl. apply assign_assign.
  - exists v. split; [exact Hv |]. intros out r.
    destruct (Hdec out r) as (r1 & E1).
    exists (set_prop key v out), r1. unfold getParams_key, bind. rewrite E1.
    unfold validate_key. rewrite Ef. repeat split.
Qed.

Lemma for_of_primitive config o sp keys :
  (forall key, In key keys ->
     exists type, lookup key config = Some type /\ primitive type = true
                  /\ lookup key (customSerializers o) = None) ->
  (forall n, Number_isFinite n = true -> number_strict_eq n n = true) ->
  (forall k d, lookup k (defaultValues o) = Some d -> self_equal d = true) ->
  validators_return o ->
  exists F : dict val -> dict val,
    (forall d, Forall (fun kv => self_equal (snd kv) = true) d ->
               Forall (fun kv => self_equal (snd kv) = true) (F d))
    /\ forall out r, exists out' r',
         for_of keys (getParams_key config o sp) out r = Normal out' r'
         /\ sid out' = sid out
         /\ props out' = F (props out).
Proof.
  intros Hkeys Hnum Hdef Hval.
  induction keys as [| key rest IH].
  - exists (fun d => d). split; [auto |]. intros out r. exists out, r. repeat split.
  - destruct (Hkeys key (or_introl eq_refl)) as (type & Ht & Hprim & Hc).
    destruct (@getParams_key_primitive config o sp key type Ht Hprim Hc Hnum Hdef Hval)
      as (v & Hv & Hstep).
    destruct IH as (F & HF & Hrest).
    { intros k Hk. apply Hkeys. right. exact Hk. }
    exists (fun d => F (assign key v d)). split.
    + intros d Hd. apply HF. apply assign_Forall; [exact Hv | | exact Hd].
      intros k x _ _. exact Hv.
    + intros out r. destruct (Hstep out r) as (out1 & r1 & E1 & S1 & P1).
      destruct (Hrest out1 r1) as (out2 & r2 & E2 & S2 & P2).
      exists out2, r2. simpl. unfold bind. rewrite E1.
      split; [exact E2 |]. split; [congruence |]. rewrite P2, P1. reflexivity.
Qed.


End StableReads.

(* ================================================================== *)
(** * The life of an instance *)
(* ================================================================== *)

Section Lifecycle.

Context {H : Host}.

(** X18.  Mounting and unmounting one instance. Mounting on a freshly
    loaded page wraps both history methods and registers the handler for
    [popstate] and with the event manager; unmounting it restores the
    page: native methods, no listener, no subscriber, no instance, the
    flag and the count as at load. Only the runtime of the reader keeps
    what the read created. *)
Theorem mount_then_unmount_restores_the_page :
  forall (l : Location) (config : QueryparamConfig) (o : UseQueryParamsOptions)
         (h : nat) (w1 : world),
    mount config o (fresh_page l) = Normal h w1 ->
    option_map pushState (window w1) = Some Wrapped
    /\ option_map replaceState (window w1) = Some Wrapped
    /\ option_map popstate (window w1) = Some [h]
    /\ subs w1 = [h]
    /\ unmount h w1 = Normal tt (set_rt (rt w1) (fresh_page l)).
Proof.
  intros l config o h w1 E.
  apply mount_inv with (win := {| location := l; pushState := Native; replaceState := Native;
                                  popstate := []; navigations := [] |}) in E;
    [| reflexivity].
  destruct E as (out & r1 & _ & -> & ->). simpl.
  repeat split.
  unfold unmount, bind, modify, removeEventListener, unpatchHistory. simpl.
  rewrite !Nat.eqb_refl. reflexivity.
Qed.


(** X21.  Outside a browser. Without a [window], [patchHistory],
    [unpatchHistory], [applyUrl] and [syncParams] return at once and
    change nothing: no serializer runs and no error is reported; and the
    query that is read is empty. *)
Theorem without_a_window_nothing_happens :
  forall (config : QueryparamConfig) (o : UseQueryParamsOptions) (patch : dict val)
         (mode : option HistoryMode) (url : string) (m : HistoryMode) (w : world),
    window w = None ->
    patchHistory w = Normal tt w
    /\ unpatchHistory w = Normal tt w
    /\ applyUrl url m w = Normal tt w
    /\ syncParams config o patch mode w = Normal tt w
    /\ getSearchParams (option_map location (window w)) = [].
Proof.
  intros config o patch mode url m w Hwin.
  unfold patchHistory, unpatchHistory, applyUrl, syncParams, bind, get_state.
  rewrite Hwin. repeat split.
Qed.


(** X20.  What unmounting removes. Unmounting always completes; it removes
    the handler from the subscribers and from the [popstate] listeners and
    drops the instance, keeps the other subscribers and listeners in their
    order, and leaves the address, the history calls made, the subscriber
    calls made and the runtime of the reader as they are. *)
Theorem unmount_removes_the_handler :
  forall (w : world) (h : nat),
    exists w',
      unmount h w = Normal tt w'
      /\ subs w' = List.filter (fun fn => negb (Nat.eqb fn h)) (subs w)
      /\ option_map popstate (window w')
         = option_map (fun win => List.filter (fun fn => negb (Nat.eqb fn h)) (popstate win))
             (window w)
      /\ ~ In h (subs w')
      /\ find_instance h (instances w') = None
      /\ address w' = address w
      /\ rt w' = rt w
      /\ invoked w' = invoked w.
Proof.
  intros w h.
  assert (Hf : forall l, ~ In h (List.filter (fun fn => negb (Nat.eqb fn h)) l)).
  { intros l Hin. apply filter_In in Hin. destruct Hin as [_ Hin].
    rewrite Nat.eqb_refl in Hin. discriminate Hin. }
  assert (Hd : forall l, find_instance h (drop_instance h l) = None).
  { unfold drop_instance. induction l as [| [k i] l IH]; [reflexivity |]. simpl.
    destruct (Nat.eqb k h) eqn:E; simpl; [exact IH |]. rewrite E. exact IH. }
  unfold unmount, bind, modify, removeEventListener, unpatchHistory, address.
  destruct (window w) as [win |] eqn:Hwin; simpl; [| rewrite Hwin; simpl].
  - destruct (isHistoryPatched w); simpl.
    + destruct (originalPushState w) as [p |], (originalReplaceState w) as [q |]; simpl;
        try (eexists; repeat split; simpl; try apply Hf; try apply Hd; fail).
      destruct (patchCount w - 1 <=? 0)%Z; eexists; repeat split; simpl;
        try apply Hf; try apply Hd.
    + eexists; repeat split; simpl; try apply Hf; try apply Hd.
  - eexists; repeat split; simpl; rewrite ?Hwin; simpl; try apply Hf; try apply Hd;
      reflexivity.
Qed.

End Lifecycle.

(* ================================================================== *)
(** * Edges of a read *)
(* ================================================================== *)

Section ReadEdges.

Context {H : Host}.

Lemma get_none_getAll key sp : USP.get key sp = None -> USP.getAll key sp = [].
Proof.
  rewrite get_entries, getAll_entries. destruct (entries_of key sp); [reflexivity | discriminate].
Qed.

Lemma truthy_not_nullish v : truthy v = true -> nullish v = false.
Proof. destruct v; simpl; congruence. Qed.


(** X11.  A list of strings is never absent. For a key declared [string[]]
    the decoded value is never [null] or [undefined] and decoding reports
    no error; so a validator configured for the key is called once on
    every read, also when the address has no pair for the key. *)
Theorem string_list_is_always_validated :
  forall (config : QueryparamConfig) (o : UseQueryParamsOptions) (sp : URLSearchParams)
         (key : string) (out : snapshot) (r : runtime),
    lookup key config = Some TStringArray ->
    exists out1 r1,
      decode_key config o sp key out r = Normal out1 r1
      /\ nullish (get_prop key out1) = false
      /\ errors r1 = errors r
      /\ forall f,
           lookup key (validation o) = Some f ->
           validated (state_of (getParams_key config o sp key out r))
           = validated r ++ [(key, get_prop key out1)].
Proof.
  intros config o sp key out r Ht.
  assert (D : exists out1 r1,
             decode_key config o sp key out r = Normal out1 r1
             /\ nullish (get_prop key out1) = false
             /\ errors r1 = errors r /\ validated r1 = validated r).
  { unfold decode_key. rewrite Ht. cbv zeta. unfold bind, new_Array, alloc, ret.
    destruct (negb (Nat.eqb (List.length (USP.getAll key sp)) 0)).
    - eexists. eexists. split; [reflexivity |]. rewrite get_set_same. repeat split.
    - destruct (truthy (prop key (defaultValues o))) eqn:Et.
      + eexists. eexists. split; [reflexivity |]. rewrite get_set_same.
        split; [apply truthy_not_nullish; exact Et | split; reflexivity].
      + eexists. eexists. split; [reflexivity |]. rewrite get_set_same. repeat split. }
  destruct D as (out1 & r1 & E & Hn & He & Hv).
  exists out1, r1. split; [exact E |]. split; [exact Hn |]. split; [exact He |].
  intros f Hf. unfold getParams_key, bind. rewrite E.
  rewrite (validate_key_cases o key out1 r1 Hf), Hn.
  destruct (f (get_prop key out1)) as [[] | e]; simpl; try (rewrite Hv; reflexivity).
  destruct (onError o); simpl; rewrite Hv; reflexivity.
Qed.

Lemma parseSingle_boolean text onError key r :
  parseSingle (Some text) (Some TBoolean) None onError (Some key) r
  = if String.eqb text "true" || String.eqb text "1" then Normal (VBool true) r
    else if String.eqb text "false" || String.eqb text "0" then Normal (VBool false) r
    else Normal VUndefined
           (if onError && negb (Str.is_empty key)
            then with_error (Report (Error "Error" ("Invalid boolean: " ++ text))
                               key (VStr text)) r
            else r).
Proof.
  unfold parseSingle, try_catch, Str.includes. simpl.
  rewrite !orb_false_r.
  destruct (String.eqb text "true" || String.eqb text "1"); [reflexivity |].
  destruct (String.eqb text "false" || String.eqb text "0"); [reflexivity |].
  unfold throw, bind, report. destruct (onError && negb (Str.is_empty key)); reflexivity.
Qed.

(** X12.  The texts of a boolean. When the built-in parser reads a text as
    a boolean it reports nothing, and the text is [true] or [1] for true
    and [false] or [0] for false. Writing the value back gives the text
    [true] or [false], which reads as the same value. *)
Theorem boolean_texts_are_normalized :
  forall (text : string) (b : bool) (onError : bool) (key : string) (r r' : runtime),
    parseSingle (Some text) (Some TBoolean) None onError (Some key) r
    = Normal (VBool b) r' ->
    r' = r
    /\ (if b then text = "true" \/ text = "1" else text = "false" \/ text = "0")
    /\ serializeSingle (VBool b) (Some TBoolean) None onError (Some key) r
       = Normal (Some (if b then "true" else "false")) r
    /\ parseSingle (Some (if b then "true" else "false")) (Some TBoolean) None
         onError (Some key) r
       = Normal (VBool b) r.
Proof.
  intros text b onError key r r' E. rewrite parseSingle_boolean in E.
  assert (Hcanon : parseSingle (Some (if b then "true" else "false")) (Some TBoolean) None
                     onError (Some key) r = Normal (VBool b) r)
    by (rewrite parseSingle_boolean; destruct b; reflexivity).
  destruct (String.eqb text "true") eqn:Et; [apply String.eqb_eq in Et |];
    [| destruct (String.eqb text "1") eqn:E1; [apply String.eqb_eq in E1 |]];
    simpl in E;
    try (inversion E; subst; repeat split; tauto).
  destruct (String.eqb text "false") eqn:Ef; [apply String.eqb_eq in Ef |];
    [| destruct (String.eqb text "0") eqn:E0; [apply String.eqb_eq in E0 |]];
    simpl in E;
    try (inversion E; subst; repeat split; tauto).
Qed.

Lemma get_assigned key v s d : get_prop key {| sid := s; props := assign key v d |} = v.
Proof. unfold get_prop, prop. simpl. rewrite lookup_assign_same. reflexivity. Qed.

(** The value a completed decoding step left under its key. *)
Ltac read_back E := inversion E; subst; rewrite ?get_set_same, ?get_assigned.

(** X9.  What a read can put under a key. For a key of a tag other than
    [object], read by the built-in parser, the decoded value is the
    default of the key or a value of the declared type: a string, a finite
    number, a boolean, a valid date, an array of strings. *)
Theorem read_values_are_typed :
  forall (config : QueryparamConfig) (o : UseQueryParamsOptions) (sp : URLSearchParams)
         (key : string) (type : QueryParamType) (out out1 : snapshot) (r r1 : runtime),
    lookup key config = Some type ->
    type <> TObject ->
    lookup key (customSerializers o) = None ->
    decode_key config o sp key out r = Normal out1 r1 ->
    get_prop key out1 = prop key (defaultValues o)
    \/ decoded_as type (get_prop key out1) = true.
Proof.
  intros config o sp key type out out1 r r1 Ht Hobj Hc E.
  unfold decode_key in E. rewrite Ht, Hc in E.
  assert (Hco : forall x, decoded_as type x = true ->
                  coalesce x (prop key (defaultValues o)) = prop key (defaultValues o)
                  \/ decoded_as type (coalesce x (prop key (defaultValues o))) = true).
  { intros x Hx. unfold coalesce. destruct (nullish x); [left; reflexivity | right; exact Hx]. }
  destruct type; try congruence;
    unfold bind, parseSingle, try_catch, new_Date, new_Array, bind, alloc, ret in E;
    simpl in E.
  - (* string *)
    destruct (USP.get key sp) as [text |]; simpl in E; read_back E;
      [first [apply Hco | right] | left]; reflexivity.
  - (* number *)
    destruct (USP.get key sp) as [text |]; simpl in E.
    + destruct (Number_isFinite (Number_of_string text)) eqn:Ef; simpl in E.
      * read_back E. first [apply Hco | right]; exact Ef.
      * unfold throw, bind, report in E.
        destruct (onError o && negb (Str.is_empty key)); simpl in E;
          read_back E; left; reflexivity.
    + read_back E. left. reflexivity.
  - (* boolean *)
    destruct (USP.get key sp) as [text |]; simpl in E.
    + destruct (String.eqb text "true" || (String.eqb text "1" || false)); simpl in E;
        [read_back E; first [apply Hco | right]; reflexivity |].
      destruct (String.eqb text "false" || (String.eqb text "0" || false)); simpl in E;
        [read_back E; first [apply Hco | right]; reflexivity |].
      unfold throw, bind, report in E.
      destruct (onError o && negb (Str.is_empty key)); simpl in E;
        read_back E; left; reflexivity.
    + read_back E. left. reflexivity.
  - (* date *)
    destruct (USP.get key sp) as [text |]; simpl in E.
    + destruct (Date_parse text) as [t |]; simpl in E.
      * read_back E. first [apply Hco | right]; reflexivity.
      * unfold throw, bind, report in E.
        destruct (onError o && negb (Str.is_empty key)); simpl in E;
          read_back E; left; reflexivity.
    + read_back E. left. reflexivity.
  - (* string list *)
    destruct (negb (Nat.eqb (List.length (USP.getAll key sp)) 0)).
    + read_back E. right. simpl.
      apply forallb_forall. intros j Hj. apply in_map_iff in Hj.
      destruct Hj as (s & <- & _). reflexivity.
    + destruct (truthy (prop key (defaultValues o)));
        read_back E; [left | right]; reflexivity.
Qed.

Lemma for_of_ext {S A B} (xs : list A) (body body' : A -> B -> M S B) :
  (forall x b s, In x xs -> body x b s = body' x b s) ->
  forall acc s, for_of xs body acc s = for_of xs body' acc s.
Proof.
  induction xs as [| x rest IH]; intros Hext acc s; [reflexivity |].
  simpl. unfold bind. rewrite (Hext x acc s (or_introl eq_refl)).
  destruct (body' x acc s) as [acc' s' | e s']; [| reflexivity].
  apply IH. intros y b t Hy. apply Hext. right. exact Hy.
Qed.

(** X8.  A read looks at the configured keys only: two addresses that
    agree on the first value of every configured key (on all the values of
    a [string[]] key) give the same read, whatever else their queries
    hold. *)
Theorem read_looks_at_configured_keys_only :
  forall (config : QueryparamConfig) (o : UseQueryParamsOptions)
         (win win' : option Location) (r : runtime),
    (forall key,
        In key (typedKeys config) ->
        match lookup key config with
        | Some TStringArray =>
            USP.getAll key (getSearchParams win) = USP.getAll key (getSearchParams win')
        | _ => USP.get key (getSearchParams win) = USP.get key (getSearchParams win')
        end) ->
    getParams config o win r = getParams config o win' r.
Proof.
  intros config o win win' r Hsame. unfold getParams, bind.
  destruct (new_object r) as [out0 r0 | e r0]; [| reflexivity].
  apply for_of_ext. intros key out s Hin. specialize (Hsame key Hin).
  unfold getParams_key, bind, decode_key.
  destruct (lookup key config) as [[] |]; rewrite Hsame; reflexivity.
Qed.

End ReadEdges.

(* ================================================================== *)
(** * Custom and object codecs *)
(* ================================================================== *)

Section Codecs.

Context {H : Host}.

Lemma getAll_set_same key text sp : USP.getAll key (USP.set key text sp) = [text].
Proof. rewrite getAll_entries, entries_of_set_same. reflexivity. Qed.

Lemma get_set key text sp : USP.get key (USP.set key text sp) = Some text.
Proof. rewrite get_entries, entries_of_set_same. reflexivity. Qed.

(** X5.  Writing an object. For a key declared [object], the patch value
    is written as [encodeURIComponent(JSON.stringify(value))] in a single
    pair, and reading the key back gives [JSON.parse] of the text when
    [decodeURIComponent] undoes the encoding. The value [undefined], for
    which [JSON.stringify] returns [undefined], does not remove the key:
    the pair then carries the encoding of the text [undefined]. *)
Theorem object_patch_writes_json :
  forall (config : QueryparamConfig) (o : UseQueryParamsOptions) (patch : dict val)
         (key : string) (sp : URLSearchParams) (out : snapshot) (r : runtime),
    lookup key config = Some TObject ->
    (forall text encoded,
        JSON_stringify (prop key patch) = Returns (Some text) ->
        encodeURIComponent text = Returns encoded ->
        syncParams_key config o patch key sp r = Normal (USP.set key encoded sp) r
        /\ USP.getAll key (USP.set key encoded sp) = [encoded]
        /\ forall j,
             decodeURIComponent encoded = Returns text ->
             JSON_parse text = Returns j ->
             decode_key config o (USP.set key encoded sp) key out r
             = bind (of_json j)
                 (fun parsed =>
                    ret (set_prop key (coalesce parsed (prop key (defaultValues o))) out)) r)
    /\ (forall encoded,
          JSON_stringify (prop key patch) = Returns None ->
          encodeURIComponent "undefined" = Returns encoded ->
          syncParams_key config o patch key sp r = Normal (USP.set key encoded sp) r
          /\ USP.getAll key (USP.set key encoded sp) = [encoded]).
Proof.
  intros config o patch key sp out r Ht. split.
  - intros text encoded Hs He. split; [| split].
    + unfold syncParams_key, bind, serializeObject, try_catch, bind, call.
      rewrite Ht, Hs. simpl. rewrite He. reflexivity.
    + apply getAll_set_same.
    + intros j Hd Hp. unfold decode_key. rewrite Ht. cbv zeta. rewrite get_set.
      unfold bind, parseObject, try_catch, bind, call. rewrite Hd. simpl. rewrite Hp. simpl.
      destruct (of_json j r) eqn:Ej; [reflexivity |].
      destruct j; discriminate Ej.
  - intros encoded Hs He. split; [| apply getAll_set_same].
    unfold syncParams_key, bind, serializeObject, try_catch, bind, call.
    rewrite Ht, Hs. simpl. rewrite He. reflexivity.
Qed.

(** X13.  Custom serializers are for the scalar tags. For a key declared
    [string[]] or [object] a configured custom serializer is never used,
    neither to read nor to write. For any other key it replaces the built-
    in codec: what the parser returns is taken as it is; what it throws is
    reported with the key and the raw text and the key takes its default;
    a serializer that returns no text, or throws, removes the key. *)
Theorem custom_serializers_are_for_scalars :
  forall (config : QueryparamConfig) (o : UseQueryParamsOptions) (patch : dict val)
         (key : string) (sp : URLSearchParams) (out : snapshot) (r : runtime),
    (lookup key config = Some TStringArray \/ lookup key config = Some TObject ->
     decode_key config o sp key out r = decode_key config (built_in o) sp key out r
     /\ syncParams_key config o patch key sp r
        = syncParams_key config (built_in o) patch key sp r)
    /\ (forall c text,
          lookup key config <> Some TStringArray ->
          lookup key config <> Some TObject ->
          lookup key (customSerializers o) = Some c ->
          USP.get key sp = Some text ->
          decode_key config o sp key out r
          = match parse c text with
            | Returns v =>
                Normal (set_prop key (coalesce v (prop key (defaultValues o))) out) r
            | Throws e =>
                Normal (set_prop key (prop key (defaultValues o)) out)
                  (if onError o && negb (Str.is_empty key)
                   then with_error (Report e key (VStr text)) r else r)
            end)
    /\ (forall c,
          lookup key config <> Some TStringArray ->
          lookup key config <> Some TObject ->
          lookup key (customSerializers o) = Some c ->
          syncParams_key config o patch key sp r
          = match serialize c (prop key patch) with
            | Returns (Some text) => Normal (USP.set key text sp) r
            | Returns None => Normal (USP.delete key sp) r
            | Throws e =>
                Normal (USP.delete key sp)
                  (if onError o && negb (Str.is_empty key)
                   then with_error (Report e key (prop key patch)) r else r)
            end).
Proof.
  intros config o patch key sp out r. split; [| split].
  - intros [Ht | Ht]; unfold decode_key, syncParams_key; rewrite Ht; split; reflexivity.
  - intros c text Hl Ho Hc Hg. unfold decode_key. rewrite Hc, Hg. cbv zeta.
    change (option_map parse (Some c)) with (Some (parse c)).
    assert (E : parseSingle (Some text) (lookup key config) (Some (parse c))
                  (onError o) (Some key) r
                = match parse c text with
                  | Returns v => Normal v r
                  | Throws e =>
                      Normal VUndefined
                        (if onError o && negb (Str.is_empty key)
                         then with_error (Report e key (VStr text)) r else r)
                  end).
    { unfold parseSingle, try_catch, call. destruct (parse c text) as [v | e]; [reflexivity |].
      unfold throw, bind, report. destruct (onError o && negb (Str.is_empty key)); reflexivity. }
    destruct (lookup key config) as [[] |]; try congruence;
      unfold bind; rewrite E; destruct (parse c text); reflexivity.
  - intros c Hl Ho Hc. unfold syncParams_key. rewrite Hc. cbv zeta.
    change (option_map serialize (Some c)) with (Some (serialize c)).
    assert (E : serializeSingle (prop key patch) (lookup key config) (Some (serialize c))
                  (onError o) (Some key) r
                = match serialize c (prop key patch) with
                  | Returns s => Normal s r
                  | Throws e =>
                      Normal None
                        (if onError o && negb (Str.is_empty key)
                         then with_error (Report e key (prop key patch)) r else r)
                  end).
    { unfold serializeSingle, try_catch, call.
      destruct (serialize c (prop key patch)) as [s | e]; [reflexivity |].
      unfold throw, bind, report. destruct (onError o && negb (Str.is_empty key)); reflexivity. }
    destruct (lookup key config) as [[] |]; try congruence;
      unfold bind; rewrite E; destruct (serialize c (prop key patch)) as [[s |] | e];
      reflexivity.
Qed.


End Codecs.

(* ================================================================== *)
(** * The claims on concrete pages *)
(* ================================================================== *)

Import RefHost Scenario.

(** Replace a closed term of the goal by its value. *)
Ltac evaluate t := let v := eval vm_compute in t in change t with v.

(** C4, counterexample.  On [/list?page=1] the patches [{page: NaN}] and
    [{page: '2'}] (a string under the tag number) both remove the key from
    the address, and [onError], though configured, is never called. *)
Lemma nonconforming_value_not_reported :
  let after_nan := state_of (syncParams page_config loud [("page", VNum NaN)] None on_page_1) in
  let after_text := state_of (syncParams page_config loud [("page", VStr "2")] None on_page_1) in
  option_map (fun win => search (location win)) (window after_nan) = Some EmptyString
  /\ errors (rt after_nan) = []
  /\ option_map (fun win => search (location win)) (window after_text) = Some EmptyString
  /\ errors (rt after_text) = [].
Proof. repeat split; reflexivity. Qed.


(** C9, counterexample.  The object key [f] is present in [?f=5] and
    decodes to the number 5; the list key [tags] is present in [?tags=a]
    and its validator rejects it, so the key takes its (absent) default.
    In both cases two reads of the unchanged address are judged equal. *)
Lemma present_keys_judged_equal :
  read_twice object_config no_options at_f_5 = Some true
  /\ read_twice tags_config rejecting at_tags_a = Some true.
Proof. split; reflexivity. Qed.


(** ** The theorems at concrete inputs *)

Lemma nodup_one (key : string) : NoDup [key].
Proof. constructor; [intros [] | constructor]. Defined.

Lemma nodup_search_patch : NoDup (typedKeys search_patch).
Proof.
  constructor; [| apply nodup_one]. intros [E | []]. discriminate E.
Defined.

(** The comparator of the reference host orders the names. *)
Lemma string_compare_orders : orders_names String.compare.
Proof.
  assert (Hanti : forall a b, String.compare a b = CompOpp (String.compare b a))
    by apply String.compare_antisym.
  split; [| split].
  - intros a b E. rewrite (Hanti b a), E. discriminate.
  - induction a as [| x a IH]; intros [| y b] [| z c]; simpl; try congruence.
    unfold Ascii.compare.
    destruct (N.compare_spec (N_of_ascii x) (N_of_ascii y)) as [Exy | Lxy | Gxy];
      destruct (N.compare_spec (N_of_ascii y) (N_of_ascii z)) as [Eyz | Lyz | Gyz];
      try congruence; intros Hab Hbc.
    + rewrite Exy, Eyz, N.compare_refl. apply IH with (b := b); assumption.
    + rewrite Exy. apply N.compare_lt_iff in Lyz. rewrite Lyz. discriminate.
    + rewrite <- Eyz. apply N.compare_lt_iff in Lxy. rewrite Lxy. discriminate.
    + assert (L : (N_of_ascii x < N_of_ascii z)%N) by lia.
      apply N.compare_lt_iff in L. rewrite L. discriminate.
  - intros a b Hab Hba. apply String.compare_eq_iff.
    rewrite (Hanti a b) in Hab |- *. destruct (String.compare b a) eqn:E; simpl in *; congruence.
Qed.

Lemma shared_interception_lost_witness :
  mount page_config no_options (fresh_page root) = Normal 1 mounted_once
  /\ mount page_config no_options mounted_once = Normal 3 mounted_twice
  /\ patchCount mounted_twice = 1%Z
  /\ exists w3,
      unmount 1 mounted_twice = Normal tt w3
      /\ find_instance 3 (instances w3) <> None
      /\ subs w3 = [3]
      /\ isHistoryPatched w3 = false
      /\ option_map pushState (window w3) = Some Native
      /\ option_map replaceState (window w3) = Some Native
      /\ forall mode url,
           invoked (state_of (history_call mode url w3)) = invoked w3.
Proof.
  split; [reflexivity |]. split; [reflexivity |].
  apply (shared_interception_lost root page_config no_options page_config no_options
           (h1 := 1) (w1 := mounted_once) (h2 := 3) (w2 := mounted_twice));
    reflexivity.
Defined.

Lemma validator_exception_escapes_witness :
  let type_error := Error "TypeError" "Cannot read properties of undefined" in
  let l := {| pathname := "/list"; search := "?filters=%7B%7D"; hash := EmptyString |} in
  (exists r', getParams filters_config with_status (Some l) rt0 = Abrupt type_error r')
  /\ (exists w', mount filters_config with_status on_empty_filters = Abrupt type_error w').
Proof.
  intros type_error l.
  apply (validator_exception_escapes filters_config with_status on_empty_filters
           (win := {| location := l; pushState := Native; replaceState := Native;
                      popstate := []; navigations := [] |})
           (key := "filters") (rest := []) (f := has_status)
           (out1 := {| sid := 0; props := [("filters", VObject 1 [])] |})
           (r1 := {| next_id := 2; errors := []; validated := [] |}));
    reflexivity.
Defined.

Lemma nonconforming_value_is_dropped_unreported_witness :
  syncParams_key page_config loud [("page", VNum NaN)] "page" [("page", "1")] rt0
  = Normal (USP.delete "page" [("page", "1")]) rt0.
Proof.
  apply (proj1 (nonconforming_value_is_dropped_unreported page_config loud
                  [("page", VNum NaN)] "page" [("page", "1")] rt0
                  (type := TNumber) eq_refl eq_refl));
    reflexivity.
Defined.


Lemma validator_runs_once_per_read_witness :
  exists out1 r1,
    decode_key page_config checked (getSearchParams at_page_minus_1) "page"
      {| sid := 0; props := [] |} rt0 = Normal out1 r1
    /\ validated r1 = validated rt0
    /\ getParams_key page_config checked (getSearchParams at_page_minus_1) "page"
         {| sid := 0; props := [] |} rt0
       = validated_iteration checked "page" positive out1 r1.
Proof.
  apply (proj1 (validator_runs_once_per_read page_config checked "page"
                  (f := positive) eq_refl)).
Defined.

Lemma object_codec_fails_silently_witness :
  parseObject (Some "%") rt0 = Normal VUndefined rt0
  /\ serializeObject (VBigInt 1) rt0 = Normal None rt0.
Proof.
  destruct (object_codec_fails_silently filters_config loud [("filters", "%")]
              "filters" (raw := "%") [("filters", VBigInt 1)]
              {| sid := 0; props := [] |} rt0 eq_refl eq_refl eq_refl eq_refl)
    as (Hdecode & Hencode & _).
  split; assumption.
Defined.

Lemma codec_round_trip_witness :
  round_trip TString (VStr "a b") true (Some "q") rt0 = Normal (VStr "a b") rt0
  /\ round_trip TBoolean (VBool true) true (Some "q") rt0 = Normal (VBool true) rt0
  /\ round_trip TNumber (VNum (Int 5)) true (Some "q") rt0 = Normal (VNum (Int 5)) rt0
  /\ round_trip TDate (VDate 7 (Some 1700000000123%Z)) true (Some "q") rt0
     = Normal (VDate (next_id rt0) (Some 1700000000123%Z)) (allocated rt0)
  /\ serializeSingle (VNum NaN) (Some TNumber) None true (Some "q") rt0 = Normal None rt0.
Proof.
  apply (codec_round_trip true (Some "q") rt0 "a b" true NaN 7
           (n := Int 5) (t := 1700000000123%Z));
    reflexivity.
Defined.

Lemma tags_a_not_rejected :
  not_rejected tags_config nonempty_tags (getSearchParams at_tags_a) "tags".
Proof.
  intros f out r out1 r1 Ef D.
  inversion Ef; subst f. inversion D; subst out1 r1.
  rewrite get_set_same. discriminate.
Qed.

Lemma fresh_objects_defeat_shallowEqual_witness :
  getParams tags_config nonempty_tags at_tags_a rt0 = Normal first_snapshot accepted_first
  /\ getParams tags_config nonempty_tags at_tags_a accepted_first
     = Normal second_snapshot accepted_second
  /\ shallowEqual first_snapshot second_snapshot = false.
Proof.
  split; [reflexivity |]. split; [reflexivity |].
  apply (proj1 (proj1 (@fresh_objects_defeat_shallowEqual host tags_config nonempty_tags
                         at_tags_a "tags" (nodup_one "tags") eq_refl tags_a_not_rejected)
                  rt0 first_snapshot accepted_first accepted_first second_snapshot
                  accepted_second eq_refl (le_n _) eq_refl)).
Defined.

Lemma calm_mounted_once : calm mounted_once.
Proof.
  constructor; [| constructor]. intros key f v E. discriminate E.
Defined.


(** ** The further properties at concrete inputs *)

Lemma patch_then_read_witness :
  exists win' sp,
    window (state_of (syncParams page_config loud page_2_patch None on_page_1)) = Some win'
    /\ (win' = page_1_window /\ sp = getSearchParams (Some (location page_1_window))
        \/ exists m url,
             navigations win' = navigations page_1_window ++ [(m, url)]
             /\ sp = query_of_url url)
    /\ forall out r,
         USP.getAll "page" sp = ["2"]
         /\ decode_key page_config loud sp "page" out r
            = Normal (set_prop "page" (VNum (Int 2)) out) r.
Proof.
  destruct (@patch_then_read host page_config loud page_2_patch None on_page_1
              page_1_window "page" TNumber eq_refl eq_refl eq_refl (nodup_one "page")
              (or_introl eq_refl) eq_refl eq_refl)
    as (win' & sp & W & Hleft & _ & _ & Hnum & _).
  exists win', sp. split; [exact W |]. split; [exact Hleft |]. intros out r.
  apply (Hnum (Int 2) out r eq_refl eq_refl eq_refl eq_refl).
Defined.

Lemma syncParams_commits_the_patched_query_witness :
  exists win',
    window patched_once = Some win'
    /\ navigations win' = navigations app_window ++ [(replace, "/app?tags=a&q=x#top")]
    /\ query_of_url "/app?tags=a&q=x#top" = [("tags", "a"); ("q", "x")].
Proof.
  destruct (@syncParams_commits_the_patched_query host search_config no_options search_patch
              None on_app app_window eq_refl eq_refl eq_refl)
    as (sp' & r' & win' & E & W & Hcommit).
  assert (Hsp : sp' = [("tags", "a"); ("q", "x")]) by (inversion E; reflexivity).
  subst sp'. destruct Hcommit as (Hn & _ & Hq).
  exists win'. split; [exact W |]. split; [exact Hn |]. apply Hq. reflexivity.
Defined.

Lemma patch_leaves_other_keys_witness :
  exists sp' r',
    patched_query search_config no_options search_patch tracked rt0 = Normal sp' r'
    /\ USP.getAll "utm" sp' = USP.getAll "utm" tracked
    /\ USP.get "utm" sp' = USP.get "utm" tracked.
Proof.
  destruct (@patch_leaves_other_keys host search_config no_options search_patch tracked rt0)
    as (sp' & r' & E & _ & Hk).
  exists sp', r'. split; [exact E |]. apply Hk.
  intros [E1 | [E2 | []]]; discriminate.
Defined.

Lemma string_list_patch_witness :
  syncParams_key search_config no_options search_patch "tags" tracked rt0
  = Normal (USP.delete "tags" tracked ++ [("tags", "a")]) rt0
  /\ USP.getAll "tags" (USP.delete "tags" tracked ++ [("tags", "a")]) = ["a"]
  /\ decode_key search_config no_options (USP.delete "tags" tracked ++ [("tags", "a")])
       "tags" {| sid := 0; props := [] |} rt0
     = Normal (set_prop "tags" (VArray (next_id rt0) [JStr "a"]) {| sid := 0; props := [] |})
         (allocated rt0).
Proof.
  apply (proj1 (@string_list_patch host search_config no_options search_patch "tags" tracked
                  {| sid := 0; props := [] |} rt0 eq_refl)
           100 [JStr "a"] eq_refl eq_refl).
  discriminate.
Defined.

Lemma object_patch_writes_json_witness :
  syncParams_key object_config no_options pair_patch "f" [] rt0
  = Normal (USP.set "f" "%5B1%2C2%5D" []) rt0
  /\ syncParams_key object_config no_options [] "f" [] rt0
     = Normal (USP.set "f" "undefined" []) rt0.
Proof.
  destruct (@object_patch_writes_json host object_config no_options pair_patch "f" []
              {| sid := 0; props := [] |} rt0 eq_refl) as [Hjson _].
  destruct (@object_patch_writes_json host object_config no_options [] "f" []
              {| sid := 0; props := [] |} rt0 eq_refl) as [_ Hundefined].
  split.
  - apply (Hjson "[1,2]" "%5B1%2C2%5D" eq_refl eq_refl).
  - apply (Hundefined "undefined" eq_refl eq_refl).
Defined.



Lemma page_pairs_agree :
  forall key,
    In key (typedKeys page_config) ->
    match lookup key page_config with
    | Some TStringArray =>
        USP.getAll key (getSearchParams at_page_1)
        = USP.getAll key (getSearchParams at_page_1_tracked)
    | _ => USP.get key (getSearchParams at_page_1)
           = USP.get key (getSearchParams at_page_1_tracked)
    end.
Proof. intros key [<- | []]. reflexivity. Defined.

Lemma read_looks_at_configured_keys_only_witness :
  getParams page_config loud at_page_1 rt0 = getParams page_config loud at_page_1_tracked rt0.
Proof.
  apply (@read_looks_at_configured_keys_only host page_config loud at_page_1
           at_page_1_tracked rt0 page_pairs_agree).
Defined.

Lemma read_values_are_typed_witness :
  let out1 := {| sid := 0; props := [("page", VNum (Int (-1)))] |} in
  get_prop "page" out1 = prop "page" (defaultValues checked)
  \/ decoded_as TNumber (get_prop "page" out1) = true.
Proof.
  intros out1.
  apply (@read_values_are_typed host page_config checked (getSearchParams at_page_minus_1)
           "page" TNumber {| sid := 0; props := [] |} out1 rt0 rt0 eq_refl);
    [discriminate | reflexivity | reflexivity].
Defined.


Lemma string_list_is_always_validated_witness :
  exists out1 r1,
    decode_key tags_config rejecting [] "tags" {| sid := 0; props := [] |} rt0
    = Normal out1 r1
    /\ nullish (get_prop "tags" out1) = false
    /\ validated (state_of (getParams_key tags_config rejecting [] "tags"
                              {| sid := 0; props := [] |} rt0))
       = validated rt0 ++ [("tags", get_prop "tags" out1)].
Proof.
  destruct (@string_list_is_always_validated host tags_config rejecting [] "tags"
              {| sid := 0; props := [] |} rt0 eq_refl) as (out1 & r1 & E & Hn & _ & Hv).
  exists out1, r1. split; [exact E |]. split; [exact Hn |].
  apply (Hv (fun _ => Returns false) eq_refl).
Defined.

Lemma boolean_texts_are_normalized_witness :
  rt0 = rt0
  /\ ("1" = "true" \/ "1" = "1")
  /\ serializeSingle (VBool true) (Some TBoolean) None true (Some "flag") rt0
     = Normal (Some "true") rt0
  /\ parseSingle (Some "true") (Some TBoolean) None true (Some "flag") rt0
     = Normal (VBool true) rt0.
Proof.
  apply (@boolean_texts_are_normalized host "1" true true "flag" rt0 rt0 eq_refl).
Defined.

Lemma custom_serializers_are_for_scalars_witness :
  decode_key search_config with_marking tracked "tags" {| sid := 0; props := [] |} rt0
  = decode_key search_config (built_in with_marking) tracked "tags"
      {| sid := 0; props := [] |} rt0
  /\ decode_key search_config with_marking [("q", "x")] "q" {| sid := 0; props := [] |} rt0
     = Normal (set_prop "q" (VStr "#x") {| sid := 0; props := [] |}) rt0
  /\ syncParams_key search_config with_marking [("q", VNum (Int 1))] "q" [("q", "x")] rt0
     = Normal []
         (with_error (Report (Error "TypeError" "not a string") "q" (VNum (Int 1))) rt0).
Proof.
  split; [| split].
  - apply (proj1 (@custom_serializers_are_for_scalars host search_config with_marking []
                    "tags" tracked {| sid := 0; props := [] |} rt0)).
    left. reflexivity.
  - apply (proj1 (proj2 (@custom_serializers_are_for_scalars host search_config with_marking
                           [] "q" [("q", "x")] {| sid := 0; props := [] |} rt0))
             marking "x"); try discriminate; reflexivity.
  - apply (proj2 (proj2 (@custom_serializers_are_for_scalars host search_config with_marking
                           [("q", VNum (Int 1))] "q" [("q", "x")]
                           {| sid := 0; props := [] |} rt0))
             marking); try discriminate; reflexivity.
Defined.

Lemma finite_numbers_equal_themselves :
  forall n : num, Number_isFinite n = true -> number_strict_eq n n = true.
Proof. intros [| negative | z] E; try discriminate E. apply Z.eqb_refl. Qed.

Lemma checked_defaults_equal_themselves :
  forall key d, lookup key (defaultValues checked) = Some d -> self_equal d = true.
Proof.
  intros key d E. unfold checked in E. cbn [defaultValues lookup] in E.
  destruct (String.eqb "page" key); [| discriminate E].
  inversion E. reflexivity.
Qed.

Lemma checked_validators_return : validators_return checked.
Proof.
  intros key f v E. unfold checked in E. cbn [validation lookup] in E.
  destruct (String.eqb "page" key); [| discriminate E].
  inversion E. destruct v as [| | | [| negative | z] | | | | |]; eexists; reflexivity.
Qed.


Lemma setParams_merges_witness :
  exists state r',
    setParams second_snapshot first_snapshot after_second = Normal state r'
    /\ sid state = next_id after_second
    /\ r' = allocated after_second
    /\ get_prop "tags" state = VArray 3 [JStr "a"].
Proof.
  destruct (@setParams_merges host second_snapshot first_snapshot after_second
              (nodup_one "tags")) as (state & r' & E & Hcases & _); [discriminate |].
  exists state, r'. split; [exact E |].
  change (shallowEqual first_snapshot second_snapshot) with false in Hcases.
  destruct Hcases as (Hs & Hr & Hk). split; [exact Hs |]. split; [exact Hr |].
  apply (Hk "tags").
Defined.



Lemma mount_then_unmount_restores_the_page_witness :
  subs mounted_once = [1]
  /\ unmount 1 mounted_once = Normal tt (set_rt (rt mounted_once) (fresh_page root)).
Proof.
  destruct (@mount_then_unmount_restores_the_page host root page_config no_options 1
              mounted_once eq_refl) as (_ & _ & _ & Hs & Hu).
  split; assumption.
Defined.

Lemma without_a_window_nothing_happens_witness :
  patchHistory on_server = Normal tt on_server
  /\ unpatchHistory on_server = Normal tt on_server
  /\ applyUrl "/?page=2" push on_server = Normal tt on_server
  /\ syncParams page_config loud page_2_patch None on_server = Normal tt on_server
  /\ getSearchParams (option_map location (window on_server)) = [].
Proof.
  apply (@without_a_window_nothing_happens host page_config loud page_2_patch None
           "/?page=2" push on_server eq_refl).
Defined.

Lemma calm_after_first_unmount : calm after_first_unmount.
Proof.
  constructor; [| constructor]. intros key f v E. discriminate E.
Qed.

